(** * A shallow embedding of the [lexer] package

    The package combines an ordered list of lexeme patterns into one regular
    expression, [(?P<0>^p0)|(?P<1>^p1)|...], compiles it with Go's [regexp]
    package in leftmost-longest mode, and scans an input buffer: skip
    whitespace, find a match in the remaining input, look for the first
    capturing group that took part in the match and whose name is a number,
    emit a token carrying that number, advance.

    Layout of the development:
    - [Bytes]      : byte predicates ([unicode.IsSpace] on a byte, word
                     characters);
    - [Syntax]     : the abstract syntax of the expressions handled here and
                     the parser of their concrete syntax;
    - [Matcher]    : the backtracking semantics, leftmost-longest search and
                     the [regexp] entry points the lexer calls;
    - [Strconv]    : [fmt.Sprintf("%d")] and [strconv.ParseInt];
    - the package itself: [Token], [TokenList], [Error], [indexedBuffer],
      [New], [getNextToken], [Lex];
    - theorems.

    Go's [int] is modelled by [Z].  Every integer the package computes is a
    capture offset or a buffer index bounded by the length of a slice, or a
    value returned by [ParseInt] with bit size 32, so no operation wraps.
    A [[]byte] is a [list ascii], a Go [string] is a [string]. *)

From Stdlib Require Import List String Ascii ZArith NArith Bool Lia Arith.
From Stdlib Require Import DecimalString DecimalN.
Import ListNotations.

Local Open Scope string_scope.
Local Open Scope list_scope.

Set Implicit Arguments.

(* ================================================================== *)
(** ** Bytes *)

Module Bytes.

Definition code (c : ascii) : N := N_of_ascii c.

Definition in_range (lo hi : N) (c : ascii) : bool :=
  (N.leb lo (code c) && N.leb (code c) hi)%bool.

(** [unicode.IsSpace(rune(r))] for a byte [r]: in the Latin-1 range the
    white space characters are ['\t'], ['\n'], ['\v'], ['\f'], ['\r'],
    [' '], U+0085 (NEL) and U+00A0 (NBSP). *)
Definition IsSpace (c : ascii) : bool :=
  (in_range 9 13 c || N.eqb (code c) 32
   || N.eqb (code c) 133 || N.eqb (code c) 160)%bool.

Definition newline : ascii := ascii_of_N 10.

Definition is_digit (c : ascii) : bool := in_range 48 57 c.
Definition is_upper (c : ascii) : bool := in_range 65 90 c.
Definition is_lower (c : ascii) : bool := in_range 97 122 c.
Definition is_alpha (c : ascii) : bool := (is_upper c || is_lower c)%bool.
Definition is_alnum (c : ascii) : bool := (is_alpha c || is_digit c)%bool.

(** [syntax.IsWordChar]: [[0-9A-Za-z_]]. *)
Definition is_word (c : ascii) : bool :=
  (is_alnum c || N.eqb (code c) 95)%bool.

Definition is_ascii (c : ascii) : bool := N.ltb (code c) 128.

End Bytes.

(* ================================================================== *)
(** ** UTF-8

    [regexp] reads the text rune by rune.  [DecodeRune] follows
    [utf8.DecodeRune]: the first rune of a byte slice and the number of
    bytes of its encoding, [(RuneError, 1)] when the slice does not start
    with a well-formed encoding (a stray continuation byte, an overlong
    form, a surrogate, a value above U+10FFFF, a truncated sequence), and
    [(RuneError, 0)] for the empty slice. *)

Module Utf8.

Definition RuneError : N := 65533.

Definition low6 (c : ascii) : N := N.land (Bytes.code c) 63.

Definition DecodeRune (p : list ascii) : N * nat :=
  match p with
  | [] => (RuneError, 0)
  | p0 :: p' =>
    let c0 := Bytes.code p0 in
    if N.ltb c0 128 then (c0, 1)                       (* ASCII *)
    else if N.ltb c0 194 then (RuneError, 1)           (* 80..C1 *)
    else if N.ltb c0 224 then                          (* C2..DF: two bytes *)
      match p' with
      | b1 :: _ =>
        if Bytes.in_range 128 191 b1
        then (N.lor (N.shiftl (N.land c0 31) 6) (low6 b1), 2)
        else (RuneError, 1)
      | [] => (RuneError, 1)
      end
    else if N.ltb c0 240 then                          (* E0..EF: three bytes *)
      match p' with
      | b1 :: b2 :: _ =>
        let lo := if N.eqb c0 224 then 160%N else 128%N in
        let hi := if N.eqb c0 237 then 159%N else 191%N in
        if (Bytes.in_range lo hi b1 && Bytes.in_range 128 191 b2)%bool
        then (N.lor (N.shiftl (N.land c0 15) 12)
                    (N.lor (N.shiftl (low6 b1) 6) (low6 b2)), 3)
        else (RuneError, 1)
      | _ => (RuneError, 1)
      end
    else if N.ltb c0 245 then                          (* F0..F4: four bytes *)
      match p' with
      | b1 :: b2 :: b3 :: _ =>
        let lo := if N.eqb c0 240 then 144%N else 128%N in
        let hi := if N.eqb c0 244 then 143%N else 191%N in
        if (Bytes.in_range lo hi b1 && Bytes.in_range 128 191 b2
            && Bytes.in_range 128 191 b3)%bool
        then (N.lor (N.shiftl (N.land c0 7) 18)
                    (N.lor (N.shiftl (low6 b1) 12)
                           (N.lor (N.shiftl (low6 b2) 6) (low6 b3))), 4)
        else (RuneError, 1)
      | _ => (RuneError, 1)
      end
    else (RuneError, 1)                                (* F5..FF *)
  end.

End Utf8.

(* ================================================================== *)
(** ** Syntax of regular expressions

    The expressions of Go's [regexp/syntax] that this development handles:
    literals, [.], bracket expressions with ranges, negation and POSIX
    classes, the assertions [^], [$], [\A], [\z], [\b], [\B], concatenation,
    alternation, [*], [+], [?] (greedy or not), capturing groups (named
    [(?P<name>...)] or not) and non-capturing groups [(?:...)].  Everything
    else (counted repetition, flags, Perl and Unicode classes, octal and
    hexadecimal escapes, non-ASCII pattern bytes) is refused with
    [Unsupported], so an expression accepted here is read the way [regexp]
    reads it.  Patterns and input are interpreted byte by byte, which is how
    [regexp] sees ASCII text. *)

Module Syntax.

Inductive atom : Type :=
| Lit (c : ascii)
| AnyNotNL
| Class (neg : bool) (ranges : list (N * N)).

Inductive assertion : Type :=
| BeginText | EndText | WordBoundary | NoWordBoundary.

(** [Star r] is the loop of the compiled program: zero or more iterations
    of [r], each consuming at least one byte (an iteration that consumes
    nothing comes back to a program state already visited at that
    position, and its thread is dropped). *)
Inductive regex : Type :=
| Empty
| Atom (a : atom)
| Assert (k : assertion)
| Cat (r1 r2 : regex)
| Alt (r1 r2 : regex)
| Star (r : regex)
| Capture (k : nat) (r : regex).

Inductive repop : Type := RStar | RPlus | RQuest.

Inductive tok : Type :=
| TAtom (a : atom)
| TAssert (k : assertion)
| TOpen (name : string)        (* capturing group; [""] when unnamed *)
| TOpenNC                      (* [(?:] *)
| TClose
| TBar
| TRep (op : repop).

Inductive error : Type :=
| TrailingBackslash
| InvalidEscape
| MissingBracket
| InvalidCharRange
| InvalidNamedCapture
| MissingRepeatArgument
| InvalidRepeatOp
| UnexpectedParen
| MissingParen
| Unsupported.

Inductive result (A : Type) : Type :=
| Ok (a : A)
| Err (e : error).
Arguments Err {A} e.

Definition bind {A B} (x : result A) (f : A -> result B) : result B :=
  match x with Ok a => f a | Err e => Err e end.

Definition cons_tok (t : tok) (r : result (list tok)) : result (list tok) :=
  bind r (fun ts => Ok (t :: ts)).

(** *** Escapes and classes *)

Definition is_punct_escape (c : ascii) : bool :=
  (Bytes.is_ascii c && negb (Bytes.is_alnum c))%bool.

(** The value of the escape [\c] as a single character, when it is one. *)
Definition escape_char (c : ascii) : result ascii :=
  if is_punct_escape c then Ok c
  else if Ascii.eqb c "n" then Ok (ascii_of_N 10)
  else if Ascii.eqb c "t" then Ok (ascii_of_N 9)
  else if Ascii.eqb c "r" then Ok (ascii_of_N 13)
  else if Ascii.eqb c "f" then Ok (ascii_of_N 12)
  else if Ascii.eqb c "v" then Ok (ascii_of_N 11)
  else if Ascii.eqb c "a" then Ok (ascii_of_N 7)
  else if Bytes.is_ascii c then Err Unsupported
  else Err InvalidEscape.

(** The classes [[:name:]] of [regexp/syntax]; a name of lower case
    letters that is not one of them is an error of range. *)
Definition posix_class (name : string) : result (list (N * N)) :=
  if String.eqb name "alnum" then Ok [(48, 57); (65, 90); (97, 122)]%N
  else if String.eqb name "alpha" then Ok [(65, 90); (97, 122)]%N
  else if String.eqb name "ascii" then Ok [(0, 127)]%N
  else if String.eqb name "blank" then Ok [(9, 9); (32, 32)]%N
  else if String.eqb name "cntrl" then Ok [(0, 31); (127, 127)]%N
  else if String.eqb name "digit" then Ok [(48, 57)]%N
  else if String.eqb name "graph" then Ok [(33, 126)]%N
  else if String.eqb name "lower" then Ok [(97, 122)]%N
  else if String.eqb name "print" then Ok [(32, 126)]%N
  else if String.eqb name "punct"
  then Ok [(33, 47); (58, 64); (91, 96); (123, 126)]%N
  else if String.eqb name "space" then Ok [(9, 13); (32, 32)]%N
  else if String.eqb name "upper" then Ok [(65, 90)]%N
  else if String.eqb name "word" then Ok [(48, 57); (65, 90); (95, 95); (97, 122)]%N
  else if String.eqb name "xdigit" then Ok [(48, 57); (65, 70); (97, 102)]%N
  else Err InvalidCharRange.

(** The Perl classes [\d], [\s] and [\w]. *)
Definition perl_d : list (N * N) := [(48, 57)]%N.
Definition perl_s : list (N * N) := [(9, 10); (12, 13); (32, 32)]%N.
Definition perl_w : list (N * N) := [(48, 57); (65, 90); (95, 95); (97, 122)]%N.

Definition single (c : ascii) : N * N := (Bytes.code c, Bytes.code c).

(** *** The scanner

    One function per scanner state, all structurally recursive on the
    remaining pattern text:
    - [tokenize]   : between tokens;
    - [tok_name]   : inside the name of [(?P<name>];
    - [tok_class]  : inside a bracket expression ([first] is true on its
                     first item, where [']'] is a literal);
    - [tok_posix]  : inside [[:name:]] within a bracket expression. *)

Fixpoint tokenize (s : list ascii) : result (list tok) :=
  match s with
  | [] => Ok []
  | c :: t =>
    if Ascii.eqb c "\" then
      match t with
      | [] => Err TrailingBackslash
      | e :: t' =>
        if Ascii.eqb e "b" then cons_tok (TAssert WordBoundary) (tokenize t')
        else if Ascii.eqb e "B" then cons_tok (TAssert NoWordBoundary) (tokenize t')
        else if Ascii.eqb e "A" then cons_tok (TAssert BeginText) (tokenize t')
        else if Ascii.eqb e "z" then cons_tok (TAssert EndText) (tokenize t')
        else if Ascii.eqb e "d" then
          cons_tok (TAtom (Class false perl_d)) (tokenize t')
        else if Ascii.eqb e "D" then
          cons_tok (TAtom (Class true perl_d)) (tokenize t')
        else if Ascii.eqb e "s" then
          cons_tok (TAtom (Class false perl_s)) (tokenize t')
        else if Ascii.eqb e "S" then
          cons_tok (TAtom (Class true perl_s)) (tokenize t')
        else if Ascii.eqb e "w" then
          cons_tok (TAtom (Class false perl_w)) (tokenize t')
        else if Ascii.eqb e "W" then
          cons_tok (TAtom (Class true perl_w)) (tokenize t')
        else match escape_char e with
             | Ok x => cons_tok (TAtom (Lit x)) (tokenize t')
             | Err err => Err err
             end
      end
    else if Ascii.eqb c "(" then
      match t with
      | q :: t' =>
        if Ascii.eqb q "?" then
          match t' with
          | p :: t'' =>
            if Ascii.eqb p ":" then cons_tok TOpenNC (tokenize t'')
            else if Ascii.eqb p "P" then
              match t'' with
              | lt :: t3 =>
                if Ascii.eqb lt "<" then tok_name [] t3
                else Err Unsupported
              | [] => Err Unsupported
              end
            else Err Unsupported
          | [] => Err Unsupported
          end
        else cons_tok (TOpen "") (tokenize t)
      | [] => cons_tok (TOpen "") (tokenize t)
      end
    else if Ascii.eqb c ")" then cons_tok TClose (tokenize t)
    else if Ascii.eqb c "|" then cons_tok TBar (tokenize t)
    else if Ascii.eqb c "^" then cons_tok (TAssert BeginText) (tokenize t)
    else if Ascii.eqb c "$" then cons_tok (TAssert EndText) (tokenize t)
    else if Ascii.eqb c "." then cons_tok (TAtom AnyNotNL) (tokenize t)
    else if Ascii.eqb c "[" then
      match t with
      | n :: t' =>
        if Ascii.eqb n "^" then tok_class true true [] t'
        else tok_class false true [] t
      | [] => Err MissingBracket
      end
    else if (Ascii.eqb c "*" || Ascii.eqb c "+" || Ascii.eqb c "?")%bool then
      let op := if Ascii.eqb c "*" then RStar
                else if Ascii.eqb c "+" then RPlus else RQuest in
      match t with
      | q :: t' =>
        if Ascii.eqb q "?" then cons_tok (TRep op) (tokenize t')
        else cons_tok (TRep op) (tokenize t)
      | [] => cons_tok (TRep op) (tokenize t)
      end
    else if Ascii.eqb c "{" then Err Unsupported
    else if Bytes.is_ascii c then cons_tok (TAtom (Lit c)) (tokenize t)
    else Err Unsupported
  end

with tok_name (acc : list ascii) (s : list ascii) : result (list tok) :=
  match s with
  | [] => Err InvalidNamedCapture
  | c :: t =>
    if Ascii.eqb c ">" then
      match acc with
      | [] => Err InvalidNamedCapture
      | _ => cons_tok (TOpen (string_of_list_ascii (rev acc))) (tokenize t)
      end
    else if Bytes.is_word c then tok_name (c :: acc) t
    else Err InvalidNamedCapture
  end

with tok_class (neg first : bool) (acc : list (N * N)) (s : list ascii)
  : result (list tok) :=
  match s with
  | [] => Err MissingBracket
  | c :: t =>
    if (Ascii.eqb c "]" && negb first)%bool then
      cons_tok (TAtom (Class neg (rev acc))) (tokenize t)
    else if Ascii.eqb c "[" then
      match t with
      | d :: t' =>
        if Ascii.eqb d ":" then tok_posix neg acc [] t'
        else Err Unsupported
      | [] => Err MissingBracket
      end
    else if Ascii.eqb c "\" then
      match t with
      | [] => Err TrailingBackslash
      | e :: t' =>
        match escape_char e with
        | Ok x =>
          match t' with
          | d :: _ => if Ascii.eqb d "-" then Err Unsupported
                      else tok_class neg false (single x :: acc) t'
          | [] => Err MissingBracket
          end
        | Err err => Err err
        end
      end
    else if negb (Bytes.is_ascii c) then Err Unsupported
    else
      match t with
      | d :: t' =>
        if Ascii.eqb d "-" then
          match t' with
          | h :: t'' =>
            if Ascii.eqb h "]" then tok_class neg false (single c :: acc) t
            else if (Ascii.eqb h "\" || Ascii.eqb h "["
                     || negb (Bytes.is_ascii h))%bool then Err Unsupported
            else if N.ltb (Bytes.code h) (Bytes.code c) then Err InvalidCharRange
            else tok_class neg false ((Bytes.code c, Bytes.code h) :: acc) t''
          | [] => Err MissingBracket
          end
        else tok_class neg false (single c :: acc) t
      | [] => Err MissingBracket
      end
  end

with tok_posix (neg : bool) (acc : list (N * N)) (name : list ascii)
               (s : list ascii) : result (list tok) :=
  match s with
  | [] => Err Unsupported
  | c :: t =>
    if Ascii.eqb c ":" then
      match t with
      | d :: t' =>
        if Ascii.eqb d "]" then
          match posix_class (string_of_list_ascii (rev name)) with
          | Ok rs => tok_class neg false (rev rs ++ acc) t'
          | Err e => Err e
          end
        else Err Unsupported
      | [] => Err Unsupported
      end
    else if Bytes.is_lower c then tok_posix neg acc (c :: name) t
    else Err Unsupported
  end.

(** *** The parser

    [regexp/syntax] keeps a stack of operands and markers; here the stack
    is a list of frames, one per open group.  A frame holds the operands
    of the alternative being read and those of the alternatives already
    closed by a [|], most recent first. *)

Record frame : Type := mkFrame {
  cur : list regex;
  alts : list (list regex)
}.

Definition empty_frame : frame := mkFrame [] [].

Record pstate : Type := mkPstate {
  top : frame;
  below : list (option nat * frame);   (* open groups, innermost first *)
  ncap : nat;                          (* capturing groups opened so far *)
  names : list string;                 (* their names, most recent first *)
  lastRep : bool                       (* the previous token was a repetition *)
}.

Definition init_pstate : pstate := mkPstate empty_frame [] 0 [] false.

Fixpoint mkCat (rs : list regex) : regex :=
  match rs with
  | [] => Empty
  | [r] => r
  | r :: rs' => Cat r (mkCat rs')
  end.

Fixpoint mkAlt (rs : list regex) : regex :=
  match rs with
  | [] => Empty
  | [r] => r
  | r :: rs' => Alt r (mkAlt rs')
  end.

(** The expression of a frame: its alternatives in the order read. *)
Definition branches (f : frame) : list (list regex) := cur f :: alts f.
Definition finish (f : frame) : regex :=
  mkAlt (map (fun l => mkCat (rev l)) (rev (branches f))).

Fixpoint nullable (r : regex) : bool :=
  match r with
  | Empty | Assert _ | Star _ => true
  | Atom _ => false
  | Cat r1 r2 => (nullable r1 && nullable r2)%bool
  | Alt r1 r2 => (nullable r1 || nullable r2)%bool
  | Capture _ r' => nullable r'
  end.

(** [x+] is [x] followed by the loop, [x?] is [x|()], and [x*] is the loop
    unless [x] can match the empty string, in which case the compiler
    emits [(x+)?]. *)
Definition apply_rep (op : repop) (r : regex) : regex :=
  match op with
  | RStar => if nullable r then Alt (Cat r (Star r)) Empty else Star r
  | RPlus => Cat r (Star r)
  | RQuest => Alt r Empty
  end.

Definition push (r : regex) (st : pstate) : pstate :=
  mkPstate (mkFrame (r :: cur (top st)) (alts (top st)))
           (below st) (ncap st) (names st) false.

Definition step (t : tok) (st : pstate) : result pstate :=
  match t with
  | TAtom a => Ok (push (Atom a) st)
  | TAssert k => Ok (push (Assert k) st)
  | TRep op =>
    if lastRep st then Err InvalidRepeatOp
    else match cur (top st) with
         | [] => Err MissingRepeatArgument
         | r :: rest =>
           Ok (mkPstate (mkFrame (apply_rep op r :: rest) (alts (top st)))
                        (below st) (ncap st) (names st) true)
         end
  | TOpen name =>
    Ok (mkPstate empty_frame ((Some (S (ncap st)), top st) :: below st)
                 (S (ncap st)) (name :: names st) false)
  | TOpenNC =>
    Ok (mkPstate empty_frame ((None, top st) :: below st)
                 (ncap st) (names st) false)
  | TClose =>
    match below st with
    | [] => Err UnexpectedParen
    | (c, f) :: rest =>
      let r := finish (top st) in
      let r' := match c with Some k => Capture k r | None => r end in
      Ok (mkPstate (mkFrame (r' :: cur f) (alts f)) rest
                   (ncap st) (names st) false)
    end
  | TBar =>
    Ok (mkPstate (mkFrame [] (branches (top st)))
                 (below st) (ncap st) (names st) false)
  end.

Fixpoint run (ts : list tok) (st : pstate) : result pstate :=
  match ts with
  | [] => Ok st
  | t :: ts' => bind (step t st) (run ts')
  end.

(** A parsed expression: its syntax tree, the number of capturing groups
    and the group names, with the empty name of group 0 first. *)
Record parsed : Type := mkParsed {
  tree : regex;
  ngroups : nat;
  group_names : list string
}.

Definition finish_parse (st : pstate) : result parsed :=
  match below st with
  | [] => Ok (mkParsed (finish (top st)) (ncap st) ("" :: rev (names st)))
  | _ :: _ => Err MissingParen
  end.

Definition parse (s : string) : result parsed :=
  bind (tokenize (list_ascii_of_string s))
       (fun ts => bind (run ts init_pstate) finish_parse).

End Syntax.

(* ================================================================== *)
(** ** Matching

    The meaning of an expression is the list of ways it can match from a
    position of the text, in the priority order of the compiled program:
    each way gives the position reached and the capture registers.  The
    search entry point takes the leftmost start with a match and, there, the
    first way among those reaching furthest, which is what the [regexp]
    machines keep once [Longest] has been called: a later thread replaces
    the recorded match only when it ends strictly further. *)

Module Matcher.
Import Syntax.

Definition caps : Type := nat -> option (nat * nat).
Definition no_caps : caps := fun _ => None.
Definition set_cap (k : nat) (v : nat * nat) (c : caps) : caps :=
  fun i => if Nat.eqb i k then Some v else c i.

(** [inputBytes.step]: the rune at [pos] and its width in bytes; nothing
    at the end of the text. *)
Definition rune_at (s : list ascii) (pos : nat) : option (N * nat) :=
  match skipn pos s with
  | [] => None
  | rest => Some (Utf8.DecodeRune rest)
  end.

Definition in_ranges (rs : list (N * N)) (r : N) : bool :=
  existsb (fun lh => (N.leb (fst lh) r && N.leb r (snd lh))%bool) rs.

(** Whether an atom matches the rune [r]. *)
Definition atom_match (a : atom) (r : N) : bool :=
  match a with
  | Lit c => N.eqb (Bytes.code c) r
  | AnyNotNL => negb (N.eqb r 10)
  | Class neg rs => xorb neg (in_ranges rs r)
  end.

(** Word characters are ASCII, and every byte of the encoding of
    another rune, well formed or not, is above 127: whether the rune
    before or after a position is a word character shows on the byte
    next to the position. *)
Definition word_at (s : list ascii) (i : nat) : bool :=
  match nth_error s i with
  | Some ch => Bytes.is_word ch
  | None => false
  end.

Definition word_before (s : list ascii) (pos : nat) : bool :=
  match pos with
  | O => false
  | S p => word_at s p
  end.

Definition assert_holds (k : assertion) (s : list ascii) (pos : nat) : bool :=
  match k with
  | BeginText => Nat.eqb pos 0
  | EndText => Nat.eqb pos (List.length s)
  | WordBoundary => xorb (word_before s pos) (word_at s pos)
  | NoWordBoundary => negb (xorb (word_before s pos) (word_at s pos))
  end.

(** The loop: iterate while the body makes progress, in preference to
    leaving.  [fuel] bounds the number of iterations; the bytes left
    after [pos] are enough, as each iteration consumes one at least. *)
Fixpoint loop (body : nat -> caps -> list (nat * caps)) (fuel : nat)
              (pos : nat) (c : caps) : list (nat * caps) :=
  match fuel with
  | O => [(pos, c)]
  | S fuel' =>
    flat_map (fun pc => if Nat.ltb pos (fst pc)
                        then loop body fuel' (fst pc) (snd pc)
                        else [])
             (body pos c)
    ++ [(pos, c)]
  end.

Fixpoint matches (r : regex) (s : list ascii) (pos : nat) (c : caps)
  : list (nat * caps) :=
  match r with
  | Empty => [(pos, c)]
  | Atom a =>
    match rune_at s pos with
    | Some (r, w) => if atom_match a r then [(pos + w, c)] else []
    | None => []
    end
  | Assert k => if assert_holds k s pos then [(pos, c)] else []
  | Cat r1 r2 =>
    flat_map (fun pc => matches r2 s (fst pc) (snd pc)) (matches r1 s pos c)
  | Alt r1 r2 => matches r1 s pos c ++ matches r2 s pos c
  | Star r' => loop (matches r' s) (List.length s - pos) pos c
  | Capture k r' =>
    map (fun pc => (fst pc, set_cap k (pos, fst pc) (snd pc)))
        (matches r' s pos c)
  end.

(** The first of the ways that reach furthest. *)
Fixpoint pick_longest (ws : list (nat * caps)) : option (nat * caps) :=
  match ws with
  | [] => None
  | w :: ws' =>
    match pick_longest ws' with
    | Some b => if Nat.ltb (fst w) (fst b) then Some b else Some w
    | None => Some w
    end
  end.

(** Leftmost start: try [start], then the position after the rune at
    [start], and so on up to the end of the text, where the empty match
    is tried last.  [fuel] bounds the number of starts; the number of
    bytes of the text is enough, as each rune has one byte at least. *)
Fixpoint search (r : regex) (s : list ascii) (fuel start : nat)
  : option (nat * nat * caps) :=
  match pick_longest (matches r s start no_caps) with
  | Some w => Some (start, fst w, snd w)
  | None =>
    match fuel with
    | O => None
    | S fuel' =>
      match rune_at s start with
      | Some (_, w) => search r s fuel' (start + w)
      | None => None
      end
    end
  end.

(** A compiled expression on which [Longest] has been called. *)
Record Regexp : Type := mkRegexp {
  prog : regex;
  numSubexp : nat;
  subexpNames : list string
}.

Definition Compile (expr : string) : result Regexp :=
  bind (parse expr)
       (fun p => Ok (mkRegexp (tree p) (ngroups p) (group_names p))).

Definition NumSubexp (re : Regexp) : Z := Z.of_nat (numSubexp re).
Definition SubexpNames (re : Regexp) : list string := subexpNames re.

Definition cap_pair (c : caps) (k : nat) : list Z :=
  match c k with
  | Some (b, e) => [Z.of_nat b; Z.of_nat e]
  | None => [(-1)%Z; (-1)%Z]
  end.

(** [re.FindAllSubmatchIndex(b, 1)]: at most one match, given as the
    offsets of the whole match followed by those of each group, [-1] for
    a group that took no part. *)
Definition FindAllSubmatchIndex1 (re : Regexp) (b : list ascii) : list (list Z) :=
  match search (prog re) b (List.length b) 0 with
  | None => []
  | Some (st, e, c) =>
    [Z.of_nat st :: Z.of_nat e
       :: flat_map (cap_pair c) (seq 1 (numSubexp re))]
  end.

End Matcher.

(* ================================================================== *)
(** ** [fmt] and [strconv] *)

Module Strconv.

(** [fmt.Sprintf("%d", i)] for [0 <= i]. *)
Definition format_d (i : nat) : string :=
  NilEmpty.string_of_uint (N.to_uint (N.of_nat i)).

(** [fmt.Sprintf("%d", i)] for any [int]. *)
Definition format_int (i : Z) : string :=
  if (i <? 0)%Z then ("-" ++ format_d (Z.to_nat (- i)))%string
  else format_d (Z.to_nat i).

Definition digits_value (s : string) : option Z :=
  match s with
  | EmptyString => None
  | _ => match NilEmpty.uint_of_string s with
         | Some d => Some (Z.of_N (N.of_uint d))
         | None => None
         end
  end.

(** [strconv.ParseInt(s, 10, 32)]: an optional sign, then one or more
    decimal digits; [None] stands for a non-nil error, which is what a
    syntax error and a value outside of 32 bits both give. *)
Definition ParseInt_10_32 (s : string) : option Z :=
  let signed :=
    match s with
    | String c t =>
      if Ascii.eqb c "+" then digits_value t
      else if Ascii.eqb c "-" then option_map Z.opp (digits_value t)
      else digits_value s
    | EmptyString => None
    end in
  match signed with
  | Some v => if ((- 2 ^ 31 <=? v) && (v <? 2 ^ 31))%Z%bool then Some v else None
  | None => None
  end.

End Strconv.

(* ================================================================== *)
(** ** The package *)

Import Matcher.

(** A run-time panic of the Go program. *)
Inductive panic : Type :=
| IndexOutOfRange            (* an index or slice expression out of range *)
| FailedToFindMatchIndex.    (* [panic("failed to find regex match index")] *)

Inductive exec (A : Type) : Type :=
| Done (a : A)
| Panic (p : panic).
Arguments Panic {A} p.

(** *** token.go *)

Record Token : Type := mkToken {
  ID : Z;
  Value : string;
  Index : Z
}.

Module TokenM.

Definition Equals (t other : Token) : bool :=
  (Z.eqb (ID t) (ID other) && String.eqb (Value t) (Value other)
   && Z.eqb (Index t) (Index other))%bool.

(** Go compares strings byte by byte, as [String.ltb] does. *)
Definition Less (t other : Token) : bool :=
  if String.ltb (Value t) (Value other) then true
  else if Z.ltb (ID t) (ID other) then true
  else Z.ltb (Index t) (Index other).

End TokenM.

Definition TokenList : Type := list Token.

(** *** The token list *)

Module TokenListM.

Definition Len (t : TokenList) : Z := Z.of_nat (List.length t).

Definition IsEmpty (t : TokenList) : bool := (Z.of_nat (List.length t) =? 0)%Z.

(** [a != b] on two structs: some field differs. *)
Definition differ (a b : Token) : bool :=
  negb (Z.eqb (ID a) (ID b) && String.eqb (Value a) (Value b)
        && Z.eqb (Index a) (Index b))%bool.

(** The [range] loop of [Equals] over [t], on what is left of both lists;
    [other[n]] is out of range when [other] ends first. *)
Fixpoint Equals_loop (t other : TokenList) : exec bool :=
  match t with
  | [] => Done true
  | a :: t' =>
    match other with
    | [] => Panic IndexOutOfRange
    | b :: other' => if differ a b then Done false else Equals_loop t' other'
    end
  end.

Definition Equals (t other : TokenList) : exec bool :=
  if negb (Z.of_nat (List.length t) =? Z.of_nat (List.length other))%Z
  then Done false
  else Equals_loop t other.

(** [t[i]] *)
Definition at_index (t : TokenList) (i : Z) : exec Token :=
  if (i <? 0)%Z then Panic IndexOutOfRange
  else match nth_error t (Z.to_nat i) with
       | Some x => Done x
       | None => Panic IndexOutOfRange
       end.

(** [t[i] = x], for an index in range. *)
Fixpoint assign (t : TokenList) (i : nat) (x : Token) : TokenList :=
  match t, i with
  | [], _ => []
  | _ :: t', O => x :: t'
  | a :: t', S i' => a :: assign t' i' x
  end.

Definition Less (t : TokenList) (i j : Z) : exec bool :=
  match at_index t i, at_index t j with
  | Done a, Done b =>
    Done (if String.ltb (Value a) (Value b) then true
          else Z.ltb (ID a) (ID b))
  | Panic p, _ => Panic p
  | _, Panic p => Panic p
  end.

(** [t[i], t[j] = t[j], t[i]]: both elements are read, then both are
    written, in the array that the slice shares with its other holders;
    the result is the content of the slice afterwards. *)
Definition Swap (t : TokenList) (i j : Z) : exec TokenList :=
  match at_index t j, at_index t i with
  | Done tj, Done ti =>
    Done (assign (assign t (Z.to_nat i) tj) (Z.to_nat j) ti)
  | Panic p, _ => Panic p
  | _, Panic p => Panic p
  end.

End TokenListM.

(** *** The error types *)

Inductive io_error : Type := ReadFailure.

Inductive Error : Type :=
| RegexError (rErr : Syntax.error)
| MatchError (Index : Z)
| InputError (iErr : io_error).

Definition newRegexError (err : Syntax.error) : Error := RegexError err.
Definition newMatchError (index : Z) : Error := MatchError index.
Definition newInputError (err : io_error) : Error := InputError err.

(** [MatchError.Error], for the error of index [Index].  The [Error]
    methods of the two other types print, with [%v], an error of another
    package; they are not modelled. *)
Definition MatchError_Error (Index : Z) : string :=
  ("couldn't match input at position " ++ Strconv.format_int Index)%string.

(** *** The indexed buffer *)

Record indexedBuffer : Type := mkBuffer {
  buffer : list ascii;
  index : Z
}.

Definition len (b : list ascii) : Z := Z.of_nat (List.length b).

Definition endOfInput (b : indexedBuffer) : bool :=
  (len (buffer b) <=? index b)%Z.

Definition advance (b : indexedBuffer) (n : Z) : indexedBuffer :=
  mkBuffer (buffer b) (index b + n).

(** [b.buffer[b.index:]] *)
Definition next (b : indexedBuffer) : exec (list ascii) :=
  if ((0 <=? index b) && (index b <=? len (buffer b)))%Z%bool
  then Done (skipn (Z.to_nat (index b)) (buffer b))
  else Panic IndexOutOfRange.

(** [b.buffer[b.index]] *)
Definition current (b : indexedBuffer) : exec ascii :=
  if (index b <? 0)%Z then Panic IndexOutOfRange
  else match nth_error (buffer b) (Z.to_nat (index b)) with
       | Some c => Done c
       | None => Panic IndexOutOfRange
       end.

(** [string(b.buffer[b.index : b.index+n])].  A slice expression may reach
    into the capacity of the slice beyond its length; nothing is known of
    the bytes there, and the model counts such a read as a fault. *)
Definition substring (b : indexedBuffer) (n : Z) : exec string :=
  if ((0 <=? index b) && (0 <=? n) && (index b + n <=? len (buffer b)))%Z%bool
  then Done (string_of_list_ascii
               (firstn (Z.to_nat n) (skipn (Z.to_nat (index b)) (buffer b))))
  else Panic IndexOutOfRange.

(** The loop of [skipWhitespace], on the bytes from the index on. *)
Fixpoint skipWhitespace_loop (rest : list ascii) (index : Z) (skipNewline : bool) : Z :=
  match rest with
  | [] => index
  | r :: rest' =>
    if ((negb skipNewline && Ascii.eqb r Bytes.newline) || negb (Bytes.IsSpace r))%bool
    then index
    else skipWhitespace_loop rest' (index + 1) skipNewline
  end.

Definition skipWhitespace (b : indexedBuffer) (skipNewline : bool) : exec indexedBuffer :=
  if (index b <? 0)%Z then Panic IndexOutOfRange
  else Done (mkBuffer (buffer b)
               (skipWhitespace_loop (skipn (Z.to_nat (index b)) (buffer b))
                                    (index b) skipNewline)).

(** *** lexer.go *)

Record Lexer : Type := mkLexer {
  lexemes : list string;
  regexps : Regexp;
  skipNewline : bool
}.

Definition newline_string : string := String Bytes.newline EmptyString.

(** The body of the [range] loop of [New], from index [i] on. *)
Fixpoint New_loop (i : nat) (lexemes : list string)
                  (regexpString : string) (skipNewline : bool) : string * bool :=
  match lexemes with
  | [] => (regexpString, skipNewline)
  | lexeme :: rest =>
    let skipNewline := if String.eqb lexeme newline_string then false else skipNewline in
    let regexpString := if Nat.eqb i 0 then regexpString
                        else (regexpString ++ "|")%string in
    let regexpString :=
      (regexpString ++ "(?P<" ++ Strconv.format_d i ++ ">^" ++ lexeme ++ ")")%string in
    New_loop (S i) rest regexpString skipNewline
  end.

(** [New] returns a lexer or an error.  The result here is [None] when
    the combined expression is outside the syntax that module [Syntax]
    reads: nothing is said then of what [regexp.Compile], and so [New],
    returns. *)
Definition New (lexemes : list string) : option (Lexer + Error) :=
  let (regexpString, skipNewline) := New_loop 0 lexemes "" true in
  match Compile regexpString with
  | Syntax.Err Syntax.Unsupported => None
  | Syntax.Err err => Some (inr (newRegexError err))
  | Syntax.Ok compiledRegex =>
    Some (inl (mkLexer lexemes compiledRegex skipNewline))
  end.

(** [string(c)] for a byte [c]: the UTF-8 encoding of the code point. *)
Definition string_of_byte (c : ascii) : string :=
  if Bytes.is_ascii c then String c EmptyString
  else String (ascii_of_N (192 + N.shiftr (Bytes.code c) 6))
         (String (ascii_of_N (128 + N.land (Bytes.code c) 63)) EmptyString).

Definition nth_int (l : list Z) (i : Z) : exec Z :=
  if (i <? 0)%Z then Panic IndexOutOfRange
  else match nth_error l (Z.to_nat i) with
       | Some x => Done x
       | None => Panic IndexOutOfRange
       end.

(** The [for] loop of [getNextToken] over the subexpressions, with [todo]
    iterations left and loop variable [i]. *)
Fixpoint getNextToken_loop (l : Lexer) (b : indexedBuffer) (matches : list Z)
                           (todo : nat) (i : Z)
  : exec (Token * option Error * indexedBuffer) :=
  match todo with
  | O => Panic FailedToFindMatchIndex
  | S todo' =>
    match nth_int matches (2 * (i + 1)), nth_int matches (2 * (i + 1) + 1) with
    | Done beg, Done end_ =>
      if (beg =? -1)%Z then getNextToken_loop l b matches todo' (i + 1)
      else
        match nth_error (SubexpNames (regexps l)) (Z.to_nat (i + 1)) with
        | None => Panic IndexOutOfRange
        | Some name =>
          match Strconv.ParseInt_10_32 name with
          | None => getNextToken_loop l b matches todo' (i + 1)
          | Some dn =>
            match substring b (end_ - beg) with
            | Panic p => Panic p
            | Done v =>
              Done (mkToken dn v (index b), None, advance b (end_ - beg))
            end
          end
        end
    | Panic p, _ => Panic p
    | _, Panic p => Panic p
    end
  end.

Definition getNextToken (l : Lexer) (b : indexedBuffer)
  : exec (Token * option Error * indexedBuffer) :=
  match next b with
  | Panic p => Panic p
  | Done rest =>
    match FindAllSubmatchIndex1 (regexps l) rest with
    | [] =>
      match current b with
      | Panic p => Panic p
      | Done c =>
        Done (mkToken (-1) (string_of_byte c) (index b),
              Some (newMatchError (index b)), b)
      end
    | matches :: _ =>
      getNextToken_loop l b matches (Z.to_nat (NumSubexp (regexps l))) 0
    end
  end.

(** An [io.Reader] as [ioutil.ReadAll] sees it: the bytes it delivers and
    the error, if any, that ends the reading. *)
Record Reader : Type := mkReader {
  contents : list ascii;
  failure : option io_error
}.

Definition NewReader (s : string) : Reader :=
  mkReader (list_ascii_of_string s) None.

(** The [for] loop of [Lex].  The loop has no bound of its own; [fuel]
    counts iterations and [None] says that they were all used. *)
Fixpoint Lex_loop (fuel : nat) (l : Lexer) (b : indexedBuffer) (list : TokenList)
  : option (exec (TokenList * option Error)) :=
  match fuel with
  | O => None
  | S fuel' =>
    match skipWhitespace b (skipNewline l) with
    | Panic p => Some (Panic p)
    | Done b1 =>
      if endOfInput b1 then Some (Done (list, None))
      else
        match getNextToken l b1 with
        | Panic p => Some (Panic p)
        | Done (token, Some err, _) => Some (Done ([], Some err))
        | Done (token, None, b2) => Lex_loop fuel' l b2 (list ++ [token])
        end
    end
  end.

Definition Lex (fuel : nat) (l : Lexer) (input : Reader)
  : option (exec (TokenList * option Error)) :=
  match failure input with
  | Some err => Some (Done ([], Some (newInputError err)))
  | None => Lex_loop fuel l (mkBuffer (contents input) 0) []
  end.

(** [New] followed by [Lex] on a string, for the examples. *)
Definition lex_string (fuel : nat) (patterns : list string) (input : string)
  : option (exec (TokenList * option Error)) :=
  match New patterns with
  | Some (inl l) => Lex fuel l (NewReader input)
  | Some (inr err) => Some (Done ([], Some err))
  | None => None
  end.

(* ================================================================== *)
(** ** Notions used in the statements *)

Module Notions.
Import Syntax.

(** The capture indices that occur in an expression. *)
Fixpoint caps_in (r : regex) : list nat :=
  match r with
  | Empty | Atom _ | Assert _ => []
  | Cat r1 r2 | Alt r1 r2 => caps_in r1 ++ caps_in r2
  | Star r' => caps_in r'
  | Capture k r' => k :: caps_in r'
  end.

(** The positions an expression can reach from [pos]. *)
Definition ends (r : regex) (s : list ascii) (pos : nat) : list nat :=
  map fst (matches r s pos no_caps).

Definition caps_ok (s : list ascii) (c : caps) : Prop :=
  forall k b e, c k = Some (b, e) -> b <= e <= List.length s.

(** The bytes [skipWhitespace] moves over. *)
Definition skippable (skipNewline : bool) (c : ascii) : bool :=
  (Bytes.IsSpace c && (skipNewline || negb (Ascii.eqb c Bytes.newline)))%bool.


(** The states of the loop of [Lex] on [input]: the buffer and the list
    of tokens at the head of an iteration. *)
Inductive reaches (l : Lexer) (input : list ascii)
  : indexedBuffer -> TokenList -> Prop :=
| reaches_start : reaches l input (mkBuffer input 0) []
| reaches_step b list b1 token b2 :
    reaches l input b list ->
    skipWhitespace b (skipNewline l) = Done b1 ->
    endOfInput b1 = false ->
    getNextToken l b1 = Done (token, None, b2) ->
    reaches l input b2 (list ++ [token]).

(** The loop of [Lex] from the head of an iteration to its result. *)
Inductive runs (l : Lexer)
  : indexedBuffer -> TokenList -> exec (TokenList * option Error) -> Prop :=
| runs_skip_panic b list p :
    skipWhitespace b (skipNewline l) = Panic p ->
    runs l b list (Panic p)
| runs_end b list b1 :
    skipWhitespace b (skipNewline l) = Done b1 ->
    endOfInput b1 = true ->
    runs l b list (Done (list, None))
| runs_token_panic b list b1 p :
    skipWhitespace b (skipNewline l) = Done b1 ->
    endOfInput b1 = false ->
    getNextToken l b1 = Panic p ->
    runs l b list (Panic p)
| runs_error b list b1 token err b2 :
    skipWhitespace b (skipNewline l) = Done b1 ->
    endOfInput b1 = false ->
    getNextToken l b1 = Done (token, Some err, b2) ->
    runs l b list (Done ([], Some err))
| runs_token b list b1 token b2 res :
    skipWhitespace b (skipNewline l) = Done b1 ->
    endOfInput b1 = false ->
    getNextToken l b1 = Done (token, None, b2) ->
    runs l b2 (list ++ [token]) res ->
    runs l b list res.

(** The tokens lie in the input from [pos] on, in order, each where its
    index says, with nothing but skipped bytes before, between and after
    them. *)
Fixpoint laid_out (sn : bool) (input : list ascii) (pos : Z)
                  (toks : TokenList) : Prop :=
  match toks with
  | [] =>
    forall i c, (pos <= Z.of_nat i)%Z -> nth_error input i = Some c ->
                skippable sn c = true
  | t :: ts =>
    (pos <= Index t)%Z
    /\ (forall i c, (pos <= Z.of_nat i < Index t)%Z ->
                    nth_error input i = Some c -> skippable sn c = true)
    /\ substring (mkBuffer input (Index t))
                 (Z.of_nat (String.length (Value t))) = Done (Value t)
    /\ laid_out sn input (Index t + Z.of_nat (String.length (Value t))) ts
  end.

(** The combined expression as [New] means to lay it out: an alternation
    of one capturing group per pattern, in the order of the patterns,
    the group of pattern [i] being named by the decimal writing of [i]
    and enclosing every group of its body.  [gs] lists the capture index
    and the body of each group. *)
Record grouped (re : Regexp) (gs : list (nat * regex)) : Prop := {
  grouped_prog :
    prog re = mkAlt (map (fun g => Capture (fst g) (snd g)) gs);
  grouped_nonempty : gs <> [];
  grouped_count : (Z.of_nat (List.length gs) <= 2 ^ 31)%Z;
  grouped_group :
    forall i g, nth_error gs i = Some g ->
      1 <= fst g <= numSubexp re
      /\ nth_error (subexpNames re) (fst g) = Some (Strconv.format_d i)
      /\ forall j, In j (caps_in (snd g)) -> fst g < j
}.

(** What a pattern matches at the start of [rest] when it is compiled
    on its own: the lengths of its matches, none if it does not compile. *)
Definition pattern_ends (p : string) (rest : list ascii) : list nat :=
  match Compile p with
  | Ok re => ends (prog re) rest 0
  | Err _ => []
  end.

(** A pattern is valid when [regexp.Compile] accepts it on its own. *)
Definition valid (p : string) : Prop := exists re, Compile p = Ok re.

(** *** A pattern inside the combined expression

    The parser reads a pattern inside [(?P<i>^ ... )] as it reads it on
    its own, except that capture indices are shifted by the number of
    groups opened before, and that the [^] sits in front of the first
    alternative of the pattern. *)
Fixpoint shift (k : nat) (r : regex) : regex :=
  match r with
  | Empty | Atom _ | Assert _ => r
  | Cat r1 r2 => Cat (shift k r1) (shift k r2)
  | Alt r1 r2 => Alt (shift k r1) (shift k r2)
  | Star r' => Star (shift k r')
  | Capture j r' => Capture (k + j) (shift k r')
  end.

Definition shiftF (k : nat) (f : frame) : frame :=
  mkFrame (map (shift k) (cur f)) (map (map (shift k)) (alts f)).

(** [a] added under the operands of the oldest branch. *)
Fixpoint inj_last (a : regex) (bs : list (list regex)) : list (list regex) :=
  match bs with
  | [] => []
  | [l] => [l ++ [a]]
  | l :: bs' => l :: inj_last a bs'
  end.

Definition inj (a : regex) (f : frame) : frame :=
  match alts f with
  | [] => mkFrame (cur f ++ [a]) []
  | _ :: _ => mkFrame (cur f) (inj_last a (alts f))
  end.

Definition shift_cap (k : nat) (c : option nat) : option nat :=
  option_map (Nat.add k) c.

Fixpoint embed_below (k : nat) (a : regex) (bl : list (option nat * frame))
  : list (option nat * frame) :=
  match bl with
  | [] => []
  | [(c, f)] => [(shift_cap k c, inj a (shiftF k f))]
  | (c, f) :: bl' => (shift_cap k c, shiftF k f) :: embed_below k a bl'
  end.

(** The parser state inside a group opened in state [base], as a
    function of the state [st] reached on the pattern alone; [a] is the
    operand that was read between the parenthesis and the pattern. *)
Definition embed (k : nat) (a : regex) (ctx : list (option nat * frame))
           (ctx_names : list string) (st : pstate) : pstate :=
  mkPstate
    (match below st with
     | [] => inj a (shiftF k (top st))
     | _ :: _ => shiftF k (top st)
     end)
    (embed_below k a (below st) ++ ctx)
    (k + ncap st)
    (names st ++ ctx_names)
    (lastRep st).

(** Every capture index of an expression, of a frame, satisfies [P]. *)
Definition capsP (P : nat -> Prop) (r : regex) : Prop := Forall P (caps_in r).
Definition frameP (P : nat -> Prop) (f : frame) : Prop :=
  Forall (Forall (capsP P)) (branches f).

(** What holds of every state of the parser started on a pattern alone:
    a name per group, and groups numbered from 1. *)
Definition numbered (st : pstate) : Prop :=
  List.length (names st) = ncap st
  /\ frameP (le 1) (top st)
  /\ Forall (fun cf => frameP (le 1) (snd cf)
                       /\ forall j, fst cf = Some j -> 1 <= j) (below st).

(** The tokens of the combined expression, from pattern [i] on, given
    the tokens of each pattern. *)
Fixpoint all_toks (i : nat) (tss : list (list tok)) : list tok :=
  match tss with
  | [] => []
  | ts :: rest =>
    (if Nat.eqb i 0 then [] else [TBar])
    ++ TOpen (Strconv.format_d i) :: TAssert BeginText
    :: ts ++ TClose :: all_toks (S i) rest
  end.

(** The text of the combined expression, from pattern [i] on. *)
Definition chars (s : string) : list ascii := list_ascii_of_string s.

Fixpoint combined (i : nat) (lexemes : list string) : list ascii :=
  match lexemes with
  | [] => []
  | p :: rest =>
    (if Nat.eqb i 0 then [] else ["|"%char])
    ++ chars "(?P<" ++ chars (Strconv.format_d i) ++ chars ">^"
    ++ chars p ++ ")"%char :: combined (S i) rest
  end.

(** The group that the parser builds for a pattern read in base state
    [B], [st] being the state reached on the pattern alone. *)
Definition group_of (B st : pstate) : nat * regex :=
  (S (ncap B),
   finish (inj (Assert BeginText) (shiftF (S (ncap B)) (top st)))).

Definition group_expr (g : nat * regex) : regex := Capture (fst g) (snd g).

(** The state of the parser between two groups of the combined
    expression, [gs] being the groups read so far. *)
Definition between (B : pstate) (gs : list (nat * regex)) : Prop :=
  below B = []
  /\ top B = match rev gs with
             | [] => empty_frame
             | g :: others => mkFrame [group_expr g] (map (fun x => [group_expr x]) others)
             end
  /\ List.length (names B) = ncap B
  /\ forall j g, nth_error gs j = Some g ->
       1 <= fst g <= ncap B
       /\ nth_error (rev (names B)) (fst g - 1) = Some (Strconv.format_d j)
       /\ capsP (lt (fst g)) (snd g).

(** The token starts at a byte that [skipWhitespace] does not skip. *)
Definition starts_unskipped (l : Lexer) (input : list ascii) (t : Token) : Prop :=
  exists c, nth_error input (Z.to_nat (Index t)) = Some c
            /\ skippable (skipNewline l) c = false.

(** The order by value, then pattern index, then offset, as the
    specification words it. *)
Definition lexicographic_less (t u : Token) : bool :=
  match String.compare (Value t) (Value u) with
  | Lt => true
  | Gt => false
  | Eq => match Z.compare (ID t) (ID u) with
          | Lt => true
          | Gt => false
          | Eq => Z.ltb (Index t) (Index u)
          end
  end.

(** The lexer that [New] returns for a pattern set it accepts. *)
Definition lexer_of (lexemes : list string) : Lexer :=
  match New lexemes with
  | Some (inl l) => l
  | _ => mkLexer lexemes (mkRegexp Empty 0 [""]) true
  end.

(** [input[offset : offset+len(value)] == value] *)
Definition round_trips (input : list ascii) (t : Token) : Prop :=
  substring (mkBuffer input (Index t)) (Z.of_nat (String.length (Value t)))
  = Done (Value t).

Definition cap_beg (c : caps) (k : nat) : Z :=
  match c k with Some (b, _) => Z.of_nat b | None => (-1)%Z end.
Definition cap_end (c : caps) (k : nat) : Z :=
  match c k with Some (_, e) => Z.of_nat e | None => (-1)%Z end.

Definition same_end (w w' : nat * caps) : Prop := fst w = fst w'.

(** What scanning gives when the text goes on with [")"] and [x], after
    a part that gave [ts]. *)
Definition followed_by (x : list ascii) (ts : list tok) : result (list tok) :=
  bind (cons_tok TClose (tokenize x)) (fun ts2 => Ok (ts ++ ts2)).
Arguments followed_by : simpl never.

(** Scanning is stable under extension of the text by a closing
    parenthesis: the tokens of a text scanned with success are not
    changed by what follows the parenthesis. *)
Definition stable (n : nat) : Prop :=
  (forall s ts x, List.length s <= n -> tokenize s = Ok ts ->
                  tokenize (s ++ ")"%char :: x) = followed_by x ts)
  /\ (forall acc s ts x, List.length s <= n -> tok_name acc s = Ok ts ->
                         tok_name acc (s ++ ")"%char :: x) = followed_by x ts)
  /\ (forall neg first acc s ts x,
         List.length s <= n -> tok_class neg first acc s = Ok ts ->
         tok_class neg first acc (s ++ ")"%char :: x) = followed_by x ts)
  /\ (forall neg acc name s ts x,
         List.length s <= n -> tok_posix neg acc name s = Ok ts ->
         tok_posix neg acc name (s ++ ")"%char :: x) = followed_by x ts).

(** The state in which the group of pattern [i] is opened. *)
Definition after_bar (i : nat) (B : pstate) : pstate :=
  if Nat.eqb i 0 then B
  else mkPstate (mkFrame [] (branches (top B)))
                (below B) (ncap B) (names B) false.

(** The standalone parser states of the patterns, and the groups they
    give. *)
Definition parsed_alone (ts : list tok) (st : pstate) : Prop :=
  run ts init_pstate = Ok st /\ below st = [].

Definition group_from (st : pstate) (g : nat * regex) : Prop :=
  snd g = finish (inj (Assert BeginText) (shiftF (fst g) (top st))).

(** The pattern sets of the statements below: not empty, of at most
    2^31 patterns, each valid on its own. *)
Definition well_formed (lexemes : list string) : Prop :=
  lexemes <> [] /\ (Z.of_nat (List.length lexemes) <= 2 ^ 31)%Z
  /\ Forall valid lexemes.

(** The pattern set of the second case of [TestLexerGood]. *)
Definition words_numbers_identifiers : list string :=
  ["[[:alpha:]]+"; "[[:digit:]]+"; "[[:alpha:]][[:alnum:]]+"].

End Notions.

(* ================================================================== *)
(** * Facts about the matcher *)

Module MatcherFacts.
Import Syntax Notions.

Lemma caps_ok_no_caps s : caps_ok s no_caps.
Proof. intros k b e H. discriminate H. Qed.

Lemma caps_ok_set s k b e c :
  b <= e <= List.length s -> caps_ok s c -> caps_ok s (set_cap k (b, e) c).
Proof.
  intros Hbe Hc j b' e'. unfold set_cap.
  destruct (Nat.eqb j k).
  - intros H. inversion H. subst. exact Hbe.
  - apply Hc.
Qed.

(** A property of (position, captures) pairs that the body of a loop
    preserves is preserved by the loop. *)
Lemma loop_preserves (P : nat -> caps -> Prop)
      (body : nat -> caps -> list (nat * caps)) :
  (forall p c w, P p c -> In w (body p c) -> P (fst w) (snd w)) ->
  forall fuel p c w, P p c -> In w (loop body fuel p c) -> P (fst w) (snd w).
Proof.
  intros Hbody. induction fuel as [|fuel IH]; intros p c w HP Hin; simpl in Hin.
  - destruct Hin as [<-|[]]. exact HP.
  - apply in_app_or in Hin. destruct Hin as [Hin|[<-|[]]]; [|exact HP].
    apply in_flat_map in Hin. destruct Hin as [w1 [Hw1 Hin]].
    destruct (Nat.ltb p (fst w1)); [|destruct Hin].
    eapply IH; [|exact Hin]. eapply Hbody; eassumption.
Qed.

Lemma DecodeRune_width p :
  p <> [] ->
  1 <= snd (Utf8.DecodeRune p) <= List.length p.
Proof.
  intros Hp. unfold Utf8.DecodeRune.
  destruct p as [|p0 p]; [congruence|].
  repeat match goal with
         | |- context [if ?b then _ else _] => destruct b
         | |- context [match ?l with [] => _ | _ :: _ => _ end] => destruct l
         end; simpl; lia.
Qed.

Lemma rune_at_bounds s pos r w :
  rune_at s pos = Some (r, w) -> 1 <= w /\ pos + w <= List.length s.
Proof.
  unfold rune_at. destruct (skipn pos s) as [|x rest] eqn:E; [discriminate|].
  intros H.
  pose proof (@DecodeRune_width (x :: rest) ltac:(discriminate)) as Hw.
  replace (Utf8.DecodeRune (x :: rest)) with (r, w) in Hw by congruence.
  simpl snd in Hw.
  assert (Hl : List.length (x :: rest) = List.length s - pos)
    by (rewrite <- E; apply length_skipn).
  assert (pos < List.length s).
  { destruct (Nat.lt_ge_cases pos (List.length s)) as [Hlt|Hge]; [exact Hlt|].
    rewrite skipn_all2 in E by exact Hge. discriminate E. }
  lia.
Qed.

(** Matching moves forward, stays inside the text and records spans of
    the text. *)
Lemma matches_sound s r :
  forall pos c w,
    pos <= List.length s -> caps_ok s c -> In w (matches r s pos c) ->
    (pos <= fst w <= List.length s) /\ caps_ok s (snd w).
Proof.
  induction r as [|a|k|r1 IH1 r2 IH2|r1 IH1 r2 IH2|r IH|k r IH];
    intros pos c w Hpos Hc Hin; simpl in Hin.
  - destruct Hin as [<-|[]]. simpl. split; [lia|exact Hc].
  - destruct (rune_at s pos) as [[ch n]|] eqn:Hr; [|destruct Hin].
    destruct (atom_match a ch); [|destruct Hin].
    destruct Hin as [<-|[]]. simpl.
    destruct (rune_at_bounds _ _ Hr) as [Hn Hle].
    split; [lia|exact Hc].
  - destruct (assert_holds k s pos); [|destruct Hin].
    destruct Hin as [<-|[]]. simpl. split; [lia|exact Hc].
  - apply in_flat_map in Hin. destruct Hin as [w1 [Hw1 Hin]].
    destruct (IH1 _ _ _ Hpos Hc Hw1) as [Hb1 Hc1].
    destruct (IH2 _ _ _ (proj2 Hb1) Hc1 Hin) as [Hb2 Hc2].
    split; [lia|exact Hc2].
  - apply in_app_or in Hin. destruct Hin as [Hin|Hin]; eauto.
  - pose (P := fun p (c' : caps) => (pos <= p <= List.length s) /\ caps_ok s c').
    apply (@loop_preserves P (matches r s)) with
      (fuel := List.length s - pos) (p := pos) (c := c); auto.
    + intros p c0 w0 [Hp Hc0] Hw0. unfold P.
      destruct (IH _ _ _ (proj2 Hp) Hc0 Hw0) as [Hb Hc']. split; [lia|exact Hc'].
    + unfold P. split; [lia|exact Hc].
  - apply in_map_iff in Hin. destruct Hin as [w1 [<- Hw1]]. simpl.
    destruct (IH _ _ _ Hpos Hc Hw1) as [Hb Hc1].
    split; [exact Hb|]. apply caps_ok_set; [lia|exact Hc1].
Qed.

(** Matching only writes the capture registers of the expression. *)
Lemma matches_frame s r :
  forall pos c w k,
    In w (matches r s pos c) -> ~ In k (caps_in r) -> snd w k = c k.
Proof.
  induction r as [|a|a|r1 IH1 r2 IH2|r1 IH1 r2 IH2|r IH|j r IH];
    intros pos c w k Hin Hk; simpl in Hin, Hk.
  - destruct Hin as [<-|[]]. reflexivity.
  - destruct (rune_at s pos) as [[ch n]|]; [|destruct Hin].
    destruct (atom_match a ch); [|destruct Hin].
    destruct Hin as [<-|[]]. reflexivity.
  - destruct (assert_holds a s pos); [|destruct Hin].
    destruct Hin as [<-|[]]. reflexivity.
  - apply in_flat_map in Hin. destruct Hin as [w1 [Hw1 Hin]].
    rewrite (IH2 _ _ _ k Hin), (IH1 _ _ _ k Hw1); auto;
      intro; apply Hk; apply in_or_app; auto.
  - apply in_app_or in Hin.
    destruct Hin as [Hin|Hin]; [eapply IH1|eapply IH2]; eauto;
      intro; apply Hk; apply in_or_app; auto.
  - pose (P := fun (p : nat) (c' : caps) => c' k = c k).
    apply (@loop_preserves P (matches r s)) with
      (fuel := List.length s - pos) (p := pos) (c := c); auto.
    + intros p c0 w0 HP Hw0. unfold P in *. rewrite <- HP. eapply IH; eauto.
    + reflexivity.
  - apply in_map_iff in Hin. destruct Hin as [w1 [<- Hw1]]. simpl.
    unfold set_cap. destruct (Nat.eqb k j) eqn:E.
    + apply Nat.eqb_eq in E. subst. exfalso. apply Hk. left. reflexivity.
    + eapply IH; eauto.
Qed.

(** *** Longest match and leftmost search *)

Lemma pick_longest_none ws : pick_longest ws = None -> ws = [].
Proof.
  destruct ws as [|w ws]; [reflexivity|]. simpl.
  destruct (pick_longest ws) as [b|]; [|discriminate].
  destruct (Nat.ltb (fst w) (fst b)); discriminate.
Qed.

Lemma pick_longest_spec ws w :
  pick_longest ws = Some w ->
  exists l1 l2, ws = l1 ++ w :: l2
                /\ (forall x, In x l1 -> fst x < fst w)
                /\ (forall x, In x l2 -> fst x <= fst w).
Proof.
  revert w. induction ws as [|w0 ws IH]; intros w H; simpl in H; [discriminate|].
  destruct (pick_longest ws) as [b|] eqn:Hb.
  - destruct (IH b eq_refl) as [l1 [l2 [Hws [H1 H2]]]].
    destruct (Nat.ltb (fst w0) (fst b)) eqn:Hlt; inversion H; subst w.
    + apply Nat.ltb_lt in Hlt. exists (w0 :: l1), l2. subst ws.
      split; [reflexivity|]. split; [|exact H2].
      intros x [<-|Hx]; auto.
    + apply Nat.ltb_ge in Hlt. exists [], ws. split; [reflexivity|].
      split; [intros x []|]. intros x Hx. subst ws.
      apply in_app_or in Hx. destruct Hx as [Hx|[<-|Hx]].
      * specialize (H1 x Hx). lia.
      * exact Hlt.
      * specialize (H2 x Hx). lia.
  - inversion H; subst w. apply pick_longest_none in Hb. subst ws.
    exists [], []. split; [reflexivity|]. split; intros x [].
Qed.

Lemma pick_longest_some ws : ws <> [] -> exists w, pick_longest ws = Some w.
Proof.
  destruct (pick_longest ws) as [w|] eqn:H; [eauto|].
  apply pick_longest_none in H. congruence.
Qed.

Lemma search_some r s :
  forall fuel start st e c,
    search r s fuel start = Some (st, e, c) ->
    start <= st
    /\ (start <= List.length s -> st <= List.length s)
    /\ pick_longest (matches r s st no_caps) = Some (e, c)
    /\ (start < st -> matches r s start no_caps = []).
Proof.
  induction fuel as [|fuel IH]; intros start st e c H; simpl in H.
  - destruct (pick_longest (matches r s start no_caps)) as [w|] eqn:Hw;
      [|discriminate].
    inversion H; subst. split; [lia|]. split; [auto|].
    split; [destruct w; exact Hw|]. intros Hp. lia.
  - destruct (pick_longest (matches r s start no_caps)) as [w|] eqn:Hw.
    + inversion H; subst. split; [lia|]. split; [auto|].
      split; [destruct w; exact Hw|]. intros Hp. lia.
    + destruct (rune_at s start) as [[x w]|] eqn:Hr; [|discriminate].
      destruct (rune_at_bounds _ _ Hr) as [Hw1 Hle].
      destruct (IH _ _ _ _ H) as [Hst [Hlen [Hpick _]]].
      split; [lia|]. split; [intros _; apply Hlen; exact Hle|].
      split; [exact Hpick|].
      intros _. apply pick_longest_none. exact Hw.
Qed.

Lemma search_none r s :
  forall fuel start,
    search r s fuel start = None ->
    matches r s start no_caps = [].
Proof.
  intros fuel start H. destruct fuel; simpl in H;
    destruct (pick_longest (matches r s start no_caps)) as [w|] eqn:Hw;
    try discriminate; apply pick_longest_none; exact Hw.
Qed.

(** *** Alternations *)

Lemma matches_mkAlt s pos c rs :
  rs <> [] ->
  matches (mkAlt rs) s pos c = flat_map (fun r => matches r s pos c) rs.
Proof.
  induction rs as [|r rs IH]; intros Hne; [congruence|].
  destruct rs as [|r' rs].
  - simpl. rewrite app_nil_r. reflexivity.
  - change (mkAlt (r :: r' :: rs)) with (Alt r (mkAlt (r' :: rs))).
    change (matches (Alt r (mkAlt (r' :: rs))) s pos c)
      with (matches r s pos c ++ matches (mkAlt (r' :: rs)) s pos c).
    rewrite IH by discriminate. reflexivity.
Qed.

(** An element of a [flat_map] sits in the image of one element. *)
Lemma flat_map_split {A B} (f : A -> list B) :
  forall l l1 w l2,
    flat_map f l = l1 ++ w :: l2 ->
    exists g1 g g2 a b,
      l = g1 ++ g :: g2 /\ f g = a ++ w :: b
      /\ l1 = flat_map f g1 ++ a /\ l2 = b ++ flat_map f g2.
Proof.
  induction l as [|x l IH]; intros l1 w l2 H; simpl in H.
  - destruct l1; discriminate.
  - assert (Hcase : (exists b, f x = l1 ++ w :: b /\ l2 = b ++ flat_map f l)
                    \/ (exists l1', l1 = f x ++ l1' /\ flat_map f l = l1' ++ w :: l2)).
    { clear IH. revert l1 H. generalize (f x) as fx.
      induction fx as [|y fx IHfx]; intros l1 H; simpl in H.
      - right. exists l1. split; [reflexivity|exact H].
      - destruct l1 as [|z l1]; simpl in H.
        + inversion H; subst. left. exists fx. split; reflexivity.
        + inversion H; subst.
          destruct (IHfx _ H2) as [[b [Hb1 Hb2]]|[l1' [Hl1 Hl2]]].
          * left. exists b. split; [rewrite Hb1; reflexivity|exact Hb2].
          * right. exists l1'. split; [rewrite Hl1; reflexivity|exact Hl2]. }
    destruct Hcase as [[b [Hb1 Hb2]]|[l1' [Hl1 Hl2]]].
    + exists [], x, l, l1, b. repeat split; auto.
    + destruct (IH _ _ _ Hl2) as [g1 [g [g2 [a [b [Hl [Hf [Ha Hb]]]]]]]].
      exists (x :: g1), g, g2, a, b. subst. simpl.
      repeat split; auto. rewrite app_assoc. reflexivity.
Qed.

Lemma branches_inj_last a f : branches (inj a f) = inj_last a (branches f).
Proof.
  unfold branches, inj. destruct f as [c al]. simpl.
  destruct al; reflexivity.
Qed.

End MatcherFacts.

(** * The scan of the capture offsets in [getNextToken] *)

Module ScanFacts.
Import Syntax Notions.

Lemma cap_pair_eq c k : cap_pair c k = [cap_beg c k; cap_end c k].
Proof. unfold cap_pair, cap_beg, cap_end. destruct (c k) as [[b e]|]; reflexivity. Qed.

Lemma nth_flat_pairs c :
  forall n start j,
    j < n ->
    nth_error (flat_map (cap_pair c) (seq start n)) (2 * j)
    = Some (cap_beg c (start + j))
    /\ nth_error (flat_map (cap_pair c) (seq start n)) (2 * j + 1)
       = Some (cap_end c (start + j)).
Proof.
  induction n as [|n IH]; intros start j Hj; [lia|].
  simpl seq. simpl flat_map. rewrite cap_pair_eq.
  destruct j as [|j].
  - simpl. rewrite Nat.add_0_r. split; reflexivity.
  - replace (2 * S j) with (S (S (2 * j))) by lia.
    replace (start + S j) with (S start + j) by lia.
    simpl. apply IH. lia.
Qed.

Lemma nth_int_offsets c st e n k :
  1 <= k <= n ->
  let ms := st :: e :: flat_map (cap_pair c) (seq 1 n) in
  nth_int ms (2 * Z.of_nat k) = Done (cap_beg c k)
  /\ nth_int ms (2 * Z.of_nat k + 1) = Done (cap_end c k).
Proof.
  intros Hk ms. unfold nth_int.
  assert (H1 : (2 * Z.of_nat k <? 0)%Z = false) by (apply Z.ltb_ge; lia).
  assert (H2 : (2 * Z.of_nat k + 1 <? 0)%Z = false) by (apply Z.ltb_ge; lia).
  rewrite H1, H2.
  replace (Z.to_nat (2 * Z.of_nat k)) with (S (S (2 * (k - 1)))) by lia.
  replace (Z.to_nat (2 * Z.of_nat k + 1)) with (S (S (2 * (k - 1) + 1))) by lia.
  subst ms. cbn [nth_error].
  destruct (@nth_flat_pairs c n 1 (k - 1)) as [Ha Hb]; [lia|].
  replace (1 + (k - 1)) with k in * by lia.
  rewrite Ha, Hb. split; reflexivity.
Qed.

(** The loop stops at the first group that took part in the match and
    has a numeric name. *)
Lemma getNextToken_loop_finds l b c st e K bk ek dn :
  let n := numSubexp (regexps l) in
  let ms := st :: e :: flat_map (cap_pair c) (seq 1 n) in
  1 <= K <= n ->
  c K = Some (bk, ek) ->
  (forall k, 1 <= k < K -> c k = None) ->
  (exists name, nth_error (subexpNames (regexps l)) K = Some name
                /\ Strconv.ParseInt_10_32 name = Some dn) ->
  getNextToken_loop l b ms n 0 =
  match substring b (Z.of_nat ek - Z.of_nat bk) with
  | Done v => Done (mkToken dn v (index b), None,
                    advance b (Z.of_nat ek - Z.of_nat bk))
  | Panic p => Panic p
  end.
Proof.
  intros n ms HK HcK Hbefore [name [Hname Hparse]].
  assert (Hgen : forall todo i, i + todo = n -> i < K ->
             getNextToken_loop l b ms todo (Z.of_nat i) =
             match substring b (Z.of_nat ek - Z.of_nat bk) with
             | Done v => Done (mkToken dn v (index b), None,
                               advance b (Z.of_nat ek - Z.of_nat bk))
             | Panic p => Panic p
             end).
  { induction todo as [|todo IH]; intros i Hi HiK; [lia|].
    cbn [getNextToken_loop].
    replace (Z.of_nat i + 1)%Z with (Z.of_nat (S i)) by lia.
    destruct (@nth_int_offsets c st e n (S i)) as [Ha Hb]; [lia|].
    fold ms in Ha, Hb. rewrite Ha, Hb.
    destruct (Nat.eq_dec (S i) K) as [HeqK|Hne].
    - rewrite HeqK. unfold cap_beg, cap_end. rewrite HcK.
      assert (Hb1 : (Z.of_nat bk =? -1)%Z = false) by (apply Z.eqb_neq; lia).
      rewrite Hb1. unfold SubexpNames. rewrite Nat2Z.id, Hname, Hparse.
      reflexivity.
    - unfold cap_beg. rewrite (Hbefore (S i)) by lia.
      change ((-1 =? -1)%Z) with true. cbv iota.
      apply IH; lia. }
  apply (Hgen n 0); lia.
Qed.

End ScanFacts.

(** * The matcher on a grouped expression *)

Module GroupedFacts.
Import Syntax Notions MatcherFacts.

Lemma matches_grouped re gs s pos :
  grouped re gs ->
  matches (prog re) s pos no_caps
  = flat_map (fun g => matches (group_expr g) s pos no_caps) gs.
Proof.
  intros G. rewrite (grouped_prog G).
  rewrite matches_mkAlt.
  - rewrite flat_map_concat_map, map_map, <- flat_map_concat_map. reflexivity.
  - destruct gs; [exfalso; apply (grouped_nonempty G); reflexivity|discriminate].
Qed.

Lemma in_group_matches g s pos w :
  In w (matches (group_expr g) s pos no_caps) ->
  exists w1, In w1 (matches (snd g) s pos no_caps)
             /\ fst w = fst w1
             /\ snd w = set_cap (fst g) (pos, fst w1) (snd w1).
Proof.
  simpl. intros H. apply in_map_iff in H. destruct H as [w1 [<- H]].
  exists w1. auto.
Qed.

Lemma ends_in_group g s pos e :
  In e (ends (snd g) s pos) ->
  exists c, In (e, c) (matches (group_expr g) s pos no_caps).
Proof.
  unfold ends. intros H. apply in_map_iff in H. destruct H as [w1 [<- H]].
  exists (set_cap (fst g) (pos, fst w1) (snd w1)). simpl.
  apply in_map_iff. exists w1. auto.
Qed.

Lemma no_match_no_ends re gs s pos :
  grouped re gs ->
  matches (prog re) s pos no_caps = [] ->
  forall g, In g gs -> ends (snd g) s pos = [].
Proof.
  intros G H g Hg. rewrite (matches_grouped s pos G) in H.
  destruct (ends (snd g) s pos) as [|e es] eqn:He; [reflexivity|].
  destruct (@ends_in_group g s pos e) as [c Hc]; [rewrite He; left; reflexivity|].
  assert (Hin : In (e, c) (flat_map (fun g => matches (group_expr g) s pos no_caps) gs))
    by (apply in_flat_map; eauto).
  rewrite H in Hin. destruct Hin.
Qed.

Lemma nth_error_app_left {A} (l1 l2 : list A) i x :
  nth_error (l1 ++ l2) i = Some x -> i < List.length l1 -> In x l1.
Proof.
  intros H Hi. rewrite nth_error_app1 in H by exact Hi.
  eapply nth_error_In; eassumption.
Qed.

(** What the matcher answers on a grouped expression: nothing, and then
    no group matches at the start of the text; otherwise a start [st],
    which is the start of the text when a group matches there, the
    furthest end [e] that a group reaches from [st], and registers in
    which the first group reaching [e] is the first one set. *)
Theorem find_grouped re gs rest :
  grouped re gs ->
  (FindAllSubmatchIndex1 re rest = []
   /\ forall g, In g gs -> ends (snd g) rest 0 = [])
  \/
  (exists st e c j gj,
      FindAllSubmatchIndex1 re rest
      = [Z.of_nat st :: Z.of_nat e
           :: flat_map (cap_pair c) (seq 1 (numSubexp re))]
      /\ st <= e <= List.length rest
      /\ nth_error gs j = Some gj
      /\ In e (ends (snd gj) rest st)
      /\ (forall i gi e', nth_error gs i = Some gi ->
                          In e' (ends (snd gi) rest st) ->
                          e' <= e /\ (e' = e -> j <= i))
      /\ (forall g, 0 < st -> In g gs -> ends (snd g) rest 0 = [])
      /\ c (fst gj) = Some (st, e)
      /\ (forall k, k < fst gj -> c k = None)).
Proof.
  intros G. unfold FindAllSubmatchIndex1.
  destruct (search (prog re) rest (List.length rest) 0) as [[[st e] c]|] eqn:Hs.
  - right. apply search_some in Hs. destruct Hs as [_ [Hst [Hpick Hleft]]].
    specialize (Hst (Nat.le_0_l _)).
    apply pick_longest_spec in Hpick.
    destruct Hpick as [l1 [l2 [Hws [Hl1 Hl2]]]].
    rewrite (matches_grouped rest st G) in Hws.
    apply flat_map_split in Hws.
    destruct Hws as [g1 [gj [g2 [a [b [Hgs [Hf [Ha Hb]]]]]]]].
    assert (Hw : In (e, c) (matches (group_expr gj) rest st no_caps))
      by (rewrite Hf; apply in_or_app; right; left; reflexivity).
    apply in_group_matches in Hw. destruct Hw as [w1 [Hw1 [He Hc]]].
    simpl in He, Hc. subst e.
    assert (Hnth : nth_error gs (List.length g1) = Some gj).
    { rewrite Hgs, nth_error_app2, Nat.sub_diag by lia. reflexivity. }
    destruct (grouped_group G _ Hnth) as [Hk [_ Hinner]].
    destruct (@matches_sound rest (snd gj) st no_caps w1) as [Hb1 _];
      [lia|apply caps_ok_no_caps|exact Hw1|].
    exists st, (fst w1), c, (List.length g1), gj.
    split; [reflexivity|]. split; [lia|]. split; [exact Hnth|].
    split; [unfold ends; apply in_map; exact Hw1|].
    split; [|split; [|split]].
    + intros i gi e' Hi He'.
      destruct (@ends_in_group gi rest st e' He') as [c' Hc'].
      split.
      * assert (Hgi : In gi gs) by (eapply nth_error_In; eassumption).
        rewrite Hgs in Hgi. apply in_app_or in Hgi.
        destruct Hgi as [Hgi|[Hgi|Hgi]].
        -- assert (Hin : In (e', c') l1).
           { rewrite Ha. apply in_or_app. left. apply in_flat_map. eauto. }
           specialize (Hl1 _ Hin). simpl in Hl1. lia.
        -- subst gi. rewrite Hf in Hc'. apply in_app_or in Hc'.
           destruct Hc' as [Hin|[Hin|Hin]].
           ++ assert (Hin' : In (e', c') l1)
                by (rewrite Ha; apply in_or_app; right; exact Hin).
              specialize (Hl1 _ Hin'). simpl in Hl1. lia.
           ++ inversion Hin. lia.
           ++ assert (Hin' : In (e', c') l2)
                by (rewrite Hb; apply in_or_app; left; exact Hin).
              specialize (Hl2 _ Hin'). simpl in Hl2. lia.
        -- assert (Hin : In (e', c') l2).
           { rewrite Hb. apply in_or_app. right. apply in_flat_map. eauto. }
           specialize (Hl2 _ Hin). simpl in Hl2. lia.
      * intros Heq.
        assert (Hcase : i < List.length g1 \/ List.length g1 <= i) by lia.
        destruct Hcase as [Hlt|Hge]; [|exact Hge].
        assert (Hin1 : In gi g1)
          by (rewrite Hgs in Hi; eapply nth_error_app_left; eassumption).
        assert (Hin : In (e', c') l1).
        { rewrite Ha. apply in_or_app. left. apply in_flat_map. eauto. }
        specialize (Hl1 _ Hin). simpl in Hl1. lia.
    + intros g Hst' Hg. eapply no_match_no_ends; eauto.
    + rewrite Hc. unfold set_cap. rewrite Nat.eqb_refl. reflexivity.
    + intros k Hk'. rewrite Hc. unfold set_cap.
      assert (E : Nat.eqb k (fst gj) = false) by (apply Nat.eqb_neq; lia).
      rewrite E. rewrite (@matches_frame rest (snd gj) st no_caps w1 k Hw1);
        [reflexivity|].
      intros Hin. specialize (Hinner _ Hin). lia.
  - left. split; [reflexivity|].
    intros g Hg. eapply no_match_no_ends; eauto.
    eapply search_none. exact Hs.
Qed.

End GroupedFacts.

(** * Matching a pattern inside its group *)

Module EmbedFacts.
Import Syntax Notions MatcherFacts.

Lemma Forall2_flat_map {A B} (R : A -> A -> Prop) (Q : B -> B -> Prop)
      (f g : A -> list B) :
  (forall x y, R x y -> Forall2 Q (f x) (g y)) ->
  forall l l', Forall2 R l l' -> Forall2 Q (flat_map f l) (flat_map g l').
Proof.
  intros Hfg l l' H. induction H as [|x y l l' Hxy _ IH]; simpl.
  - constructor.
  - apply Forall2_app; auto.
Qed.

Lemma loop_same_end (body body' : nat -> caps -> list (nat * caps)) :
  (forall p c c', Forall2 same_end (body p c) (body' p c')) ->
  forall fuel p c c', Forall2 same_end (loop body fuel p c) (loop body' fuel p c').
Proof.
  intros Hb. induction fuel as [|fuel IH]; intros p c c'; simpl.
  - constructor; [reflexivity|constructor].
  - apply Forall2_app; [|constructor; [reflexivity|constructor]].
    apply Forall2_flat_map with (R := same_end); [|apply Hb].
    intros x y Hxy. unfold same_end in Hxy. rewrite Hxy.
    destruct (Nat.ltb p (fst y)); [apply IH|constructor].
Qed.

(** The ends an expression reaches depend neither on the registers it
    starts with nor on the numbering of its groups. *)
Lemma matches_same_end k s r :
  forall pos c c',
    Forall2 same_end (matches (shift k r) s pos c) (matches r s pos c').
Proof.
  induction r as [|a|a|r1 IH1 r2 IH2|r1 IH1 r2 IH2|r IH|j r IH];
    intros pos c c'; simpl.
  - constructor; [reflexivity|constructor].
  - destruct (rune_at s pos) as [[ch w]|]; [|constructor].
    destruct (atom_match a ch); [|constructor].
    constructor; [reflexivity|constructor].
  - destruct (assert_holds a s pos); [|constructor].
    constructor; [reflexivity|constructor].
  - apply Forall2_flat_map with (R := same_end); [|apply IH1].
    intros x y Hxy. unfold same_end in Hxy. rewrite Hxy. apply IH2.
  - apply Forall2_app; [apply IH1|apply IH2].
  - apply loop_same_end. intros p c0 c0'. apply IH.
  - specialize (IH pos c c').
    induction IH as [|x y l l' Hxy _ IHl]; simpl; constructor; auto.
Qed.

Lemma same_end_map_fst l l' :
  Forall2 same_end l l' -> map fst l = map fst l'.
Proof.
  induction 1 as [|x y l l' Hxy _ IH]; simpl; [reflexivity|].
  unfold same_end in Hxy. congruence.
Qed.

Lemma ends_shift k r s pos c :
  map fst (matches (shift k r) s pos c) = ends r s pos.
Proof. apply same_end_map_fst, matches_same_end. Qed.

(** At the start of the text, [^] in front of an expression changes
    nothing. *)
Lemma matches_mkCat_bol rs s c :
  matches (mkCat (Assert BeginText :: rs)) s 0 c = matches (mkCat rs) s 0 c.
Proof.
  destruct rs as [|r rs]; [reflexivity|].
  change (mkCat (Assert BeginText :: r :: rs))
    with (Cat (Assert BeginText) (mkCat (r :: rs))).
  simpl matches at 1. simpl. rewrite app_nil_r. reflexivity.
Qed.

Lemma inj_last_snoc a (bs : list (list regex)) b :
  inj_last a (bs ++ [b]) = bs ++ [b ++ [a]].
Proof.
  induction bs as [|l bs IH]; [reflexivity|].
  simpl app. destruct (bs ++ [b]) as [|x y] eqn:E.
  - destruct bs; discriminate.
  - change (inj_last a (l :: x :: y)) with (l :: inj_last a (x :: y)).
    rewrite IH. reflexivity.
Qed.

Lemma matches_finish_inj f s c :
  matches (finish (inj (Assert BeginText) f)) s 0 c = matches (finish f) s 0 c.
Proof.
  unfold finish. rewrite branches_inj_last.
  destruct (@exists_last _ (branches f)) as [bs [b Hb]]; [discriminate|].
  rewrite Hb, inj_last_snoc, !rev_unit. cbn [map].
  rewrite !matches_mkAlt by discriminate. cbn [flat_map].
  rewrite rev_unit, matches_mkCat_bol. reflexivity.
Qed.

End EmbedFacts.

(** * Facts about [strconv] *)

Module StrconvFacts.
Import Strconv.

Lemma string_of_uint_head d :
  d <> Decimal.Nil ->
  exists c t, NilEmpty.string_of_uint d = String c t
              /\ Ascii.eqb c "+" = false /\ Ascii.eqb c "-" = false.
Proof.
  destruct d; intros H; try congruence; simpl; eexists; eexists;
    (split; [reflexivity|split; reflexivity]).
Qed.

Lemma to_uint_not_nil n : N.to_uint n <> Decimal.Nil.
Proof.
  intros H. assert (Hn : n = 0%N).
  { rewrite <- (DecimalN.Unsigned.of_to n), H. reflexivity. }
  subst n. discriminate H.
Qed.

(** [ParseInt] reads back what [%d] prints, within 32 bits. *)
Lemma ParseInt_format_d i :
  (Z.of_nat i < 2 ^ 31)%Z ->
  ParseInt_10_32 (format_d i) = Some (Z.of_nat i).
Proof.
  intros Hi. unfold ParseInt_10_32, format_d.
  destruct (string_of_uint_head (to_uint_not_nil (N.of_nat i)))
    as [c [t [Hs [Hp Hm]]]].
  assert (Hv : digits_value (NilEmpty.string_of_uint (N.to_uint (N.of_nat i)))
               = Some (Z.of_nat i)).
  { unfold digits_value. rewrite Hs. rewrite <- Hs.
    rewrite NilEmpty.usu. rewrite DecimalN.Unsigned.of_to.
    rewrite nat_N_Z. reflexivity. }
  rewrite Hs in *. rewrite Hp, Hm, Hv.
  assert (H1 : (- 2 ^ 31 <=? Z.of_nat i)%Z = true) by (apply Z.leb_le; lia).
  assert (H2 : (Z.of_nat i <? 2 ^ 31)%Z = true) by (apply Z.ltb_lt; lia).
  rewrite H1, H2. reflexivity.
Qed.

End StrconvFacts.

(** * Facts about the buffer and the scanning loop *)

Module LexFacts.
Import Notions.

Lemma string_length_of_list l :
  String.length (string_of_list_ascii l) = List.length l.
Proof. induction l; simpl; congruence. Qed.

Lemma substring_done b n v :
  substring b n = Done v ->
  (0 <= index b)%Z /\ (0 <= n)%Z /\ (index b + n <= len (buffer b))%Z
  /\ Z.of_nat (String.length v) = n.
Proof.
  unfold substring.
  destruct ((0 <=? index b)%Z && (0 <=? n)%Z
            && (index b + n <=? len (buffer b))%Z)%bool eqn:E; [|discriminate].
  apply andb_prop in E. destruct E as [E E3]. apply andb_prop in E.
  destruct E as [E1 E2].
  apply Z.leb_le in E1, E2, E3. intros H. inversion H; subst v; clear H.
  repeat split; auto.
  rewrite string_length_of_list, length_firstn, length_skipn.
  unfold len in E3. lia.
Qed.

(** What a token returned without error by [getNextToken] looks like:
    it holds the bytes at the index, and the buffer has moved past them. *)
Lemma getNextToken_loop_done l b ms :
  forall todo i tok err b',
    getNextToken_loop l b ms todo i = Done (tok, err, b') ->
    err = None /\ Index tok = index b
    /\ substring b (Z.of_nat (String.length (Value tok))) = Done (Value tok)
    /\ b' = advance b (Z.of_nat (String.length (Value tok))).
Proof.
  induction todo as [|todo IH]; intros i tok err b' H;
    cbn [getNextToken_loop] in H; [discriminate|].
  destruct (nth_int ms (2 * (i + 1))) as [beg|];
    destruct (nth_int ms (2 * (i + 1) + 1)) as [end_|]; try discriminate.
  destruct (beg =? -1)%Z; [eapply IH; eassumption|].
  destruct (nth_error (SubexpNames (regexps l)) (Z.to_nat (i + 1))) as [name|];
    [|discriminate].
  destruct (Strconv.ParseInt_10_32 name) as [dn|]; [|eapply IH; eassumption].
  destruct (substring b (end_ - beg)) as [v|] eqn:Hv; [|discriminate].
  inversion H; subst; clear H. simpl.
  destruct (substring_done _ _ Hv) as [_ [_ [_ Hlen]]].
  rewrite Hlen. auto.
Qed.

Lemma getNextToken_done l b tok b' :
  getNextToken l b = Done (tok, None, b') ->
  Index tok = index b
  /\ substring b (Z.of_nat (String.length (Value tok))) = Done (Value tok)
  /\ b' = advance b (Z.of_nat (String.length (Value tok))).
Proof.
  unfold getNextToken. destruct (next b) as [rest|]; [|discriminate].
  destruct (FindAllSubmatchIndex1 (regexps l) rest) as [|ms ?].
  - destruct (current b); discriminate.
  - intros H. apply getNextToken_loop_done in H. tauto.
Qed.

(** An error of [getNextToken] is a [MatchError] at the index, raised
    when the matcher finds nothing in the remaining input. *)
Lemma getNextToken_error l b tok e b' :
  getNextToken l b = Done (tok, Some e, b') ->
  e = MatchError (index b) /\ b' = b
  /\ exists rest, next b = Done rest
                  /\ FindAllSubmatchIndex1 (regexps l) rest = [].
Proof.
  unfold getNextToken. destruct (next b) as [rest|] eqn:Hn; [|discriminate].
  destruct (FindAllSubmatchIndex1 (regexps l) rest) as [|ms ?] eqn:Hf.
  - destruct (current b); [|discriminate]. intros H. inversion H; subst.
    repeat split; eauto.
  - intros H. apply getNextToken_loop_done in H. destruct H as [H _].
    discriminate.
Qed.

(** [skipWhitespace] moves over white space only, not over a newline when
    newlines are tokens, and stops at the end of the input or at the
    first byte that is not to be skipped. *)
Lemma skipWhitespace_loop_spec sn :
  forall rest idx,
    exists n,
      skipWhitespace_loop rest idx sn = (idx + Z.of_nat n)%Z
      /\ n <= List.length rest
      /\ (forall i c, i < n -> nth_error rest i = Some c -> skippable sn c = true)
      /\ (forall c, nth_error rest n = Some c -> skippable sn c = false).
Proof.
  induction rest as [|r rest IH]; intros idx; simpl.
  - exists 0. split; [lia|]. split; [lia|]. split; [intros; lia|].
    intros c H. discriminate.
  - destruct ((negb sn && Ascii.eqb r Bytes.newline) || negb (Bytes.IsSpace r))%bool
      eqn:E.
    + exists 0. split; [lia|]. split; [lia|]. split; [intros; lia|].
      intros c H. simpl in H. inversion H; subst c. unfold skippable.
      destruct (Bytes.IsSpace r), sn, (Ascii.eqb r Bytes.newline);
        simpl in *; congruence.
    + destruct (IH (idx + 1)%Z) as [n [Hn [Hle [Hskip Hstop]]]].
      exists (S n). repeat split.
      * rewrite Hn. lia.
      * simpl. lia.
      * intros i c Hi Hc. destruct i as [|i]; simpl in Hc.
        -- inversion Hc; subst c. unfold skippable.
           destruct (Bytes.IsSpace r), sn, (Ascii.eqb r Bytes.newline);
             simpl in *; congruence.
        -- eapply Hskip; [|eassumption]. lia.
      * intros c Hc. simpl in Hc. eauto.
Qed.

Lemma skipWhitespace_done b sn b1 :
  skipWhitespace b sn = Done b1 ->
  buffer b1 = buffer b /\ (0 <= index b <= index b1)%Z
  /\ (index b <= len (buffer b) -> index b1 <= len (buffer b))%Z.
Proof.
  unfold skipWhitespace. destruct (index b <? 0)%Z eqn:E; [discriminate|].
  apply Z.ltb_ge in E. intros H. inversion H; subst b1; clear H. simpl.
  destruct (skipWhitespace_loop_spec sn (skipn (Z.to_nat (index b)) (buffer b))
                                     (index b)) as [n [Hn [Hle _]]].
  rewrite Hn. rewrite length_skipn in Hle. unfold len.
  split; [reflexivity|]. split; lia.
Qed.

(** The byte under the index after [skipWhitespace], if any, is not one
    to skip. *)
Lemma skipWhitespace_stops b sn b1 c :
  skipWhitespace b sn = Done b1 ->
  nth_error (buffer b) (Z.to_nat (index b1)) = Some c ->
  skippable sn c = false.
Proof.
  unfold skipWhitespace. destruct (index b <? 0)%Z eqn:E; [discriminate|].
  apply Z.ltb_ge in E. intros H. inversion H; subst b1; clear H. simpl.
  destruct (skipWhitespace_loop_spec sn (skipn (Z.to_nat (index b)) (buffer b))
                                     (index b)) as [n [Hn [Hle [_ Hstop]]]].
  rewrite Hn. intros Hc. apply Hstop.
  rewrite nth_error_skipn. rewrite <- Hc. f_equal. lia.
Qed.

End LexFacts.

(** * Facts about the parser *)

Module ParserFacts.
Import Syntax Notions.

Lemma bind_ret {A} (r : result A) : bind r (fun a => Ok a) = r.
Proof. destruct r; reflexivity. Qed.

Lemma cons_tok_ok t r ts :
  cons_tok t r = Ok ts -> exists ts', r = Ok ts' /\ ts = t :: ts'.
Proof.
  destruct r as [ts'|e]; simpl; intros H; inversion H. eauto.
Qed.

Lemma tokenize_close x : tokenize (")"%char :: x) = cons_tok TClose (tokenize x).
Proof. reflexivity. Qed.

Lemma followed_by_nil x : followed_by x [] = tokenize (")"%char :: x).
Proof.
  unfold followed_by. rewrite tokenize_close.
  destruct (cons_tok TClose (tokenize x)); reflexivity.
Qed.

Lemma cons_tok_followed t ts x :
  cons_tok t (followed_by x ts) = followed_by x (t :: ts).
Proof.
  unfold followed_by. destruct (cons_tok TClose (tokenize x)); reflexivity.
Qed.

Lemma via_cons t r x ts :
  r = followed_by x ts -> cons_tok t r = followed_by x (t :: ts).
Proof. intros ->. apply cons_tok_followed. Qed.

(** Case analysis on the scanner's tests, without unfolding the
    recursive calls. *)
Ltac split_cases H :=
  repeat first
    [ discriminate H
    | match type of H with
      | match ?l with [] => _ | _ :: _ => _ end = _ =>
        is_var l; destruct l; cbn [app] in H |- *
      | (if ?b then _ else _) = _ =>
        let E := fresh "E" in destruct b eqn:E; cbn [app] in H |- *
      | match escape_char ?e with Ok _ => _ | Err _ => _ end = _ =>
        destruct (escape_char e); cbn [app] in H |- *
      | match posix_class ?e with Ok _ => _ | Err _ => _ end = _ =>
        destruct (posix_class e); cbn [app] in H |- *
      end ].

Ltac by_IH IHt IHn IHc IHp Hlen H x :=
  match type of H with
  | tokenize ?s = Ok ?ts =>
    exact (IHt s ts x ltac:(simpl in Hlen |- *; lia) H)
  | tok_name ?acc ?s = Ok ?ts =>
    exact (IHn acc s ts x ltac:(simpl in Hlen |- *; lia) H)
  | tok_class ?neg ?first ?acc ?s = Ok ?ts =>
    exact (IHc neg first acc s ts x ltac:(simpl in Hlen |- *; lia) H)
  | tok_posix ?neg ?acc ?name ?s = Ok ?ts =>
    exact (IHp neg acc name s ts x ltac:(simpl in Hlen |- *; lia) H)
  | cons_tok ?t (tokenize ?s) = Ok _ =>
    let ts' := fresh "ts" in
    let H1 := fresh "H" in
    apply cons_tok_ok in H; destruct H as [ts' [H1 ->]];
    exact (@via_cons t _ x _ (IHt s ts' x ltac:(simpl in Hlen |- *; lia) H1))
  end.

Lemma stable_all : forall n, stable n.
Proof.
  induction n as [|n [IHt [IHn [IHc IHp]]]].
  - repeat split; intros until x; intros Hlen H;
      (destruct s; [|simpl in Hlen; lia]); simpl in H; try discriminate H.
    inversion H; subst. simpl. rewrite followed_by_nil. reflexivity.
  - repeat split; intros until x; intros Hlen H.
    + destruct s as [|c t]; simpl in H.
      { inversion H; subst. simpl. rewrite followed_by_nil. reflexivity. }
      simpl. split_cases H; by_IH IHt IHn IHc IHp Hlen H x.
    + destruct s as [|c t]; simpl in H; [discriminate H|].
      simpl. split_cases H; by_IH IHt IHn IHc IHp Hlen H x.
    + destruct s as [|c t]; simpl in H; [discriminate H|].
      simpl. split_cases H; by_IH IHt IHn IHc IHp Hlen H x.
    + destruct s as [|c t]; simpl in H; [discriminate H|].
      simpl. split_cases H; by_IH IHt IHn IHc IHp Hlen H x.
Qed.

Lemma tokenize_stable s ts x :
  tokenize s = Ok ts ->
  tokenize (s ++ ")"%char :: x) = followed_by x ts.
Proof.
  intros H. destruct (stable_all (List.length s)) as [Ht _].
  apply Ht; auto.
Qed.

(** *** The pattern inside its group *)

Lemma nullable_shift k r : nullable (shift k r) = nullable r.
Proof. induction r; simpl; congruence. Qed.

Lemma apply_rep_shift k op r :
  apply_rep op (shift k r) = shift k (apply_rep op r).
Proof.
  destruct op; simpl; [|reflexivity|reflexivity].
  rewrite nullable_shift. destruct (nullable r); reflexivity.
Qed.

Lemma mkCat_shift k rs : mkCat (map (shift k) rs) = shift k (mkCat rs).
Proof.
  induction rs as [|r rs IH]; [reflexivity|].
  destruct rs as [|r' rs]; [reflexivity|].
  change (mkCat (map (shift k) (r :: r' :: rs)))
    with (Cat (shift k r) (mkCat (map (shift k) (r' :: rs)))).
  rewrite IH. reflexivity.
Qed.

Lemma mkAlt_shift k rs : mkAlt (map (shift k) rs) = shift k (mkAlt rs).
Proof.
  induction rs as [|r rs IH]; [reflexivity|].
  destruct rs as [|r' rs]; [reflexivity|].
  change (mkAlt (map (shift k) (r :: r' :: rs)))
    with (Alt (shift k r) (mkAlt (map (shift k) (r' :: rs)))).
  rewrite IH. reflexivity.
Qed.

Lemma finish_shift k f : finish (shiftF k f) = shift k (finish f).
Proof.
  unfold finish, branches, shiftF. cbn [cur alts].
  rewrite <- mkAlt_shift. f_equal.
  change (map (shift k) (cur f) :: map (map (shift k)) (alts f))
    with (map (map (shift k)) (cur f :: alts f)).
  rewrite <- map_rev, !map_map. apply map_ext.
  intros l. rewrite <- map_rev. apply mkCat_shift.
Qed.

Lemma branches_inj a f : branches (inj a f) = inj_last a (branches f).
Proof.
  unfold branches, inj. destruct f as [c al]. simpl.
  destruct al; reflexivity.
Qed.

Lemma inj_push a x c al :
  inj a (mkFrame (x :: c) al) = mkFrame (x :: cur (inj a (mkFrame c al)))
                                        (alts (inj a (mkFrame c al))).
Proof. unfold inj. simpl. destruct al; reflexivity. Qed.

Lemma cur_inj_cons a x c al :
  exists rest, cur (inj a (mkFrame (x :: c) al)) = x :: rest
               /\ rest = cur (inj a (mkFrame c al)).
Proof. unfold inj. simpl. destruct al; simpl; eauto. Qed.

(** One step of the parser on the pattern alone is one step inside the
    group. *)
Lemma step_embed k a ctx ctx_names t st st' :
  step t st = Ok st' ->
  step t (embed k a ctx ctx_names st) = Ok (embed k a ctx ctx_names st').
Proof.
  destruct st as [[c al] bl n nm lr].
  destruct t; simpl; intros H.
  - inversion H; subst; clear H. unfold embed, push. simpl.
    destruct bl; simpl; [|reflexivity].
    unfold inj. simpl. destruct al; reflexivity.
  - inversion H; subst; clear H. unfold embed, push. simpl.
    destruct bl; simpl; [|reflexivity].
    unfold inj. simpl. destruct al; reflexivity.
  - inversion H; subst; clear H. unfold embed. simpl.
    rewrite Nat.add_succ_r.
    destruct bl as [|[c0 f0] bl]; reflexivity.
  - inversion H; subst; clear H. unfold embed. simpl.
    destruct bl as [|[c0 f0] bl]; reflexivity.
  - destruct bl as [|[c0 f0] bl]; [discriminate|].
    inversion H; subst; clear H. unfold embed. simpl.
    rewrite finish_shift.
    destruct bl as [|[c1 f1] bl]; simpl.
    + destruct f0 as [c0' al0]. unfold inj. simpl.
      destruct c0 as [j|]; destruct al0; reflexivity.
    + destruct c0 as [j|]; reflexivity.
  - inversion H; subst; clear H. unfold embed. simpl.
    destruct bl as [|[c0 f0] bl]; simpl; [|reflexivity].
    unfold inj, branches. simpl. destruct al; reflexivity.
  - destruct lr; [discriminate|]. destruct c as [|r rest]; [discriminate|].
    inversion H; subst; clear H. unfold embed. simpl.
    destruct bl as [|[c0 f0] bl]; simpl.
    + unfold inj. simpl. destruct al; simpl; rewrite apply_rep_shift; reflexivity.
    + rewrite apply_rep_shift. reflexivity.
Qed.

Lemma run_embed k a ctx ctx_names ts :
  forall st st',
    run ts st = Ok st' ->
    run ts (embed k a ctx ctx_names st) = Ok (embed k a ctx ctx_names st').
Proof.
  induction ts as [|t ts IH]; intros st st' H; simpl in H |- *.
  - inversion H; subst. reflexivity.
  - destruct (step t st) as [st1|] eqn:Hs; [|discriminate]. simpl in H.
    rewrite (step_embed k a ctx ctx_names _ _ Hs). simpl. apply IH. exact H.
Qed.

Lemma run_app ts1 ts2 st :
  run (ts1 ++ ts2) st = bind (run ts1 st) (run ts2).
Proof.
  revert st. induction ts1 as [|t ts1 IH]; intros st; simpl; [reflexivity|].
  destruct (step t st); simpl; [apply IH|reflexivity].
Qed.

(** *** Capture indices *)

Lemma capsP_mkCat P rs : Forall (capsP P) rs -> capsP P (mkCat rs).
Proof.
  induction 1 as [|r rs Hr Hrs IH]; [constructor|].
  destruct rs as [|r' rs]; [exact Hr|].
  change (mkCat (r :: r' :: rs)) with (Cat r (mkCat (r' :: rs))).
  unfold capsP in *. simpl. apply Forall_app. auto.
Qed.

Lemma capsP_mkAlt P rs : Forall (capsP P) rs -> capsP P (mkAlt rs).
Proof.
  induction 1 as [|r rs Hr Hrs IH]; [constructor|].
  destruct rs as [|r' rs]; [exact Hr|].
  change (mkAlt (r :: r' :: rs)) with (Alt r (mkAlt (r' :: rs))).
  unfold capsP in *. simpl. apply Forall_app. auto.
Qed.

Lemma capsP_finish P f : frameP P f -> capsP P (finish f).
Proof.
  unfold frameP, finish. intros H. apply capsP_mkAlt.
  apply Forall_forall. intros r Hr. apply in_map_iff in Hr.
  destruct Hr as [l [<- Hl]]. apply capsP_mkCat. apply Forall_rev.
  apply in_rev in Hl. eapply Forall_forall in H; eassumption.
Qed.

Lemma capsP_apply_rep P op r : capsP P r -> capsP P (apply_rep op r).
Proof.
  unfold capsP. intros H. destruct op; simpl.
  - destruct (nullable r); simpl; rewrite ?app_nil_r; auto.
    apply Forall_app. auto.
  - apply Forall_app. auto.
  - rewrite app_nil_r. exact H.
Qed.

Lemma capsP_shift k r : capsP (le 1) r -> capsP (lt k) (shift k r).
Proof.
  unfold capsP. induction r; simpl; intros H; try constructor.
  - apply Forall_app in H. destruct H. apply Forall_app. auto.
  - apply Forall_app in H. destruct H. apply Forall_app. auto.
  - auto.
  - inversion H; subst. lia.
  - inversion H; subst. auto.
Qed.

Lemma frameP_shift k f : frameP (le 1) f -> frameP (lt k) (shiftF k f).
Proof.
  unfold frameP, branches, shiftF. cbn [cur alts]. intros H.
  change (map (shift k) (cur f) :: map (map (shift k)) (alts f))
    with (map (map (shift k)) (cur f :: alts f)).
  apply Forall_forall. intros l Hl. apply in_map_iff in Hl.
  destruct Hl as [l0 [<- Hl0]].
  eapply Forall_forall in H; [|exact Hl0].
  apply Forall_forall. intros r Hr. apply in_map_iff in Hr.
  destruct Hr as [r0 [<- Hr0]]. apply capsP_shift.
  eapply Forall_forall in H; eassumption.
Qed.

Lemma Forall_inj_last (Q : regex -> Prop) a bs :
  Q a -> Forall (Forall Q) bs -> Forall (Forall Q) (inj_last a bs).
Proof.
  intros Ha. induction 1 as [|l bs Hl Hbs IH]; [constructor|].
  destruct bs as [|l' bs].
  - simpl. constructor; [|constructor]. apply Forall_app. auto.
  - change (inj_last a (l :: l' :: bs)) with (l :: inj_last a (l' :: bs)).
    constructor; auto.
Qed.

Lemma frameP_inj P a f : capsP P a -> frameP P f -> frameP P (inj a f).
Proof.
  unfold frameP. rewrite MatcherFacts.branches_inj_last.
  apply Forall_inj_last.
Qed.

Lemma numbered_init : numbered init_pstate.
Proof.
  unfold numbered, init_pstate, frameP, branches. simpl.
  repeat split; repeat constructor.
Qed.

Lemma frameP_push P r c al :
  capsP P r -> frameP P (mkFrame c al) -> frameP P (mkFrame (r :: c) al).
Proof.
  unfold frameP, branches. simpl. intros Hr H. inversion H; subst.
  constructor; [constructor|]; auto.
Qed.

Lemma numbered_step t st st' :
  numbered st -> step t st = Ok st' -> numbered st'.
Proof.
  destruct st as [[c al] bl n nm lr]. unfold numbered. simpl.
  intros [Hn [Ht Hb]] H. destruct t; simpl in H.
  - injection H as <-. simpl. repeat split; auto.
    apply frameP_push; [constructor|exact Ht].
  - injection H as <-. simpl. repeat split; auto.
    apply frameP_push; [constructor|exact Ht].
  - injection H as <-. simpl. split; [congruence|].
    split; [repeat constructor|]. constructor; [|exact Hb].
    simpl. split; [exact Ht|]. intros j Hj. inversion Hj. lia.
  - injection H as <-. simpl. split; [exact Hn|].
    split; [repeat constructor|]. constructor; [|exact Hb].
    simpl. split; [exact Ht|]. intros j Hj. discriminate.
  - destruct bl as [|[c0 f0] bl]; [discriminate|].
    injection H as <-. simpl.
    pose proof (Forall_inv Hb) as [Hf0 Hc0].
    pose proof (Forall_inv_tail Hb) as Hbl. simpl in Hf0, Hc0.
    split; [exact Hn|]. split; [|exact Hbl].
    destruct f0 as [c0' al0]. apply frameP_push; [|exact Hf0].
    pose proof (capsP_finish Ht) as Hfin.
    destruct c0 as [j|]; [|exact Hfin].
    unfold capsP. simpl. constructor; [apply Hc0; reflexivity|exact Hfin].
  - injection H as <-. simpl. repeat split; auto.
    unfold frameP, branches in *. simpl in *. constructor; [constructor|exact Ht].
  - destruct lr; [discriminate|]. destruct c as [|r rest]; [discriminate|].
    injection H as <-. simpl. repeat split; auto.
    unfold frameP, branches in *. simpl in *.
    pose proof (Forall_inv Ht) as Hc. pose proof (Forall_inv_tail Ht) as Hal.
    constructor; [|exact Hal].
    constructor; [|exact (Forall_inv_tail Hc)].
    apply capsP_apply_rep. exact (Forall_inv Hc).
Qed.

Lemma numbered_run ts :
  forall st st', numbered st -> run ts st = Ok st' -> numbered st'.
Proof.
  induction ts as [|t ts IH]; intros st st' Hn H; simpl in H.
  - inversion H; subst. exact Hn.
  - destruct (step t st) as [st1|] eqn:Hs; [|discriminate]. simpl in H.
    eapply IH; [|exact H]. eapply numbered_step; eassumption.
Qed.

(** *** One group of the combined expression *)

Lemma run_group name ts st B :
  run ts init_pstate = Ok st ->
  below st = [] ->
  run (TOpen name :: TAssert BeginText :: ts ++ [TClose]) B
  = Ok (mkPstate (mkFrame (group_expr (group_of B st) :: cur (top B))
                          (alts (top B)))
                 (below B) (S (ncap B) + ncap st)
                 (names st ++ name :: names B) false).
Proof.
  intros Hrun Hbelow.
  assert (E0 : run (TOpen name :: TAssert BeginText :: ts ++ [TClose]) B
               = run (ts ++ [TClose])
                     (embed (S (ncap B)) (Assert BeginText)
                            ((Some (S (ncap B)), top B) :: below B)
                            (name :: names B) init_pstate)).
  { unfold embed. simpl. rewrite Nat.add_0_r. reflexivity. }
  rewrite E0, run_app.
  rewrite (run_embed _ _ _ _ _ _ Hrun). simpl.
  unfold embed. rewrite Hbelow. simpl. reflexivity.
Qed.

(** *** The groups of the combined expression *)

Lemma between_init : between init_pstate [].
Proof.
  unfold between. simpl.
  split; [reflexivity|]. split; [reflexivity|]. split; [reflexivity|].
  intros j g H. destruct j; discriminate.
Qed.

Lemma run_bar i B :
  run (if Nat.eqb i 0 then [] else [TBar]) B = Ok (after_bar i B).
Proof. unfold after_bar. destruct (Nat.eqb i 0); reflexivity. Qed.

Lemma between_group B gs ts st :
  between B gs ->
  run ts init_pstate = Ok st ->
  below st = [] ->
  let i := List.length gs in
  let g := group_of B st in
  exists B',
    run ((if Nat.eqb i 0 then [] else [TBar])
           ++ TOpen (Strconv.format_d i) :: TAssert BeginText :: ts ++ [TClose]) B
    = Ok B'
    /\ between B' (gs ++ [g]).
Proof.
  intros [Hbelow [Htop [Hnames Hgs]]] Hrun Hst i g.
  pose proof (numbered_run _ numbered_init Hrun) as [Hn [Hcaps _]].
  rewrite run_app, run_bar. cbn [bind].
  rewrite (@run_group (Strconv.format_d i) ts st (after_bar i B) Hrun Hst).
  assert (Hncap : ncap (after_bar i B) = ncap B)
    by (unfold after_bar; destruct (Nat.eqb i 0); reflexivity).
  assert (Hnm : names (after_bar i B) = names B)
    by (unfold after_bar; destruct (Nat.eqb i 0); reflexivity).
  assert (Hbl : below (after_bar i B) = [])
    by (unfold after_bar; destruct (Nat.eqb i 0); exact Hbelow).
  assert (Hg : group_of (after_bar i B) st = g)
    by (unfold g, group_of; rewrite Hncap; reflexivity).
  rewrite Hg, Hncap, Hnm, Hbl.
  eexists. split; [reflexivity|].
  unfold between. cbn [below top names ncap].
  split; [reflexivity|]. split; [|split].
  - rewrite rev_unit.
    assert (Hi : i = List.length (rev gs)) by (rewrite length_rev; reflexivity).
    unfold after_bar. rewrite Hi.
    destruct (rev gs) as [|g' others]; cbn [List.length Nat.eqb top cur alts];
      rewrite Htop; reflexivity.
  - rewrite length_app. simpl. lia.
  - intros j gj Hj.
    assert (Hrev : rev (names st ++ Strconv.format_d i :: names B)
                   = rev (names B) ++ Strconv.format_d i :: rev (names st)).
    { rewrite rev_app_distr. simpl. rewrite <- app_assoc. reflexivity. }
    rewrite Hrev.
    assert (Hcase : j < List.length gs \/ j = List.length gs).
    { assert (j < List.length (gs ++ [g]))
        by (apply nth_error_Some; congruence).
      rewrite length_app in H. simpl in H. lia. }
    destruct Hcase as [Hlt|Heq].
    + rewrite nth_error_app1 in Hj by exact Hlt.
      destruct (Hgs _ _ Hj) as [Hk [Hname Hc]].
      split; [lia|]. split; [|exact Hc].
      rewrite nth_error_app1; [exact Hname|].
      rewrite length_rev. lia.
    + subst j. rewrite nth_error_app2, Nat.sub_diag in Hj by lia.
      simpl in Hj. injection Hj as <-. unfold g, group_of. cbn [fst snd].
      split; [lia|]. split.
      * rewrite nth_error_app2 by (rewrite length_rev; lia).
        rewrite length_rev, Hnames.
        replace (S (ncap B) - 1 - ncap B) with 0 by lia. reflexivity.
      * apply capsP_finish. apply frameP_inj; [constructor|].
        apply frameP_shift. exact Hcaps.
Qed.

Lemma run_all_toks tss sts :
  Forall2 parsed_alone tss sts ->
  forall B gs,
    between B gs ->
    exists B' gs',
      run (all_toks (List.length gs) tss) B = Ok B'
      /\ between B' (gs ++ gs')
      /\ Forall2 group_from sts gs'.
Proof.
  induction 1 as [|ts st tss sts [Hrun Hst] _ IH]; intros B gs HB.
  - exists B, []. simpl. rewrite app_nil_r.
    split; [reflexivity|]. split; [exact HB|constructor].
  - destruct (@between_group B gs ts st HB Hrun Hst) as [B1 [Hrun1 HB1]].
    destruct (IH B1 _ HB1) as [B' [gs' [Hrun' [HB' Hfrom]]]].
    exists B', (group_of B st :: gs'). split; [|split].
    + cbn [all_toks].
      replace ((if Nat.eqb (List.length gs) 0 then [] else [TBar])
               ++ TOpen (Strconv.format_d (List.length gs))
               :: TAssert BeginText
               :: ts ++ TClose :: all_toks (S (List.length gs)) tss)
        with (((if Nat.eqb (List.length gs) 0 then [] else [TBar])
               ++ TOpen (Strconv.format_d (List.length gs))
               :: TAssert BeginText :: ts ++ [TClose])
               ++ all_toks (S (List.length gs)) tss).
      * rewrite run_app, Hrun1. cbn [bind].
        rewrite length_app in Hrun'. simpl in Hrun'.
        rewrite Nat.add_1_r in Hrun'. exact Hrun'.
      * rewrite <- !app_assoc. f_equal. simpl. f_equal. f_equal.
        rewrite <- app_assoc. reflexivity.
    + rewrite <- app_assoc in HB'. exact HB'.
    + constructor; [|exact Hfrom]. unfold group_from, group_of. reflexivity.
Qed.

Lemma finish_between B gs :
  between B gs -> gs <> [] ->
  finish (top B) = mkAlt (map group_expr gs).
Proof.
  intros [_ [Htop _]] Hne. unfold finish, branches. rewrite Htop.
  destruct (rev gs) as [|g others] eqn:E.
  - exfalso. apply Hne. rewrite <- (rev_involutive gs), E. reflexivity.
  - cbn [cur alts]. f_equal.
    change ([group_expr g] :: map (fun x => [group_expr x]) others)
      with (map (fun x => [group_expr x]) (g :: others)).
    rewrite <- E, <- map_rev, rev_involutive, map_map. reflexivity.
Qed.

(** *** The text of the combined expression *)

Lemma chars_app a b : chars (a ++ b) = chars a ++ chars b.
Proof.
  unfold chars. induction a as [|c a IH]; simpl; [reflexivity|].
  rewrite IH. reflexivity.
Qed.

Lemma New_loop_string ls :
  forall i acc sk,
    chars (fst (New_loop i ls acc sk)) = chars acc ++ combined i ls.
Proof.
  induction ls as [|p ls IH]; intros i acc sk; cbn [New_loop combined].
  - simpl. rewrite app_nil_r. reflexivity.
  - rewrite IH. rewrite !chars_app.
    destruct (Nat.eqb i 0); rewrite ?chars_app, <- ?app_assoc; reflexivity.
Qed.

Lemma digit_chars d :
  Forall (fun c => Bytes.is_digit c = true)
         (chars (NilEmpty.string_of_uint d)).
Proof.
  unfold chars. induction d; simpl; constructor; auto.
Qed.

Lemma digit_not_gt c :
  Bytes.is_digit c = true ->
  Ascii.eqb c ">" = false /\ Bytes.is_word c = true.
Proof.
  intros H. split.
  - destruct (Ascii.eqb c ">") eqn:E; [|reflexivity].
    apply Ascii.eqb_eq in E. subst c. discriminate H.
  - unfold Bytes.is_word, Bytes.is_alnum. rewrite H.
    rewrite orb_true_r. reflexivity.
Qed.

Lemma tok_name_cons acc c t :
  tok_name acc (c :: t)
  = if Ascii.eqb c ">" then
      match acc with
      | [] => Err InvalidNamedCapture
      | _ => cons_tok (TOpen (string_of_list_ascii (rev acc))) (tokenize t)
      end
    else if Bytes.is_word c then tok_name (c :: acc) t
    else Err InvalidNamedCapture.
Proof. reflexivity. Qed.

Lemma tok_name_digits ds :
  Forall (fun c => Bytes.is_digit c = true) ds ->
  forall acc y,
    rev acc ++ ds <> [] ->
    tok_name acc (ds ++ ">"%char :: y)
    = cons_tok (TOpen (string_of_list_ascii (rev acc ++ ds))) (tokenize y).
Proof.
  induction 1 as [|d ds Hd _ IH]; intros acc y Hne.
  - rewrite app_nil_r in *. cbn [app]. rewrite tok_name_cons.
    change (Ascii.eqb ">" ">") with true. cbv iota.
    destruct acc; [exfalso; apply Hne; reflexivity|reflexivity].
  - cbn [app]. rewrite tok_name_cons.
    destruct (digit_not_gt _ Hd) as [-> ->].
    rewrite IH.
    + simpl rev. rewrite <- app_assoc. reflexivity.
    + simpl rev. rewrite <- app_assoc. simpl. destruct (rev acc); discriminate.
Qed.

Lemma format_d_chars i :
  Forall (fun c => Bytes.is_digit c = true) (chars (Strconv.format_d i))
  /\ chars (Strconv.format_d i) <> [].
Proof.
  split; [apply digit_chars|].
  unfold Strconv.format_d.
  destruct (StrconvFacts.string_of_uint_head
              (StrconvFacts.to_uint_not_nil (N.of_nat i))) as [c [t [-> _]]].
  discriminate.
Qed.

(** The tokens of one group of the combined expression. *)
Lemma tokenize_group i lp ts rest :
  tokenize lp = Ok ts ->
  tokenize (chars "(?P<" ++ chars (Strconv.format_d i) ++ chars ">^"
              ++ lp ++ ")"%char :: rest)
  = bind (tokenize rest)
         (fun tr => Ok (TOpen (Strconv.format_d i) :: TAssert BeginText
                          :: ts ++ TClose :: tr)).
Proof.
  intros Hlp. destruct (format_d_chars i) as [Hd Hne].
  change (tokenize (chars "(?P<" ++ chars (Strconv.format_d i) ++ chars ">^"
                      ++ lp ++ ")"%char :: rest))
    with (tok_name [] (chars (Strconv.format_d i)
                         ++ ">"%char :: "^"%char :: lp ++ ")"%char :: rest)).
  rewrite (tok_name_digits Hd) by exact Hne.
  cbn [rev app]. unfold chars at 1.
  rewrite string_of_list_ascii_of_string.
  change (tokenize ("^"%char :: lp ++ ")"%char :: rest))
    with (cons_tok (TAssert BeginText) (tokenize (lp ++ ")"%char :: rest))).
  rewrite (tokenize_stable _ rest Hlp). unfold followed_by.
  destruct (tokenize rest) as [tr|e]; reflexivity.
Qed.

Lemma tokenize_combined ls tss :
  Forall2 (fun p ts => tokenize (chars p) = Ok ts) ls tss ->
  forall i, tokenize (combined i ls) = Ok (all_toks i tss).
Proof.
  induction 1 as [|p ts ls tss Hp _ IH]; intros i; [reflexivity|].
  cbn [combined all_toks].
  destruct (Nat.eqb i 0); cbn [app].
  - rewrite (@tokenize_group i (chars p) ts (combined (S i) ls) Hp), IH.
    reflexivity.
  - change (tokenize ("|"%char :: ?x)) with (cons_tok TBar (tokenize x)).
    rewrite (@tokenize_group i (chars p) ts (combined (S i) ls) Hp), IH.
    reflexivity.
Qed.

End ParserFacts.

(** * The expression that [New] compiles *)

Module NewFacts.
Import Syntax Notions MatcherFacts ParserFacts EmbedFacts.

Lemma valid_parts p :
  valid p ->
  exists ts st,
    tokenize (chars p) = Ok ts /\ parsed_alone ts st
    /\ forall rest, pattern_ends p rest = ends (finish (top st)) rest 0.
Proof.
  intros [re Hre]. unfold pattern_ends. rewrite Hre.
  unfold Compile, parse in Hre. fold (chars p) in Hre.
  destruct (tokenize (chars p)) as [ts|] eqn:Ht; [|discriminate].
  cbn [bind] in Hre.
  destruct (run ts init_pstate) as [st|] eqn:Hr; [|discriminate].
  cbn [bind] in Hre. unfold finish_parse in Hre.
  destruct (below st) eqn:Hb; [|discriminate].
  cbn [bind] in Hre. injection Hre as <-.
  exists ts, st. split; [reflexivity|]. split; [split; assumption|].
  intros rest. reflexivity.
Qed.

Lemma group_from_ends st g rest :
  group_from st g -> ends (snd g) rest 0 = ends (finish (top st)) rest 0.
Proof.
  unfold group_from, ends. intros ->.
  rewrite matches_finish_inj, finish_shift. apply ends_shift.
Qed.

Lemma Forall_valid_parts ls :
  Forall valid ls ->
  exists tss sts,
    Forall2 (fun p ts => tokenize (chars p) = Ok ts) ls tss
    /\ Forall2 parsed_alone tss sts
    /\ Forall2 (fun p st => forall rest,
                    pattern_ends p rest = ends (finish (top st)) rest 0) ls sts.
Proof.
  induction 1 as [|p ls Hp _ [tss [sts [H1 [H2 H3]]]]].
  - exists [], []. repeat split; constructor.
  - destruct (valid_parts Hp) as [ts [st [Ht [Hs He]]]].
    exists (ts :: tss), (st :: sts). repeat split; constructor; auto.
Qed.

Lemma Forall2_chain {A B C} (P : A -> B -> Prop) (Q : B -> C -> Prop)
      (R : A -> C -> Prop) :
  (forall a b c, P a b -> Q b c -> R a c) ->
  forall la lb lc, Forall2 P la lb -> Forall2 Q lb lc -> Forall2 R la lc.
Proof.
  intros H la lb lc HP. revert lc.
  induction HP as [|a b la lb Hab _ IH]; intros lc HQ; inversion HQ; subst.
  - constructor.
  - constructor; eauto.
Qed.

(** When every pattern is a valid expression on its own, [New] accepts
    the set and the expression it compiles is grouped: one group per
    pattern, in order, each matching at the start of a text what its
    pattern matches there. *)
Theorem New_grouped lexemes :
  lexemes <> [] ->
  (Z.of_nat (List.length lexemes) <= 2 ^ 31)%Z ->
  Forall valid lexemes ->
  exists l gs,
    New lexemes = Some (inl l)
    /\ grouped (regexps l) gs
    /\ Forall2 (fun p g => forall rest,
                   ends (snd g) rest 0 = pattern_ends p rest) lexemes gs.
Proof.
  intros Hne Hcount Hvalid.
  destruct (Forall_valid_parts Hvalid) as [tss [sts [Htok [Hpar Hends]]]].
  destruct (run_all_toks Hpar between_init) as [B [gs [Hrun [HB Hfrom]]]].
  simpl in Hrun, HB.
  assert (Hlen : List.length gs = List.length lexemes).
  { apply Forall2_length in Hfrom. apply Forall2_length in Hends. congruence. }
  assert (Hgs : gs <> []).
  { intros ->. destruct lexemes; [congruence|discriminate]. }
  unfold New.
  destruct (New_loop 0 lexemes "" true) as [rs sk] eqn:HN.
  assert (Hchars : chars rs = combined 0 lexemes).
  { pose proof (New_loop_string lexemes 0 "" true) as H.
    rewrite HN in H. exact H. }
  assert (Hcompile : Compile rs
                     = Ok (mkRegexp (finish (top B)) (ncap B) ("" :: rev (names B)))).
  { unfold Compile, parse. fold (chars rs).
    rewrite Hchars, (tokenize_combined Htok 0). cbn [bind].
    rewrite Hrun. cbn [bind]. unfold finish_parse.
    destruct HB as [-> _]. reflexivity. }
  rewrite Hcompile.
  eexists. exists gs. split; [reflexivity|]. split.
  - cbn [regexps]. constructor; cbn [prog numSubexp subexpNames].
    + apply finish_between; assumption.
    + exact Hgs.
    + rewrite Hlen. exact Hcount.
    + intros i g Hi. destruct HB as [_ [_ [_ HBg]]].
      destruct (HBg _ _ Hi) as [Hk [Hname Hcaps]].
      split; [exact Hk|]. split.
      * destruct (fst g) as [|k]; [lia|].
        simpl in Hname |- *. rewrite Nat.sub_0_r in Hname. exact Hname.
      * intros j Hj. unfold capsP in Hcaps.
        eapply Forall_forall in Hcaps; eassumption.
  - eapply Forall2_chain; [|exact Hends|exact Hfrom].
    intros p st g Hp Hg rest. simpl in Hp.
    rewrite (group_from_ends rest Hg), Hp. reflexivity.
Qed.

End NewFacts.

(** * The token at a position *)

Module TokenFacts.
Import Syntax Notions MatcherFacts GroupedFacts NewFacts.

Lemma next_done b rest :
  next b = Done rest ->
  (0 <= index b <= len (buffer b))%Z
  /\ rest = skipn (Z.to_nat (index b)) (buffer b)
  /\ Z.of_nat (List.length rest) = (len (buffer b) - index b)%Z.
Proof.
  unfold next.
  destruct ((0 <=? index b) && (index b <=? len (buffer b)))%Z%bool eqn:E;
    [|discriminate].
  apply andb_prop in E. destruct E as [E1 E2]. apply Z.leb_le in E1, E2.
  intros H. injection H as <-. split; [lia|]. split; [reflexivity|].
  rewrite length_skipn. unfold len in *. lia.
Qed.

Lemma substring_next b rest n :
  next b = Done rest ->
  n <= List.length rest ->
  substring b (Z.of_nat n) = Done (string_of_list_ascii (firstn n rest)).
Proof.
  intros Hn Hle. destruct (next_done _ Hn) as [Hi [-> Hlen]].
  unfold substring.
  assert (E : ((0 <=? index b) && (0 <=? Z.of_nat n)
               && (index b + Z.of_nat n <=? len (buffer b)))%Z%bool = true).
  { rewrite !andb_true_iff, !Z.leb_le. lia. }
  rewrite E, Nat2Z.id. reflexivity.
Qed.

(** [getNextToken] on a grouped expression: either the matcher finds
    nothing, and no group matches at the cursor, or the token carries
    the index [j] of the first of the groups that reach furthest from
    the start [st] of the match, which is the cursor when a group
    matches there, and as many bytes as that match has. *)
Theorem getNextToken_grouped l gs b rest :
  grouped (regexps l) gs ->
  next b = Done rest ->
  (FindAllSubmatchIndex1 (regexps l) rest = []
   /\ forall g, In g gs -> ends (snd g) rest 0 = [])
  \/
  (exists st e j gj,
      st <= e <= List.length rest
      /\ nth_error gs j = Some gj
      /\ In e (ends (snd gj) rest st)
      /\ (forall i gi e', nth_error gs i = Some gi ->
                          In e' (ends (snd gi) rest st) ->
                          e' <= e /\ (e' = e -> j <= i))
      /\ (forall g, 0 < st -> In g gs -> ends (snd g) rest 0 = [])
      /\ getNextToken l b
         = Done (mkToken (Z.of_nat j)
                         (string_of_list_ascii (firstn (e - st) rest))
                         (index b),
                 None, advance b (Z.of_nat (e - st)))).
Proof.
  intros G Hnext.
  destruct (find_grouped rest G)
    as [Hnone|[st [e [c [j [gj [Hfind [Hb [Hj [He [Hmax [Hleft [Hc Hbefore]]]]]]]]]]]]].
  - left. exact Hnone.
  - right. exists st, e, j, gj. repeat (split; [assumption|]).
    unfold getNextToken. rewrite Hnext, Hfind.
    unfold NumSubexp. rewrite Nat2Z.id.
    destruct (grouped_group G _ Hj) as [Hk [Hname _]].
    assert (Hjlt : j < List.length gs) by (apply nth_error_Some; congruence).
    pose proof (grouped_count G) as Hcount.
    rewrite (@ScanFacts.getNextToken_loop_finds l b c (Z.of_nat st) (Z.of_nat e)
               (fst gj) st e (Z.of_nat j)); auto.
    + replace (Z.of_nat e - Z.of_nat st)%Z with (Z.of_nat (e - st)) by lia.
      rewrite (@substring_next b rest (e - st) Hnext) by lia. reflexivity.
    + intros k Hk'. apply Hbefore. lia.
    + exists (Strconv.format_d j). split; [exact Hname|].
      apply StrconvFacts.ParseInt_format_d. lia.
Qed.

Lemma Forall2_nth_l {A B} (R : A -> B -> Prop) la lb k a :
  Forall2 R la lb -> nth_error la k = Some a ->
  exists b, nth_error lb k = Some b /\ R a b.
Proof.
  intros H. revert k. induction H as [|x y la lb Hxy _ IH]; intros k Hk.
  - destruct k; discriminate.
  - destruct k as [|k]; simpl in Hk |- *.
    + injection Hk as <-. eauto.
    + apply IH. exact Hk.
Qed.

Lemma Forall2_nth_r {A B} (R : A -> B -> Prop) la lb k b :
  Forall2 R la lb -> nth_error lb k = Some b ->
  exists a, nth_error la k = Some a /\ R a b.
Proof.
  intros H. revert k. induction H as [|x y la lb Hxy _ IH]; intros k Hk.
  - destruct k; discriminate.
  - destruct k as [|k]; simpl in Hk |- *.
    + injection Hk as <-. eauto.
    + apply IH. exact Hk.
Qed.

(** Where some pattern matches at the cursor, the token is that of the
    first pattern among those with the longest match there. *)
Theorem token_where_a_pattern_matches lexemes l b rest i pi Li :
  well_formed lexemes ->
  New lexemes = Some (inl l) ->
  next b = Done rest ->
  nth_error lexemes i = Some pi ->
  In Li (pattern_ends pi rest) ->
  exists m pm L,
    nth_error lexemes m = Some pm
    /\ In L (pattern_ends pm rest)
    /\ (forall k pk Lk, nth_error lexemes k = Some pk ->
                        In Lk (pattern_ends pk rest) ->
                        Lk <= L /\ (Lk = L -> m <= k))
    /\ L <= List.length rest
    /\ getNextToken l b
       = Done (mkToken (Z.of_nat m) (string_of_list_ascii (firstn L rest))
                       (index b),
               None, advance b (Z.of_nat L)).
Proof.
  intros [Hne [Hcount Hvalid]] HNew Hnext Hi HLi.
  destruct (New_grouped Hne Hcount Hvalid) as [l' [gs [HNew' [G F2]]]].
  rewrite HNew in HNew'. injection HNew' as <-.
  destruct (Forall2_nth_l _ F2 Hi) as [gi [Hgi Hei]].
  assert (Hin_gi : In gi gs) by (eapply nth_error_In; eassumption).
  destruct (@getNextToken_grouped l gs b rest G Hnext)
    as [[_ Hnone]|[st [e [j [gj [Hb [Hj [He [Hmax [Hleft Htok]]]]]]]]]].
  - exfalso. rewrite <- Hei, (Hnone gi) in HLi; [destruct HLi|exact Hin_gi].
  - assert (Hst : st = 0).
    { destruct st as [|st']; [reflexivity|]. exfalso.
      rewrite <- Hei, (Hleft gi) in HLi; [destruct HLi|lia|exact Hin_gi]. }
    subst st. rewrite Nat.sub_0_r in Htok.
    destruct (Forall2_nth_r _ F2 Hj) as [pm [Hpm Hem]].
    exists j, pm, e. split; [exact Hpm|]. split; [rewrite <- Hem; exact He|].
    split; [|split; [lia|exact Htok]].
    intros k pk Lk Hk HLk.
    destruct (Forall2_nth_l _ F2 Hk) as [gk [Hgk Hek]].
    apply (Hmax _ _ _ Hgk). rewrite Hek. exact HLk.
Qed.

End TokenFacts.

(* ================================================================== *)
(** * The scanning loop *)

Import Notions.

Lemma Lex_loop_round_trips l input :
  forall fuel b list toks,
    buffer b = input ->
    Forall (round_trips input) list ->
    Lex_loop fuel l b list = Some (Done (toks, None)) ->
    Forall (round_trips input) toks.
Proof.
  induction fuel as [|fuel IH]; intros b list toks Hb Hl H; simpl in H;
    [discriminate|].
  destruct (skipWhitespace b (skipNewline l)) as [b1|] eqn:Hs; [|discriminate].
  destruct (endOfInput b1).
  - inversion H; subst. exact Hl.
  - destruct (getNextToken l b1) as [[[tok [e|]] b2]|] eqn:Hg; try discriminate.
    destruct (LexFacts.getNextToken_done _ _ Hg) as [Hi [Hv Hb2]].
    destruct (LexFacts.skipWhitespace_done _ _ Hs) as [Hb1 _].
    apply (IH b2 (list ++ [tok])); auto.
    + subst b2. simpl. congruence.
    + apply Forall_app. split; [exact Hl|]. constructor; [|constructor].
      unfold round_trips. rewrite Hi. rewrite <- Hb, <- Hb1.
      destruct b1; exact Hv.
Qed.

(** C6. Round trip of offsets: in the token sequence of a successful call
    of [Lex], every token's value is, byte for byte, the slice of the input
    that starts at the token's offset and has the length of the value. *)
Theorem Lex_round_trip_of_offsets :
  forall fuel l input toks,
    Lex fuel l input = Some (Done (toks, None)) ->
    forall t, In t toks -> round_trips (contents input) t.
Proof.
  intros fuel l input toks H t Ht. unfold Lex in H.
  destruct (failure input); [discriminate|].
  eapply Forall_forall; [|exact Ht].
  eapply Lex_loop_round_trips; [| |exact H]; auto.
Qed.

Lemma reaches_in_bounds l input b list :
  reaches l input b list ->
  buffer b = input /\ (0 <= index b <= len input)%Z.
Proof.
  induction 1 as [|b list b1 tok b2 Hr [Hb Hi] Hs He Hg].
  - simpl. unfold len. split; [reflexivity|lia].
  - destruct (LexFacts.skipWhitespace_done _ _ Hs) as [Hb1 [Hi1 Hi1']].
    destruct (LexFacts.getNextToken_done _ _ Hg) as [_ [Hv Hb2]].
    destruct (LexFacts.substring_done _ _ Hv) as [_ [_ [Hle _]]].
    subst b2. simpl. rewrite Hb1, Hb in *. split; [reflexivity|lia].
Qed.

(** With every selected match of positive length, the loop of [Lex] ends
    before it has used as many iterations as there are bytes left, plus
    one. *)
Lemma Lex_loop_terminates l input :
  (forall b list b1 tok b2,
      reaches l input b list ->
      skipWhitespace b (skipNewline l) = Done b1 ->
      endOfInput b1 = false ->
      getNextToken l b1 = Done (tok, None, b2) ->
      0 < String.length (Value tok)) ->
  forall fuel b list,
    reaches l input b list ->
    (len input - index b < Z.of_nat fuel)%Z ->
    exists res, Lex_loop fuel l b list = Some res.
Proof.
  intros Hpos. induction fuel as [|fuel IH]; intros b list Hr Hfuel.
  - apply reaches_in_bounds in Hr. lia.
  - simpl. destruct (skipWhitespace b (skipNewline l)) as [b1|] eqn:Hs; [|eauto].
    destruct (endOfInput b1) eqn:He; [eauto|].
    destruct (getNextToken l b1) as [[[tok [e|]] b2]|] eqn:Hg; eauto.
    apply IH.
    + eapply reaches_step; eassumption.
    + specialize (Hpos _ _ _ _ _ Hr Hs He Hg).
      destruct (LexFacts.skipWhitespace_done _ _ Hs) as [_ [Hi1 _]].
      destruct (LexFacts.getNextToken_done _ _ Hg) as [_ [_ Hb2]].
      subst b2. simpl. lia.
Qed.

(** C8. Termination: when every match selected during the scan has
    positive length, [Lex] returns, within as many iterations as the input
    has bytes plus one, and on each iteration the cursor strictly increases
    and stays within the input. *)
Theorem Lex_terminates :
  forall l input,
    (forall b list b1 tok b2,
        reaches l (contents input) b list ->
        skipWhitespace b (skipNewline l) = Done b1 ->
        endOfInput b1 = false ->
        getNextToken l b1 = Done (tok, None, b2) ->
        0 < String.length (Value tok)) ->
    (exists res, Lex (S (List.length (contents input))) l input = Some res)
    /\ (forall b list b1 tok b2,
           reaches l (contents input) b list ->
           skipWhitespace b (skipNewline l) = Done b1 ->
           endOfInput b1 = false ->
           getNextToken l b1 = Done (tok, None, b2) ->
           (index b < index b2 <= len (contents input))%Z).
Proof.
  intros l input Hpos. split.
  - unfold Lex. destruct (failure input); [eauto|].
    eapply Lex_loop_terminates; [exact Hpos|constructor|].
    simpl. unfold len. lia.
  - intros b list b1 tok b2 Hr Hs He Hg.
    specialize (Hpos _ _ _ _ _ Hr Hs He Hg).
    assert (Hr2 : reaches l (contents input) b2 (list ++ [tok]))
      by (eapply reaches_step; eassumption).
    apply reaches_in_bounds in Hr2.
    destruct (LexFacts.skipWhitespace_done _ _ Hs) as [_ [Hi1 _]].
    destruct (LexFacts.getNextToken_done _ _ Hg) as [_ [_ Hb2]].
    subst b2. simpl in *. lia.
Qed.

(* ================================================================== *)
(** * Which pattern wins *)

Import TokenFacts.

Lemma next_at input pos :
  (0 <= pos <= len input)%Z ->
  next (mkBuffer input pos) = Done (skipn (Z.to_nat pos) input).
Proof.
  intros H. unfold next. simpl.
  assert (E : ((0 <=? pos) && (pos <=? len input))%Z%bool = true)
    by (rewrite andb_true_iff, !Z.leb_le; lia).
  rewrite E. reflexivity.
Qed.

Lemma length_prefix_string n (rest : list ascii) :
  n <= List.length rest ->
  String.length (string_of_list_ascii (firstn n rest)) = n.
Proof.
  intros H. rewrite LexFacts.string_length_of_list, length_firstn. lia.
Qed.




(* ================================================================== *)
(** * Newlines *)

Lemma New_loop_skipNewline ls :
  forall i acc sk,
    snd (New_loop i ls acc sk)
    = (sk && negb (existsb (fun p => String.eqb p newline_string) ls))%bool.
Proof.
  induction ls as [|p ls IH]; intros i acc sk; cbn [New_loop existsb].
  - simpl. rewrite andb_true_r. reflexivity.
  - rewrite IH. destruct (String.eqb p newline_string), sk; reflexivity.
Qed.

Lemma New_skipNewline lexemes l :
  New lexemes = Some (inl l) ->
  (skipNewline l = false <-> In newline_string lexemes).
Proof.
  unfold New. intros H.
  pose proof (New_loop_skipNewline lexemes 0 "" true) as Hsk.
  destruct (New_loop 0 lexemes "" true) as [rs sk]. simpl in Hsk.
  destruct (Compile rs) as [re|[]]; try discriminate H.
  injection H as <-. cbn [skipNewline].
  rewrite Hsk, negb_false_iff, existsb_exists. split.
  - intros [p [Hp E]]. apply String.eqb_eq in E. subst p. exact Hp.
  - intros Hin. exists newline_string. split; [exact Hin|apply String.eqb_refl].
Qed.

Lemma Lex_loop_token_starts l input :
  forall fuel b list toks,
    buffer b = input ->
    Forall (starts_unskipped l input) list ->
    Lex_loop fuel l b list = Some (Done (toks, None)) ->
    Forall (starts_unskipped l input) toks.
Proof.
  induction fuel as [|fuel IH]; intros b list toks Hb Hl H;
    simpl in H; [discriminate|].
  destruct (skipWhitespace b (skipNewline l)) as [b1|] eqn:Hs; [|discriminate].
  destruct (LexFacts.skipWhitespace_done _ _ Hs) as [Hb1 [Hi1 _]].
  destruct (endOfInput b1) eqn:He.
  - injection H as <-. exact Hl.
  - destruct (getNextToken l b1) as [[[tok [e|]] b2]|] eqn:Hg; try discriminate.
    destruct (LexFacts.getNextToken_done _ _ Hg) as [Hidx [_ Hb2]].
    apply (IH b2 (list ++ [tok])); auto.
    + subst b2. simpl. congruence.
    + apply Forall_app. split; [exact Hl|]. constructor; [|constructor].
      unfold starts_unskipped. rewrite Hidx.
      unfold endOfInput in He. apply Z.leb_gt in He. unfold len in He.
      destruct (nth_error input (Z.to_nat (index b1))) as [c|] eqn:Hc.
      * exists c. split; [reflexivity|].
        rewrite <- Hb in Hc. eapply LexFacts.skipWhitespace_stops; eassumption.
      * apply nth_error_None in Hc. rewrite <- Hb, <- Hb1 in Hc. lia.
Qed.

Lemma skipWhitespace_keeps_newlines b b1 :
  skipWhitespace b false = Done b1 ->
  forall i, (index b <= i < index b1)%Z ->
            nth_error (buffer b) (Z.to_nat i) <> Some Bytes.newline.
Proof.
  unfold skipWhitespace. destruct (index b <? 0)%Z eqn:E; [discriminate|].
  apply Z.ltb_ge in E. intros H. injection H as <-. cbn [index].
  destruct (LexFacts.skipWhitespace_loop_spec
              false (skipn (Z.to_nat (index b)) (buffer b)) (index b))
    as [n [Hn [_ [Hskip _]]]].
  rewrite Hn. intros i Hi Hnl.
  assert (Hc : nth_error (skipn (Z.to_nat (index b)) (buffer b))
                         (Z.to_nat i - Z.to_nat (index b)) = Some Bytes.newline).
  { rewrite nth_error_skipn. rewrite <- Hnl. f_equal. lia. }
  apply Hskip in Hc; [|lia]. discriminate Hc.
Qed.

Lemma first_index (x : string) ls :
  In x ls ->
  exists k, nth_error ls k = Some x
            /\ forall k', k' < k -> nth_error ls k' <> Some x.
Proof.
  induction ls as [|y ls IH]; intros Hin; [destruct Hin|].
  destruct (string_dec y x) as [->|Hne].
  - exists 0. split; [reflexivity|]. intros k' Hk'. lia.
  - destruct Hin as [Heq|Hin]; [congruence|].
    destruct (IH Hin) as [k [Hk Hmin]].
    exists (S k). split; [exact Hk|].
    intros [|k'] Hk'; simpl; [congruence|]. apply Hmin. lia.
Qed.

Lemma pattern_ends_newline r :
  pattern_ends newline_string (Bytes.newline :: r) = [1].
Proof. reflexivity. Qed.

Lemma skipn_nth {A} (l : list A) n x :
  nth_error l n = Some x -> exists r, skipn n l = x :: r.
Proof.
  revert l. induction n as [|n IH]; intros [|y l] H; try discriminate.
  - simpl in H. injection H as <-. exists l. reflexivity.
  - simpl. apply IH. exact H.
Qed.

(** Where the set has a ["\n"] entry and no other entry matches at a
    newline, the token there is the newline alone, with the index of the
    first such entry. *)
Lemma token_at_newline lexemes l input pos :
  well_formed lexemes ->
  New lexemes = Some (inl l) ->
  In newline_string lexemes ->
  (0 <= pos)%Z ->
  nth_error input (Z.to_nat pos) = Some Bytes.newline ->
  (forall p, In p lexemes -> p <> newline_string ->
             pattern_ends p (skipn (Z.to_nat pos) input) = []) ->
  exists k,
    nth_error lexemes k = Some newline_string
    /\ (forall k', k' < k -> nth_error lexemes k' <> Some newline_string)
    /\ getNextToken l (mkBuffer input pos)
       = Done (mkToken (Z.of_nat k) newline_string pos, None,
               mkBuffer input (pos + 1)).
Proof.
  intros Hwf HNew Hin Hpos Hnl Hothers.
  destruct (first_index _ _ Hin) as [k [Hk Hmin]].
  destruct (skipn_nth _ _ Hnl) as [r Hr].
  assert (Hlen : (0 <= pos <= len input)%Z).
  { assert (Z.to_nat pos < List.length input)
      by (apply nth_error_Some; congruence).
    unfold len. lia. }
  assert (H1 : In 1 (pattern_ends newline_string (skipn (Z.to_nat pos) input)))
    by (rewrite Hr, pattern_ends_newline; left; reflexivity).
  destruct (@token_where_a_pattern_matches lexemes l _ _ k newline_string 1
              Hwf HNew (next_at _ Hlen) Hk H1)
    as [m [pm [L [Hm [HL [Hmax [_ Htok]]]]]]].
  assert (Hpm : pm = newline_string).
  { destruct (string_dec pm newline_string) as [E|E]; [exact E|].
    rewrite (Hothers pm) in HL; [destruct HL| |exact E].
    eapply nth_error_In; eassumption. }
  subst pm.
  assert (HL1 : L = 1).
  { rewrite Hr, pattern_ends_newline in HL. destruct HL as [<-|[]]. reflexivity. }
  subst L.
  assert (Hmk : m = k).
  { destruct (Hmax _ _ _ Hk H1) as [_ Hle]. specialize (Hle eq_refl).
    destruct (Nat.eq_dec m k) as [E|E]; [exact E|].
    exfalso. apply (Hmin m); [lia|exact Hm]. }
  subst m. exists k. split; [exact Hk|]. split; [exact Hmin|].
  rewrite Htok, Hr. reflexivity.
Qed.


(* ================================================================== *)
(** * The examples of the package's tests, run through the model *)

(** Each conjunct is closed and holds by evaluation. *)
Ltac by_evaluation :=
  cbv zeta;
  repeat match goal with |- _ /\ _ => split end;
  vm_compute; reflexivity.

Example TestLexerGood_identifiers_last :
  lex_string 20 words_numbers_identifiers
             "how 2 fail 435 times with 99 ice creams ten40 dog"
  = Some (Done ([mkToken 0 "how" 0; mkToken 1 "2" 4; mkToken 0 "fail" 6;
                 mkToken 1 "435" 11; mkToken 0 "times" 15; mkToken 0 "with" 21;
                 mkToken 1 "99" 26; mkToken 0 "ice" 29; mkToken 0 "creams" 33;
                 mkToken 2 "ten40" 40; mkToken 0 "dog" 46], None)).
Proof. vm_compute. reflexivity. Qed.

Example TestLexerGood_identifiers_first :
  lex_string 20 ["[[:alpha:]][[:alnum:]]+"; "[[:alpha:]]+"; "[[:digit:]]+"]
             "how 2 fail 435 times with 99 ice creams ten40 dog"
  = Some (Done ([mkToken 0 "how" 0; mkToken 2 "2" 4; mkToken 0 "fail" 6;
                 mkToken 2 "435" 11; mkToken 0 "times" 15; mkToken 0 "with" 21;
                 mkToken 2 "99" 26; mkToken 0 "ice" 29; mkToken 0 "creams" 33;
                 mkToken 0 "ten40" 40; mkToken 0 "dog" 46], None)).
Proof. vm_compute. reflexivity. Qed.

Example TestLexerGood_equals :
  lex_string 20 ["[[:digit:]]+"; "="; "=="; "\("; "\)"]
             "(32 == 47) = (512 == 681)"
  = Some (Done ([mkToken 3 "(" 0; mkToken 0 "32" 1; mkToken 2 "==" 4;
                 mkToken 0 "47" 7; mkToken 4 ")" 9; mkToken 1 "=" 11;
                 mkToken 3 "(" 13; mkToken 0 "512" 14; mkToken 2 "==" 18;
                 mkToken 0 "681" 21; mkToken 4 ")" 24], None)).
Proof. vm_compute. reflexivity. Qed.

Example TestLexerGood_newline_skipped :
  lex_string 20 ["to"; "be"; "or"; "not"]
             ("to be" ++ newline_string ++ "or not to be")%string
  = Some (Done ([mkToken 0 "to" 0; mkToken 1 "be" 3; mkToken 2 "or" 6;
                 mkToken 3 "not" 9; mkToken 0 "to" 13; mkToken 1 "be" 16], None)).
Proof. vm_compute. reflexivity. Qed.

Example TestLexerGood_newline_token :
  lex_string 20 ["to"; "be"; "or"; "not"; newline_string]
             ("to be" ++ newline_string ++ "or not to be")%string
  = Some (Done ([mkToken 0 "to" 0; mkToken 1 "be" 3;
                 mkToken 4 newline_string 5; mkToken 2 "or" 6;
                 mkToken 3 "not" 9; mkToken 0 "to" 13; mkToken 1 "be" 16], None)).
Proof. vm_compute. reflexivity. Qed.

Example TestLexerGood_parentheses :
  lex_string 20 ["(fr(og|ag)|toad)+"; "(bit)+"]
             "frogbittoadbitbittoadfrogbitfragfrogbitbitbit"
  = Some (Done ([mkToken 0 "frog" 0; mkToken 1 "bit" 4; mkToken 0 "toad" 7;
                 mkToken 1 "bitbit" 11; mkToken 0 "toadfrog" 17;
                 mkToken 1 "bit" 25; mkToken 0 "fragfrog" 28;
                 mkToken 1 "bitbitbit" 36], None)).
Proof. vm_compute. reflexivity. Qed.

Example TestLexerGood_grammar :
  lex_string 20 ["[a-df-zA-Z][[:alnum:]']*"; "`[^`]+`"; "\|"; ":";
                 newline_string; "\be\b"]
             ("S : A' | `terminal` | e" ++ newline_string
              ++ "A' : `another`" ++ newline_string)%string
  = Some (Done ([mkToken 0 "S" 0; mkToken 3 ":" 2; mkToken 0 "A'" 4;
                 mkToken 2 "|" 7; mkToken 1 "`terminal`" 9; mkToken 2 "|" 20;
                 mkToken 5 "e" 22; mkToken 4 newline_string 23;
                 mkToken 0 "A'" 24; mkToken 3 ":" 27;
                 mkToken 1 "`another`" 29; mkToken 4 newline_string 38], None)).
Proof. vm_compute. reflexivity. Qed.

(** The second and third cases of the test; the first one, a bracket
    expression left open after [[:digit], is outside the syntax read
    here. *)
Example TestLexerBadRegexp :
  New [")"] = Some (inr (RegexError Syntax.UnexpectedParen))
  /\ New ["("] = Some (inr (RegexError Syntax.MissingParen)).
Proof. by_evaluation. Qed.

Example TestLexerNoMatch :
  let patterns := ["\b[[:alpha:]]+\b"; "\b[[:digit:]]+\b"] in
  lex_string 20 patterns "?" = Some (Done ([], Some (MatchError 0)))
  /\ lex_string 20 patterns "a!" = Some (Done ([], Some (MatchError 1)))
  /\ lex_string 20 patterns "abab%abab" = Some (Done ([], Some (MatchError 4)))
  /\ lex_string 20 patterns "abc 123 abc123" = Some (Done ([], Some (MatchError 8))).
Proof. by_evaluation. Qed.

Example Example_words_numbers_punctuation :
  lex_string 20 ["[[:alpha:]]+"; "[[:digit:]]+"; "[\.,]"]
             "20 cats, catch 100 rats."
  = Some (Done ([mkToken 1 "20" 0; mkToken 0 "cats" 3; mkToken 2 "," 7;
                 mkToken 0 "catch" 9; mkToken 1 "100" 15; mkToken 0 "rats" 19;
                 mkToken 2 "." 23], None)).
Proof. vm_compute. reflexivity. Qed.

(* ================================================================== *)
(** * Where the code departs from the claims *)

(** C3. A pattern with an alternation at its top level is not anchored:
    [New] builds [(?P<0>^a|b)], in which [^] binds to [a] alone.  On
    ["xb"] the pattern [a|b] has no match at position 0, yet the combined
    matcher reports a match of group ["0"], found at offset 1, and
    [getNextToken] turns it into a token for the byte at the cursor. *)
Theorem alternation_escapes_anchor :
  New ["a|b"] = Some (inl (lexer_of ["a|b"]))
  /\ pattern_ends "a|b" (chars "xb") = []
  /\ FindAllSubmatchIndex1 (regexps (lexer_of ["a|b"])) (chars "xb")
     = [[1; 2; 1; 2]%Z]
  /\ getNextToken (lexer_of ["a|b"]) (mkBuffer (chars "xb") 0)
     = Done (mkToken 0 "x" 0, None, mkBuffer (chars "xb") 1).
Proof. by_evaluation. Qed.

(** C4. On the same input, position 0 holds a byte that is not white
    space and at which no pattern matches, and [Lex] does not fail with a
    [MatchError] at 0: it returns two tokens and no error. *)
Theorem unmatched_position_not_reported :
  New ["a|b"] = Some (inl (lexer_of ["a|b"]))
  /\ pattern_ends "a|b" (chars "xb") = []
  /\ Lex 3 (lexer_of ["a|b"]) (NewReader "xb")
     = Some (Done ([mkToken 0 "x" 0; mkToken 0 "b" 1], None)).
Proof. by_evaluation. Qed.

(** C9. The final branch of [getNextToken] is reached: with the empty
    pattern set the combined expression is empty, it matches the empty
    string, and no group is there to attribute the match to; with the
    pattern [a)|(b] the match of [b] belongs to a group without a name. *)
Theorem panic_branch_reached :
  New [] = Some (inl (lexer_of []))
  /\ Lex 1 (lexer_of []) (NewReader "a") = Some (Panic FailedToFindMatchIndex)
  /\ New ["a)|(b"] = Some (inl (lexer_of ["a)|(b"]))
  /\ Lex 1 (lexer_of ["a)|(b"]) (NewReader "b")
     = Some (Panic FailedToFindMatchIndex).
Proof. by_evaluation. Qed.

(** C10. [Less] is not the lexicographic order on (value, index, offset):
    it says that the token ["b"] of pattern 0 is less than the token ["a"]
    of pattern 1, and also the converse. *)
Theorem Less_is_not_lexicographic :
  TokenM.Less (mkToken 0 "b" 0) (mkToken 1 "a" 0) = true
  /\ lexicographic_less (mkToken 0 "b" 0) (mkToken 1 "a" 0) = false
  /\ TokenM.Less (mkToken 1 "a" 0) (mkToken 0 "b" 0) = true.
Proof. by_evaluation. Qed.

(* ================================================================== *)
(** * Counterexamples to the claims as stated *)





(* ================================================================== *)
(** * The theorems at concrete inputs *)

Ltac valid_patterns :=
  repeat constructor; eexists; vm_compute; reflexivity.

Ltac well_formed_set :=
  split; [discriminate|split; [simpl; lia|valid_patterns]].





Lemma Lex_round_trip_of_offsets_witness :
  round_trips (chars "ab 12") (mkToken 1 "12" 3).
Proof.
  apply (@Lex_round_trip_of_offsets 5
           (lexer_of ["[[:alpha:]]+"; "[[:digit:]]+"]) (NewReader "ab 12")
           [mkToken 0 "ab" 0; mkToken 1 "12" 3]).
  - vm_compute. reflexivity.
  - simpl. right. left. reflexivity.
Defined.

(** On the input ["a"], the lexer of the single pattern [a] only selects
    matches of positive length. *)
Lemma single_letter_progress :
  forall b list b1 tok b2,
    reaches (lexer_of ["a"]) (chars "a") b list ->
    skipWhitespace b (skipNewline (lexer_of ["a"])) = Done b1 ->
    endOfInput b1 = false ->
    getNextToken (lexer_of ["a"]) b1 = Done (tok, None, b2) ->
    0 < String.length (Value tok).
Proof.
  intros b list b1 tok b2 Hr Hs He Hg.
  destruct (reaches_in_bounds Hr) as [Hb Hi].
  destruct (LexFacts.skipWhitespace_done _ _ Hs) as [Hb1 [Hi1 Hi1']].
  unfold endOfInput in He. apply Z.leb_gt in He.
  rewrite Hb in Hb1. rewrite Hb1 in He. unfold len in He. simpl in He.
  destruct b1 as [buf idx]. cbn [buffer index] in *. subst buf.
  assert (idx = 0%Z) by lia. subst idx.
  vm_compute in Hg. injection Hg as <- _. simpl. lia.
Qed.

Lemma Lex_terminates_witness :
  exists res, Lex 2 (lexer_of ["a"]) (NewReader "a") = Some res.
Proof.
  exact (proj1 (@Lex_terminates (lexer_of ["a"]) (NewReader "a")
                                single_letter_progress)).
Defined.

(* ================================================================== *)
(** * Further properties of the package *)

Module RunFacts.

(** ** The loop of [Lex] as a relation *)

Lemma Lex_loop_runs l :
  forall fuel b list res,
    Lex_loop fuel l b list = Some res -> runs l b list res.
Proof.
  induction fuel as [|fuel IH]; intros b list res H; cbn [Lex_loop] in H;
    [discriminate|].
  destruct (skipWhitespace b (skipNewline l)) as [b1|p] eqn:Hs.
  - destruct (endOfInput b1) eqn:He.
    + injection H as <-. eapply runs_end; eassumption.
    + destruct (getNextToken l b1) as [[[tok [e|]] b2]|p] eqn:Hg.
      * injection H as <-. eapply runs_error; eassumption.
      * eapply runs_token; eauto.
      * injection H as <-. eapply runs_token_panic; eassumption.
  - injection H as <-. apply runs_skip_panic. exact Hs.
Qed.

Lemma Lex_runs fuel l input res :
  failure input = None ->
  Lex fuel l input = Some res ->
  runs l (mkBuffer (contents input) 0) [] res.
Proof.
  unfold Lex. intros ->. apply Lex_loop_runs.
Qed.

Lemma Lex_loop_from_reached l input b list :
  reaches l input b list ->
  exists k, forall fuel,
    Lex_loop (k + fuel) l (mkBuffer input 0) [] = Lex_loop fuel l b list.
Proof.
  induction 1 as [|b list b1 token b2 Hr [k IH] Hs He Hg].
  - exists 0. reflexivity.
  - exists (S k). intros fuel.
    replace (S k + fuel) with (k + S fuel) by lia.
    rewrite IH. cbn [Lex_loop]. rewrite Hs, He, Hg. reflexivity.
Qed.

(** A run from the start goes through every state the scan reaches. *)
Lemma runs_from_reached l input b list :
  reaches l input b list ->
  forall res, runs l (mkBuffer input 0) [] res -> runs l b list res.
Proof.
  induction 1 as [|b list b1 tok b2 Hr IH Hs He Hg]; intros res H; [exact H|].
  specialize (IH res H).
  inversion IH as [? ? ? Hs'|? ? ? Hs' He'|? ? ? ? Hs' He' Hg'
                   |? ? ? ? ? ? Hs' He' Hg'|? ? ? ? ? ? Hs' He' Hg' Hr'];
    subst; rewrite Hs in Hs'; try discriminate Hs';
    injection Hs' as <-; congruence.
Qed.

(** ** [skipWhitespace] *)

Lemma skipWhitespace_skipped b sn b1 :
  skipWhitespace b sn = Done b1 ->
  forall i c, (index b <= Z.of_nat i < index b1)%Z ->
              nth_error (buffer b) i = Some c -> skippable sn c = true.
Proof.
  unfold skipWhitespace. destruct (index b <? 0)%Z eqn:E; [discriminate|].
  apply Z.ltb_ge in E. intros H. injection H as <-. cbn [index].
  destruct (LexFacts.skipWhitespace_loop_spec
              sn (skipn (Z.to_nat (index b)) (buffer b)) (index b))
    as [n [Hn [_ [Hskip _]]]].
  rewrite Hn. intros i c Hi Hc.
  apply (Hskip (i - Z.to_nat (index b)) c); [lia|].
  rewrite nth_error_skipn. rewrite <- Hc. f_equal. lia.
Qed.

Lemma skippable_mono sn sn' c :
  (sn = true -> sn' = true) -> skippable sn c = true -> skippable sn' c = true.
Proof.
  unfold skippable. intros Hm.
  destruct sn, sn', (Bytes.IsSpace c), (Ascii.eqb c Bytes.newline);
    simpl; auto; intros; try discriminate; specialize (Hm eq_refl); discriminate.
Qed.

Lemma stops_iff_not_skippable sn r :
  ((negb sn && Ascii.eqb r Bytes.newline) || negb (Bytes.IsSpace r))%bool
  = negb (skippable sn r).
Proof.
  unfold skippable.
  destruct sn, (Bytes.IsSpace r), (Ascii.eqb r Bytes.newline); reflexivity.
Qed.

(** Skipping with [sn'] what is left after skipping with [sn] is skipping
    with [sn'], when [sn'] skips what [sn] does. *)
Lemma skipWhitespace_loop_resumes sn sn' :
  (sn = true -> sn' = true) ->
  forall rest idx,
    exists n,
      skipWhitespace_loop rest idx sn = (idx + Z.of_nat n)%Z
      /\ n <= List.length rest
      /\ skipWhitespace_loop (skipn n rest) (idx + Z.of_nat n) sn'
         = skipWhitespace_loop rest idx sn'.
Proof.
  intros Hm. induction rest as [|r rest IH]; intros idx.
  - exists 0. simpl. split; [lia|]. split; lia.
  - cbn [skipWhitespace_loop]. rewrite !stops_iff_not_skippable.
    destruct (skippable sn r) eqn:E; cbn [negb].
    + rewrite (@skippable_mono sn sn' r Hm E). cbn [negb].
      destruct (IH (idx + 1)%Z) as [n [Hn [Hle Hres]]].
      exists (S n). split; [rewrite Hn; lia|]. split; [simpl; lia|].
      cbn [skipn]. rewrite <- Hres. f_equal. lia.
    + exists 0. split; [lia|]. split; [lia|].
      cbn [skipn]. replace (idx + Z.of_nat 0)%Z with idx by lia.
      cbn [skipWhitespace_loop]. rewrite stops_iff_not_skippable. reflexivity.
Qed.

Lemma skipWhitespace_resumes b sn sn' b1 :
  (sn = true -> sn' = true) ->
  skipWhitespace b sn = Done b1 ->
  skipWhitespace b1 sn' = skipWhitespace b sn'.
Proof.
  intros Hm. unfold skipWhitespace.
  destruct (index b <? 0)%Z eqn:E; [discriminate|].
  apply Z.ltb_ge in E. intros H. injection H as <-. cbn [index buffer].
  destruct (@skipWhitespace_loop_resumes sn sn' Hm
              (skipn (Z.to_nat (index b)) (buffer b)) (index b))
    as [n [Hn [Hle Hres]]].
  rewrite Hn.
  assert (E' : (index b + Z.of_nat n <? 0)%Z = false) by (apply Z.ltb_ge; lia).
  rewrite E'. f_equal. f_equal.
  rewrite <- Hres. f_equal.
  rewrite skipn_skipn. f_equal. lia.
Qed.

Lemma skipWhitespace_again b sn b1 :
  skipWhitespace b sn = Done b1 -> skipWhitespace b1 sn = Done b1.
Proof.
  intros H. rewrite (@skipWhitespace_resumes b sn sn b1 (fun e => e) H). exact H.
Qed.

(** ** What a run returns *)

Lemma runs_laid_out l b list res :
  runs l b list res ->
  forall toks,
    res = Done (toks, None) ->
    exists rest,
      toks = list ++ rest
      /\ laid_out (skipNewline l) (buffer b) (index b) rest.
Proof.
  induction 1 as [b list p Hs|b list b1 Hs He|b list b1 p Hs He Hg
                  |b list b1 tok err b2 Hs He Hg
                  |b list b1 tok b2 res Hs He Hg Hr IH];
    intros toks E; try discriminate E.
  - injection E as <-. exists []. split; [rewrite app_nil_r; reflexivity|].
    cbn [laid_out]. intros i c Hi Hc.
    destruct (@LexFacts.skipWhitespace_done b _ b1 Hs) as [Hb _].
    apply (@skipWhitespace_skipped b _ b1 Hs i); [|exact Hc].
    unfold endOfInput in He. apply Z.leb_le in He. rewrite Hb in He.
    assert (i < List.length (buffer b)) by (apply nth_error_Some; congruence).
    unfold len in He. lia.
  - destruct (IH toks E) as [rest [Ht Hl]].
    exists (tok :: rest). split; [rewrite Ht, <- app_assoc; reflexivity|].
    destruct (@LexFacts.skipWhitespace_done b _ b1 Hs) as [Hb [[H0 Hle] _]].
    destruct (@LexFacts.getNextToken_done l b1 tok b2 Hg) as [Hi [Hv Hb2]].
    cbn [laid_out]. rewrite Hi. split; [exact Hle|]. split.
    + intros i c Hic Hc. apply (@skipWhitespace_skipped b _ b1 Hs i c); assumption.
    + split.
      * rewrite <- Hb. destruct b1; exact Hv.
      * subst b2. unfold advance in Hl. cbn [buffer index] in Hl.
        rewrite Hb in Hl. exact Hl.
Qed.

Lemma laid_out_order sn input :
  forall l1 pos t1 t2 l2,
    laid_out sn input pos (l1 ++ t1 :: t2 :: l2) ->
    (Index t1 + Z.of_nat (String.length (Value t1)) <= Index t2)%Z.
Proof.
  induction l1 as [|a l1 IH]; intros pos t1 t2 l2 H; cbn [app laid_out] in H.
  - destruct H as [_ [_ [_ [H _]]]]. exact H.
  - destruct H as [_ [_ [_ H]]]. eapply IH. exact H.
Qed.

Lemma laid_out_covers sn input :
  forall toks pos i c,
    laid_out sn input pos toks ->
    (pos <= Z.of_nat i)%Z ->
    nth_error input i = Some c ->
    skippable sn c = false ->
    exists t, In t toks
              /\ (Index t <= Z.of_nat i
                  < Index t + Z.of_nat (String.length (Value t)))%Z.
Proof.
  induction toks as [|t ts IH]; intros pos i c H Hi Hc Hs; cbn [laid_out] in H.
  - rewrite (H i c Hi Hc) in Hs. discriminate.
  - destruct H as [Hp [Hgap [_ Hrest]]].
    destruct (Z_lt_le_dec (Z.of_nat i) (Index t)) as [Hlt|Hge].
    + rewrite (Hgap i c) in Hs; [discriminate|lia|exact Hc].
    + destruct (Z_lt_le_dec (Z.of_nat i)
                  (Index t + Z.of_nat (String.length (Value t)))) as [Hin|Hout].
      * exists t. split; [left; reflexivity|lia].
      * destruct (IH _ i c Hrest Hout Hc Hs) as [t' [Ht' Hr]].
        exists t'. split; [right; exact Ht'|exact Hr].
Qed.

(** The state at which a run that ends with an error was. *)
Lemma runs_error_at l b list res :
  runs l b list res ->
  forall toks e,
    res = Done (toks, Some e) ->
    toks = []
    /\ exists b1 tok b2,
         buffer b1 = buffer b
         /\ (0 <= index b <= index b1)%Z
         /\ endOfInput b1 = false
         /\ (forall c, nth_error (buffer b) (Z.to_nat (index b1)) = Some c ->
                       skippable (skipNewline l) c = false)
         /\ getNextToken l b1 = Done (tok, Some e, b2).
Proof.
  induction 1 as [b list p Hs|b list b1 Hs He|b list b1 p Hs He Hg
                  |b list b1 tok err b2 Hs He Hg
                  |b list b1 tok b2 res Hs He Hg Hr IH];
    intros toks e E; try discriminate E.
  - injection E as <- <-. split; [reflexivity|].
    destruct (@LexFacts.skipWhitespace_done b _ b1 Hs) as [Hb [Hi _]].
    exists b1, tok, b2. split; [exact Hb|]. split; [exact Hi|].
    split; [exact He|]. split; [|exact Hg].
    intros c Hc. exact (@LexFacts.skipWhitespace_stops b _ b1 c Hs Hc).
  - destruct (IH toks e E) as [Ht [b1' [tok' [b2' [Hb' [Hi' [He' [Hst' Hg']]]]]]]].
    split; [exact Ht|].
    destruct (@LexFacts.skipWhitespace_done b _ b1 Hs) as [Hb [[H0 Hle] _]].
    destruct (@LexFacts.getNextToken_done l b1 tok b2 Hg) as [_ [Hv Hb2]].
    destruct (@LexFacts.substring_done _ _ _ Hv) as [_ [Hn _]].
    subst b2. unfold advance in *. cbn [buffer index] in *.
    exists b1', tok', b2'. rewrite Hb in *.
    split; [exact Hb'|]. split; [lia|]. split; [exact He'|].
    split; [exact Hst'|exact Hg'].
Qed.

(** The state at which a run that panics was. *)
Lemma runs_panic_at l b list res :
  runs l b list res ->
  forall p,
    res = Panic p ->
    (0 <= index b)%Z ->
    exists b1,
      buffer b1 = buffer b /\ (0 <= index b1)%Z /\ endOfInput b1 = false
      /\ getNextToken l b1 = Panic p.
Proof.
  induction 1 as [b list p Hs|b list b1 Hs He|b list b1 p Hs He Hg
                  |b list b1 tok err b2 Hs He Hg
                  |b list b1 tok b2 res Hs He Hg Hr IH];
    intros q E H0; try discriminate E.
  - exfalso. unfold skipWhitespace in Hs.
    destruct (index b <? 0)%Z eqn:E0; [apply Z.ltb_lt in E0; lia|discriminate].
  - injection E as <-.
    destruct (@LexFacts.skipWhitespace_done b _ b1 Hs) as [Hb [[_ Hle] _]].
    exists b1. split; [exact Hb|]. split; [lia|]. split; [exact He|exact Hg].
  - destruct (@LexFacts.skipWhitespace_done b _ b1 Hs) as [Hb [[_ Hle] _]].
    destruct (@LexFacts.getNextToken_done l b1 tok b2 Hg) as [_ [Hv Hb2]].
    destruct (@LexFacts.substring_done _ _ _ Hv) as [_ [Hn _]].
    destruct (IH q E) as [b1' [Hb' [Hi' [He' Hg']]]].
    { subst b2. unfold advance. cbn [index]. lia. }
    exists b1'. split; [|split; [exact Hi'|split; [exact He'|exact Hg']]].
    rewrite Hb'. subst b2. unfold advance. cbn [buffer]. exact Hb.
Qed.

(** Where the tokens of a run come from. *)
Lemma runs_tokens l b list res :
  runs l b list res ->
  forall toks,
    res = Done (toks, None) ->
    exists rest,
      toks = list ++ rest
      /\ Forall (fun t => exists b1 b2,
                     buffer b1 = buffer b /\ endOfInput b1 = false
                     /\ getNextToken l b1 = Done (t, None, b2)) rest.
Proof.
  induction 1 as [b list p Hs|b list b1 Hs He|b list b1 p Hs He Hg
                  |b list b1 tok err b2 Hs He Hg
                  |b list b1 tok b2 res Hs He Hg Hr IH];
    intros toks E; try discriminate E.
  - injection E as <-. exists []. split; [rewrite app_nil_r; reflexivity|].
    constructor.
  - destruct (IH toks E) as [rest [Ht HF]].
    destruct (@LexFacts.skipWhitespace_done b _ b1 Hs) as [Hb _].
    destruct (@LexFacts.getNextToken_done l b1 tok b2 Hg) as [_ [_ Hb2]].
    exists (tok :: rest). split; [rewrite Ht, <- app_assoc; reflexivity|].
    constructor.
    + exists b1, b2. split; [exact Hb|]. split; [exact He|exact Hg].
    + eapply Forall_impl; [|exact HF].
      intros t [b1' [b2' [Hb' [He' Hg']]]]. exists b1', b2'.
      split; [|split; [exact He'|exact Hg']].
      rewrite Hb'. subst b2. unfold advance. cbn [buffer]. exact Hb.
Qed.

(** A state that comes back to itself never returns. *)
Lemma stuck_never_returns l b list res :
  runs l b list res ->
  forall tok,
    skipWhitespace b (skipNewline l) = Done b ->
    endOfInput b = false ->
    getNextToken l b = Done (tok, None, b) ->
    False.
Proof.
  induction 1 as [b list p Hs|b list b1 Hs He|b list b1 p Hs He Hg
                  |b list b1 tok err b2 Hs He Hg
                  |b list b1 tok b2 res Hs He Hg Hr IH];
    intros tok0 Hs0 He0 Hg0; rewrite Hs0 in Hs; try discriminate Hs;
    injection Hs as <-; try congruence.
  rewrite Hg0 in Hg. injection Hg as <- <-.
  exact (IH tok0 Hs0 He0 Hg0).
Qed.

(** A run that returns has found no token of empty value: the loop
    would have come back to the same state. *)
Lemma runs_tokens_not_empty l b list res :
  runs l b list res ->
  forall toks,
    res = Done (toks, None) ->
    exists rest,
      toks = list ++ rest /\ Forall (fun t => Value t <> "") rest.
Proof.
  induction 1 as [b list p Hs|b list b1 Hs He|b list b1 p Hs He Hg
                  |b list b1 tok err b2 Hs He Hg
                  |b list b1 tok b2 res Hs He Hg Hr IH];
    intros toks E; try discriminate E.
  - injection E as <-. exists []. split; [rewrite app_nil_r; reflexivity|].
    constructor.
  - destruct (IH toks E) as [rest [Ht HF]].
    exists (tok :: rest). split; [rewrite Ht, <- app_assoc; reflexivity|].
    constructor; [|exact HF].
    intros Hv.
    destruct (@LexFacts.getNextToken_done l b1 tok b2 Hg) as [_ [_ Hb2]].
    rewrite Hv in Hb2. cbn [String.length Z.of_nat] in Hb2.
    assert (Hb : b2 = b1).
    { rewrite Hb2. destruct b1 as [buf idx]. unfold advance.
      cbn [buffer index]. f_equal. lia. }
    clear Hb2. subst b2.
    exact (@stuck_never_returns l _ _ _ Hr tok
             (@skipWhitespace_again b _ b1 Hs) He Hg).
Qed.

(** ** [getNextToken] inside the buffer *)

Lemma current_in_bounds b rest :
  next b = Done rest -> endOfInput b = false -> exists c, current b = Done c.
Proof.
  unfold next, endOfInput, current. intros Hn He.
  destruct ((0 <=? index b) && (index b <=? len (buffer b)))%Z%bool eqn:E;
    [|discriminate].
  apply andb_prop in E. destruct E as [E0 _].
  apply Z.leb_le in E0. apply Z.leb_gt in He.
  destruct (index b <? 0)%Z eqn:E1; [apply Z.ltb_lt in E1; lia|].
  destruct (nth_error (buffer b) (Z.to_nat (index b))) as [c|] eqn:Hc; [eauto|].
  apply nth_error_None in Hc. unfold len in He. lia.
Qed.

Lemma next_in_bounds b :
  (0 <= index b)%Z -> endOfInput b = false ->
  next b = Done (skipn (Z.to_nat (index b)) (buffer b)).
Proof.
  unfold next, endOfInput. intros H0 He. apply Z.leb_gt in He.
  assert (E : ((0 <=? index b) && (index b <=? len (buffer b)))%Z%bool = true).
  { rewrite andb_true_iff, !Z.leb_le. lia. }
  rewrite E. reflexivity.
Qed.

Lemma Compile_names_length s re :
  Compile s = Syntax.Ok re ->
  List.length (subexpNames re) = S (numSubexp re).
Proof.
  unfold Compile, Syntax.parse, Syntax.bind.
  destruct (Syntax.tokenize (list_ascii_of_string s)) as [ts|]; [|discriminate].
  destruct (Syntax.run ts Syntax.init_pstate) as [st|] eqn:Hr; [|discriminate].
  unfold Syntax.finish_parse. destruct (Syntax.below st); [|discriminate].
  intros H. injection H as <-. cbn [subexpNames numSubexp Syntax.tree
                                    Syntax.ngroups Syntax.group_names].
  cbn [List.length]. rewrite length_rev. f_equal.
  destruct (@ParserFacts.numbered_run ts _ _ ParserFacts.numbered_init Hr)
    as [Hn _].
  exact Hn.
Qed.

Lemma New_compiled ps l :
  New ps = Some (inl l) ->
  List.length (subexpNames (regexps l)) = S (numSubexp (regexps l)).
Proof.
  unfold New. destruct (New_loop 0 ps "" true) as [rs sk].
  destruct (Compile rs) as [re|[]] eqn:Hc; try discriminate.
  intros H. injection H as <-. cbn [regexps].
  exact (@Compile_names_length rs re Hc).
Qed.

(** The loop of [getNextToken] reads inside the offsets, the names and
    the buffer. *)
Lemma getNextToken_loop_in_range l b rest c st e :
  List.length (subexpNames (regexps l)) = S (numSubexp (regexps l)) ->
  next b = Done rest ->
  caps_ok rest c ->
  forall todo i p,
    i + todo = numSubexp (regexps l) ->
    getNextToken_loop l b
      (st :: e :: flat_map (cap_pair c) (seq 1 (numSubexp (regexps l))))
      todo (Z.of_nat i) = Panic p ->
    p = FailedToFindMatchIndex.
Proof.
  intros Hnames Hnext Hc.
  induction todo as [|todo IH]; intros i p Hi H; cbn [getNextToken_loop] in H.
  - injection H as <-. reflexivity.
  - replace (Z.of_nat i + 1)%Z with (Z.of_nat (S i)) in H by lia.
    destruct (@ScanFacts.nth_int_offsets c st e (numSubexp (regexps l)) (S i))
      as [Ha Hb]; [lia|].
    cbv zeta in Ha, Hb. rewrite Ha, Hb in H.
    unfold cap_beg, cap_end in H.
    destruct (c (S i)) as [[bk ek]|] eqn:Hk.
    + assert (Hb1 : (Z.of_nat bk =? -1)%Z = false) by (apply Z.eqb_neq; lia).
      rewrite Hb1 in H. unfold SubexpNames in H. rewrite Nat2Z.id in H.
      destruct (nth_error (subexpNames (regexps l)) (S i)) as [name|] eqn:Hn.
      * destruct (Strconv.ParseInt_10_32 name).
        -- exfalso. destruct (Hc _ _ _ Hk) as [Hbe Hel].
           replace (Z.of_nat ek - Z.of_nat bk)%Z with (Z.of_nat (ek - bk)) in H
             by lia.
           rewrite (@TokenFacts.substring_next b rest (ek - bk) Hnext) in H
             by lia.
           discriminate H.
        -- apply (IH (S i) p); [lia|exact H].
      * exfalso. apply nth_error_None in Hn. lia.
    + change ((-1 =? -1)%Z) with true in H. cbv iota in H.
      apply (IH (S i) p); [lia|exact H].
Qed.

Lemma getNextToken_in_range ps l b p :
  New ps = Some (inl l) ->
  (0 <= index b)%Z -> endOfInput b = false ->
  getNextToken l b = Panic p ->
  p = FailedToFindMatchIndex.
Proof.
  intros HNew H0 He. pose proof (@next_in_bounds b H0 He) as Hnext.
  unfold getNextToken. rewrite Hnext.
  set (rest := skipn (Z.to_nat (index b)) (buffer b)) in *.
  unfold FindAllSubmatchIndex1.
  destruct (search (prog (regexps l)) rest (List.length rest) 0)
    as [[[st e] c]|] eqn:Hsearch.
  - intros H. unfold NumSubexp in H.
    rewrite Nat2Z.id in H.
    destruct (@MatcherFacts.search_some _ _ _ _ _ _ _ Hsearch)
      as [_ [Hst [Hpick _]]].
    specialize (Hst (Nat.le_0_l _)).
    destruct (@MatcherFacts.pick_longest_spec _ _ Hpick) as [l1 [l2 [Hws _]]].
    assert (Hin : In (e, c) (matches (prog (regexps l)) rest st no_caps)).
    { rewrite Hws. apply in_or_app. right. left. reflexivity. }
    destruct (@MatcherFacts.matches_sound rest (prog (regexps l)) st no_caps
                (e, c)) as [_ Hok]; [lia|apply MatcherFacts.caps_ok_no_caps|exact Hin|].
    apply (@getNextToken_loop_in_range l b rest c (Z.of_nat st) (Z.of_nat e)
             (@New_compiled ps l HNew) Hnext Hok
             (numSubexp (regexps l)) 0 p); [lia|exact H].
  - destruct (@current_in_bounds b rest Hnext He) as [c Hc]. rewrite Hc.
    discriminate.
Qed.

End RunFacts.

(** ** Pattern sets of valid patterns *)

Module ValidFacts.

(** [getNextToken] inside the input, for patterns valid on their own:
    a [MatchError] where no pattern matches, or a token with the index
    of a pattern. *)
Lemma getNextToken_valid ps l b :
  well_formed ps ->
  New ps = Some (inl l) ->
  (0 <= index b)%Z -> endOfInput b = false ->
  (exists tok,
      getNextToken l b = Done (tok, Some (MatchError (index b)), b)
      /\ forall i pi, nth_error ps i = Some pi ->
                      pattern_ends pi (skipn (Z.to_nat (index b)) (buffer b)) = [])
  \/ (exists j pj tok b2,
         getNextToken l b = Done (tok, None, b2)
         /\ ID tok = Z.of_nat j /\ nth_error ps j = Some pj).
Proof.
  intros [Hne [Hcount Hvalid]] HNew H0 He.
  destruct (NewFacts.New_grouped Hne Hcount Hvalid) as [l' [gs [HNew' [G F2]]]].
  rewrite HNew in HNew'. injection HNew' as <-.
  pose proof (@RunFacts.next_in_bounds b H0 He) as Hnext.
  destruct (@TokenFacts.getNextToken_grouped l gs b _ G Hnext)
    as [[Hnone Hends]|[st [e [j [gj [Hb [Hj [_ [_ [_ Htok]]]]]]]]]].
  - left. destruct (@RunFacts.current_in_bounds b _ Hnext He) as [c Hc].
    exists (mkToken (-1) (string_of_byte c) (index b)). split.
    + unfold getNextToken. rewrite Hnext, Hnone, Hc. reflexivity.
    + intros i pi Hi.
      destruct (@TokenFacts.Forall2_nth_l _ _ _ _ _ i pi F2 Hi) as [gi [Hgi Hei]].
      rewrite <- Hei. apply Hends.
      eapply nth_error_In. exact Hgi.
  - right.
    destruct (@TokenFacts.Forall2_nth_r _ _ _ _ _ j gj F2 Hj) as [pj [Hpj _]].
    exists j, pj. eexists. eexists. split; [exact Htok|].
    split; [reflexivity|exact Hpj].
Qed.

End ValidFacts.

(** ** Lists and strings *)

Module ListFacts.

Import TokenListM.

Lemma length_assign (t : TokenList) :
  forall i x, List.length (assign t i x) = List.length t.
Proof.
  induction t as [|a t IH]; intros [|i] x; simpl; auto.
Qed.

Lemma nth_assign_same (t : TokenList) :
  forall i x, i < List.length t -> nth_error (assign t i x) i = Some x.
Proof.
  induction t as [|a t IH]; intros [|i] x H; simpl in *; try lia.
  - reflexivity.
  - apply IH. lia.
Qed.

Lemma nth_assign_other (t : TokenList) :
  forall i x k, k <> i -> nth_error (assign t i x) k = nth_error t k.
Proof.
  induction t as [|a t IH]; intros [|i] x [|k] H; simpl; auto; try congruence.
Qed.

Lemma at_index_done (t : TokenList) i :
  (0 <= i < Z.of_nat (List.length t))%Z ->
  exists a, nth_error t (Z.to_nat i) = Some a /\ at_index t i = Done a.
Proof.
  intros H. unfold at_index.
  assert (E : (i <? 0)%Z = false) by (apply Z.ltb_ge; lia). rewrite E.
  destruct (nth_error t (Z.to_nat i)) as [a|] eqn:Ha; [eauto|].
  apply nth_error_None in Ha. lia.
Qed.

Lemma at_index_inv (t : TokenList) i a :
  at_index t i = Done a ->
  (0 <= i < Z.of_nat (List.length t))%Z /\ nth_error t (Z.to_nat i) = Some a.
Proof.
  unfold at_index. destruct (i <? 0)%Z eqn:E; [discriminate|].
  apply Z.ltb_ge in E.
  destruct (nth_error t (Z.to_nat i)) as [x|] eqn:Hx; [|discriminate].
  intros H. injection H as <-. split; [|reflexivity].
  assert (Z.to_nat i < List.length t) by (apply nth_error_Some; congruence).
  lia.
Qed.

Lemma at_index_nth (t t' : TokenList) i k :
  (0 <= i)%Z ->
  nth_error t' (Z.to_nat i) = nth_error t k ->
  at_index t' i = match nth_error t k with
                  | Some x => Done x
                  | None => Panic IndexOutOfRange
                  end.
Proof.
  intros H E. unfold at_index.
  assert (E0 : (i <? 0)%Z = false) by (apply Z.ltb_ge; lia).
  rewrite E0, E. reflexivity.
Qed.

Lemma append_inj_l p a b : (p ++ a)%string = (p ++ b)%string -> a = b.
Proof.
  induction p as [|c p IH]; simpl; intros H; [exact H|].
  injection H as H. exact (IH H).
Qed.

Lemma format_d_inj a b : Strconv.format_d a = Strconv.format_d b -> a = b.
Proof.
  unfold Strconv.format_d. intros H.
  pose proof (NilEmpty.usu (N.to_uint (N.of_nat a))) as Ha.
  pose proof (NilEmpty.usu (N.to_uint (N.of_nat b))) as Hb.
  rewrite H, Hb in Ha. injection Ha as Ha.
  apply (f_equal N.of_uint) in Ha. rewrite !DecimalN.Unsigned.of_to in Ha.
  apply Nat2N.inj. symmetry. exact Ha.
Qed.

Lemma format_d_not_minus n t : Strconv.format_d n <> String "-" t.
Proof.
  unfold Strconv.format_d. intros H.
  destruct (StrconvFacts.string_of_uint_head
              (StrconvFacts.to_uint_not_nil (N.of_nat n)))
    as [c [t' [Hs [_ Hm]]]].
  rewrite Hs in H. injection H as -> _. discriminate Hm.
Qed.

Lemma format_int_inj i j : Strconv.format_int i = Strconv.format_int j -> i = j.
Proof.
  unfold Strconv.format_int.
  destruct (i <? 0)%Z eqn:Ei, (j <? 0)%Z eqn:Ej; intros H;
    try apply Z.ltb_lt in Ei; try apply Z.ltb_lt in Ej;
    try apply Z.ltb_ge in Ei; try apply Z.ltb_ge in Ej.
  - simpl in H. injection H as H. apply format_d_inj in H. lia.
  - exfalso. simpl in H. symmetry in H. exact (format_d_not_minus _ H).
  - exfalso. simpl in H. exact (format_d_not_minus _ H).
  - apply format_d_inj in H. lia.
Qed.

Lemma ltb_irrefl s : String.ltb s s = false.
Proof.
  unfold String.ltb. pose proof (String.compare_antisym s s) as A.
  destruct (String.compare s s); [reflexivity|discriminate A|reflexivity].
Qed.

Lemma ltb_false_both a b :
  String.ltb a b = false -> String.ltb b a = false -> a = b.
Proof.
  unfold String.ltb. intros H1 H2.
  pose proof (String.compare_antisym a b) as A.
  destruct (String.compare a b) eqn:E1.
  - apply String.compare_eq_iff. exact E1.
  - discriminate H1.
  - destruct (String.compare b a); simpl in A; discriminate.
Qed.

End ListFacts.

(** ** The scan *)

(** X1. When the matcher finds nothing in the input that remains at a position
    the scan reaches, [Lex] returns no token and the [MatchError] of that
    position. *)
Theorem Lex_reports_MatchError :
  forall l input b list b1 rest,
    failure input = None ->
    reaches l (contents input) b list ->
    skipWhitespace b (skipNewline l) = Done b1 ->
    endOfInput b1 = false ->
    next b1 = Done rest ->
    FindAllSubmatchIndex1 (regexps l) rest = [] ->
    exists fuel0, forall fuel, fuel0 <= fuel ->
      Lex fuel l input = Some (Done ([], Some (MatchError (index b1)))).
Proof.
  intros l input b list b1 rest Hf Hr Hs He Hn Hm.
  destruct (RunFacts.Lex_loop_from_reached Hr) as [k Hk].
  destruct (@RunFacts.current_in_bounds b1 rest Hn He) as [c Hc].
  exists (S k). intros fuel Hle. unfold Lex. rewrite Hf.
  replace fuel with (k + S (fuel - S k)) by lia.
  rewrite Hk. cbn [Lex_loop]. rewrite Hs, He.
  unfold getNextToken. rewrite Hn, Hm, Hc. reflexivity.
Qed.

Lemma Lex_reports_MatchError_witness :
  exists fuel0, forall fuel, fuel0 <= fuel ->
    Lex fuel (lexer_of ["[[:alpha:]]+"]) (NewReader " ?")
    = Some (Done ([], Some (MatchError 1))).
Proof.
  apply (@Lex_reports_MatchError (lexer_of ["[[:alpha:]]+"]) (NewReader " ?")
           (mkBuffer (chars " ?") 0) [] (mkBuffer (chars " ?") 1) (chars "?")).
  - reflexivity.
  - constructor.
  - vm_compute. reflexivity.
  - vm_compute. reflexivity.
  - vm_compute. reflexivity.
  - vm_compute. reflexivity.
Defined.

(** X2. When [Lex] returns an error it returns no token, and the error is
    the [InputError] of the reader, or a [MatchError] whose index is the
    position of a byte of the input that is not skipped, from which on the
    matcher finds nothing. *)
Theorem Lex_error_returns_no_tokens :
  forall fuel l input toks e,
    Lex fuel l input = Some (Done (toks, Some e)) ->
    toks = []
    /\ ((exists err, failure input = Some err /\ e = InputError err)
        \/ (failure input = None
            /\ exists idx c,
                 e = MatchError (Z.of_nat idx)
                 /\ nth_error (contents input) idx = Some c
                 /\ skippable (skipNewline l) c = false
                 /\ FindAllSubmatchIndex1 (regexps l)
                      (skipn idx (contents input)) = [])).
Proof.
  intros fuel l input toks e H.
  destruct (failure input) as [err|] eqn:Hf.
  - unfold Lex in H. rewrite Hf in H. injection H as <- <-.
    split; [reflexivity|]. left. exists err. split; reflexivity.
  - pose proof (@RunFacts.Lex_runs fuel l input _ Hf H) as Hr.
    destruct (@RunFacts.runs_error_at l _ _ _ Hr toks e eq_refl)
      as [Ht [b1 [tok [b2 [Hb [Hi [He [Hst Hg]]]]]]]].
    cbn [buffer index] in Hb, Hi, Hst.
    split; [exact Ht|]. right. split; [reflexivity|].
    destruct (@LexFacts.getNextToken_error l b1 tok e b2 Hg)
      as [Hee [_ [rest [Hn Hm]]]].
    destruct (@TokenFacts.next_done b1 rest Hn) as [_ [Hrest _]].
    destruct (@RunFacts.current_in_bounds b1 rest Hn He) as [c Hc].
    exists (Z.to_nat (index b1)), c.
    rewrite Z2Nat.id by lia. split; [exact Hee|].
    assert (Hnth : nth_error (contents input) (Z.to_nat (index b1)) = Some c).
    { unfold current in Hc. destruct (index b1 <? 0)%Z; [discriminate|].
      rewrite Hb in Hc.
      destruct (nth_error (contents input) (Z.to_nat (index b1)));
        [injection Hc as ->; reflexivity|discriminate]. }
    split; [exact Hnth|]. split; [exact (Hst c Hnth)|].
    rewrite <- Hb, <- Hrest. exact Hm.
Qed.

Lemma Lex_error_returns_no_tokens_witness :
  @nil Token = []
  /\ ((exists err, failure (NewReader "ab ?") = Some err
                   /\ MatchError 3 = InputError err)
      \/ (failure (NewReader "ab ?") = None
          /\ exists idx c,
               MatchError 3 = MatchError (Z.of_nat idx)
               /\ nth_error (contents (NewReader "ab ?")) idx = Some c
               /\ skippable (skipNewline (lexer_of ["[[:alpha:]]+"])) c = false
               /\ FindAllSubmatchIndex1 (regexps (lexer_of ["[[:alpha:]]+"]))
                    (skipn idx (contents (NewReader "ab ?"))) = [])).
Proof.
  apply (@Lex_error_returns_no_tokens 5 (lexer_of ["[[:alpha:]]+"])
           (NewReader "ab ?") [] (MatchError 3)).
  vm_compute. reflexivity.
Defined.



(** X4. The tokens [Lex] returns are in the order of the input and do not
    overlap: each one ends before the next one starts. *)
Theorem Lex_tokens_in_order :
  forall fuel l input toks l1 t1 t2 l2,
    Lex fuel l input = Some (Done (toks, None)) ->
    toks = l1 ++ t1 :: t2 :: l2 ->
    (Index t1 + Z.of_nat (String.length (Value t1)) <= Index t2)%Z.
Proof.
  intros fuel l input toks l1 t1 t2 l2 H E.
  destruct (failure input) as [err|] eqn:Hf.
  { unfold Lex in H. rewrite Hf in H. discriminate H. }
  pose proof (@RunFacts.Lex_runs fuel l input _ Hf H) as Hr.
  destruct (@RunFacts.runs_laid_out l _ _ _ Hr toks eq_refl) as [rest [Ht Hl]].
  cbn [app] in Ht. subst rest. rewrite E in Hl.
  exact (@RunFacts.laid_out_order _ _ l1 _ t1 t2 l2 Hl).
Qed.

Lemma Lex_tokens_in_order_witness :
  (Index (mkToken 0 "ab" 0)
   + Z.of_nat (String.length (Value (mkToken 0 "ab" 0)))
   <= Index (mkToken 1 "12" 3))%Z.
Proof.
  apply (@Lex_tokens_in_order 5 (lexer_of ["[[:alpha:]]+"; "[[:digit:]]+"])
           (NewReader "ab 12") [mkToken 0 "ab" 0; mkToken 1 "12" 3]
           [] (mkToken 0 "ab" 0) (mkToken 1 "12" 3) []).
  - vm_compute. reflexivity.
  - reflexivity.
Defined.

(** X5. When [Lex] succeeds, every byte of the input that is not skipped
    white space lies inside one of the tokens. *)
Theorem Lex_covers_input :
  forall fuel l input toks i c,
    Lex fuel l input = Some (Done (toks, None)) ->
    nth_error (contents input) i = Some c ->
    skippable (skipNewline l) c = false ->
    exists t,
      In t toks
      /\ (Index t <= Z.of_nat i
          < Index t + Z.of_nat (String.length (Value t)))%Z.
Proof.
  intros fuel l input toks i c H Hc Hs.
  destruct (failure input) as [err|] eqn:Hf.
  { unfold Lex in H. rewrite Hf in H. discriminate H. }
  pose proof (@RunFacts.Lex_runs fuel l input _ Hf H) as Hr.
  destruct (@RunFacts.runs_laid_out l _ _ _ Hr toks eq_refl) as [rest [Ht Hl]].
  cbn [app] in Ht. subst rest. cbn [buffer index] in Hl.
  apply (@RunFacts.laid_out_covers _ _ toks 0%Z i c Hl); [lia|exact Hc|exact Hs].
Qed.

Lemma Lex_covers_input_witness :
  exists t,
    In t [mkToken 0 "ab" 0; mkToken 1 "12" 3]
    /\ (Index t <= Z.of_nat 4
        < Index t + Z.of_nat (String.length (Value t)))%Z.
Proof.
  apply (@Lex_covers_input 5 (lexer_of ["[[:alpha:]]+"; "[[:digit:]]+"])
           (NewReader "ab 12") [mkToken 0 "ab" 0; mkToken 1 "12" 3] 4 "2"%char).
  - vm_compute. reflexivity.
  - reflexivity.
  - vm_compute. reflexivity.
Defined.

(** X6. Every token [Lex] returns has a value of one byte at least. *)
Theorem Lex_tokens_not_empty :
  forall fuel l input toks t,
    Lex fuel l input = Some (Done (toks, None)) ->
    In t toks ->
    Value t <> "".
Proof.
  intros fuel l input toks t H Hin.
  destruct (failure input) as [err|] eqn:Hf.
  { unfold Lex in H. rewrite Hf in H. discriminate H. }
  pose proof (@RunFacts.Lex_runs fuel l input _ Hf H) as Hr.
  destruct (@RunFacts.runs_tokens_not_empty l _ _ _ Hr toks eq_refl)
    as [rest [Ht HF]].
  cbn [app] in Ht. subst rest. rewrite Forall_forall in HF.
  exact (HF t Hin).
Qed.

Lemma Lex_tokens_not_empty_witness : Value (mkToken 1 "12" 3) <> "".
Proof.
  apply (@Lex_tokens_not_empty 5 (lexer_of ["[[:alpha:]]+"; "[[:digit:]]+"])
           (NewReader "ab 12") [mkToken 0 "ab" 0; mkToken 1 "12" 3]).
  - vm_compute. reflexivity.
  - right. left. reflexivity.
Defined.

(** X7. On an input of skipped bytes only, the empty input among them, [Lex]
    returns the empty list and no error, whatever the patterns. *)
Theorem Lex_whitespace_only :
  forall fuel l input,
    failure input = None ->
    Forall (fun c => skippable (skipNewline l) c = true) (contents input) ->
    Lex (S fuel) l input = Some (Done ([], None)).
Proof.
  intros fuel l input Hf Hall. unfold Lex. rewrite Hf. cbn [Lex_loop].
  unfold skipWhitespace. cbn [index buffer skipn Z.to_nat Z.ltb Z.compare].
  cbn [skipn].
  destruct (LexFacts.skipWhitespace_loop_spec (skipNewline l) (contents input) 0)
    as [n [Hn [Hle [_ Hstop]]]].
  change (skipn (Z.to_nat 0) (contents input)) with (contents input).
  rewrite Hn. unfold endOfInput. cbn [index buffer].
  assert (Hlen : n = List.length (contents input)).
  { destruct (Nat.eq_dec n (List.length (contents input))) as [E|E]; [exact E|].
    exfalso.
    destruct (nth_error (contents input) n) as [c|] eqn:Hc.
    - pose proof (Hstop c eq_refl) as Hno.
      rewrite Forall_forall in Hall.
      rewrite (Hall c) in Hno; [discriminate|].
      eapply nth_error_In. exact Hc.
    - apply nth_error_None in Hc. lia. }
  assert (E : (len (contents input) <=? 0 + Z.of_nat n)%Z = true).
  { apply Z.leb_le. unfold len. lia. }
  rewrite E. reflexivity.
Qed.

Lemma Lex_whitespace_only_witness :
  Lex 1 (lexer_of ["[[:alpha:]]+"]) (NewReader "  ") = Some (Done ([], None)).
Proof.
  apply (@Lex_whitespace_only 0 (lexer_of ["[[:alpha:]]+"]) (NewReader "  ")).
  - reflexivity.
  - repeat constructor.
Defined.

(** X8. A token of empty value makes [Lex] loop for ever: the index does not
    move, the same token is found again, and the list grows without
    end. *)
Theorem Lex_diverges_on_empty_token :
  forall l input b list b1 tok b2,
    failure input = None ->
    reaches l (contents input) b list ->
    skipWhitespace b (skipNewline l) = Done b1 ->
    endOfInput b1 = false ->
    getNextToken l b1 = Done (tok, None, b2) ->
    Value tok = "" ->
    forall fuel, Lex fuel l input = None.
Proof.
  intros l input b list b1 tok b2 Hf Hr Hs He Hg Hv fuel.
  destruct (Lex fuel l input) as [res|] eqn:H; [exfalso|reflexivity].
  pose proof (@RunFacts.Lex_runs fuel l input _ Hf H) as Hrun.
  assert (Hr2 : reaches l (contents input) b2 (list ++ [tok]))
    by (eapply reaches_step; eassumption).
  pose proof (@RunFacts.runs_from_reached l _ _ _ Hr2 _ Hrun) as Hrun2.
  destruct (@LexFacts.getNextToken_done l b1 tok b2 Hg) as [_ [_ Hb2]].
  rewrite Hv in Hb2. cbn [String.length Z.of_nat] in Hb2.
  assert (Hb : b2 = b1).
  { rewrite Hb2. destruct b1 as [buf idx]. unfold advance. cbn [buffer index].
    f_equal. lia. }
  clear Hb2. subst b2.
  apply (@RunFacts.stuck_never_returns l _ _ _ Hrun2 tok).
  - exact (@RunFacts.skipWhitespace_again b _ b1 Hs).
  - exact He.
  - exact Hg.
Qed.

Lemma Lex_diverges_on_empty_token_witness :
  Lex 1000 (lexer_of ["a*"]) (NewReader "b") = None.
Proof.
  apply (@Lex_diverges_on_empty_token (lexer_of ["a*"]) (NewReader "b")
           (mkBuffer (chars "b") 0) [] (mkBuffer (chars "b") 0)
           (mkToken 0 "" 0) (mkBuffer (chars "b") 0)).
  - reflexivity.
  - constructor.
  - vm_compute. reflexivity.
  - vm_compute. reflexivity.
  - vm_compute. reflexivity.
  - reflexivity.
Defined.

(** X9. A lexer that [New] returns never reads outside the buffer, the match
    offsets or the group names: the only panic of [Lex] is the one of the
    last line of [getNextToken]. *)
Theorem Lex_reads_in_range :
  forall ps l fuel input p,
    New ps = Some (inl l) ->
    Lex fuel l input = Some (Panic p) ->
    p = FailedToFindMatchIndex.
Proof.
  intros ps l fuel input p HNew H.
  destruct (failure input) as [err|] eqn:Hf.
  { unfold Lex in H. rewrite Hf in H. discriminate H. }
  pose proof (@RunFacts.Lex_runs fuel l input _ Hf H) as Hr.
  destruct (@RunFacts.runs_panic_at l _ _ _ Hr p eq_refl)
    as [b1 [_ [Hi [He Hg]]]]; [cbn [index]; lia|].
  exact (@RunFacts.getNextToken_in_range ps l b1 p HNew Hi He Hg).
Qed.

Lemma Lex_reads_in_range_witness :
  FailedToFindMatchIndex = FailedToFindMatchIndex.
Proof.
  apply (@Lex_reads_in_range ["a)|(b"] (lexer_of ["a)|(b"]) 1 (NewReader "b")).
  - vm_compute. reflexivity.
  - vm_compute. reflexivity.
Defined.





(** ** [New] and [getNextToken] *)



(** X13. A token that [getNextToken] returns without an error sits at the
    cursor, its value is the input from the cursor on, and the cursor
    moves by the length of the value. *)
Theorem getNextToken_token_at_cursor :
  forall l b tok b',
    getNextToken l b = Done (tok, None, b') ->
    Index tok = index b
    /\ round_trips (buffer b) tok
    /\ b' = advance b (Z.of_nat (String.length (Value tok))).
Proof.
  intros l b tok b' H.
  destruct (LexFacts.getNextToken_done _ _ H) as [Hi [Hs Hb]].
  split; [exact Hi|]. split; [|exact Hb].
  unfold round_trips. rewrite Hi. destruct b as [buf idx]. exact Hs.
Qed.

Lemma getNextToken_token_at_cursor_witness :
  Index (mkToken 1 "12" 3) = 3%Z
  /\ round_trips (chars "ab 12") (mkToken 1 "12" 3)
  /\ mkBuffer (chars "ab 12") 5
     = advance (mkBuffer (chars "ab 12") 3)
               (Z.of_nat (String.length (Value (mkToken 1 "12" 3)))).
Proof.
  apply (@getNextToken_token_at_cursor
           (lexer_of ["[[:alpha:]]+"; "[[:digit:]]+"])
           (mkBuffer (chars "ab 12") 3) (mkToken 1 "12" 3)
           (mkBuffer (chars "ab 12") 5)).
  vm_compute. reflexivity.
Defined.

(** ** The indexed buffer *)

(** X14. [skipWhitespace] moves the index over bytes to skip only, and stops
    at the end of the input or at a byte that is not skipped: a byte that
    is not white space or, when newlines are tokens, a newline. *)
Theorem skipWhitespace_stops_at_token :
  forall b sn b1,
    skipWhitespace b sn = Done b1 ->
    buffer b1 = buffer b
    /\ (index b <= index b1)%Z
    /\ (forall i c, (index b <= i < index b1)%Z ->
                    nth_error (buffer b) (Z.to_nat i) = Some c ->
                    skippable sn c = true)
    /\ (forall c, nth_error (buffer b) (Z.to_nat (index b1)) = Some c ->
                  skippable sn c = false).
Proof.
  intros b sn b1 H.
  destruct (LexFacts.skipWhitespace_done _ _ H) as [Hb [[H0 Hle] _]].
  split; [exact Hb|]. split; [exact Hle|]. split.
  - intros i c Hi Hc. revert H. unfold skipWhitespace.
    destruct (index b <? 0)%Z; [discriminate|].
    intros H. injection H as <-. cbn [index] in Hi.
    destruct (LexFacts.skipWhitespace_loop_spec sn
                (skipn (Z.to_nat (index b)) (buffer b)) (index b))
      as [n [Hn [_ [Hskip _]]]].
    rewrite Hn in Hi.
    apply (Hskip (Z.to_nat i - Z.to_nat (index b)) c); [lia|].
    rewrite nth_error_skipn. rewrite <- Hc. f_equal. lia.
  - intros c Hc. exact (LexFacts.skipWhitespace_stops _ _ H Hc).
Qed.

Lemma skipWhitespace_stops_at_token_witness :
  buffer (mkBuffer (chars "a  b") 3) = buffer (mkBuffer (chars "a  b") 1)
  /\ (index (mkBuffer (chars "a  b") 1) <= index (mkBuffer (chars "a  b") 3))%Z
  /\ (forall i c,
         (index (mkBuffer (chars "a  b") 1) <= i
          < index (mkBuffer (chars "a  b") 3))%Z ->
         nth_error (buffer (mkBuffer (chars "a  b") 1)) (Z.to_nat i) = Some c ->
         skippable true c = true)
  /\ (forall c,
         nth_error (buffer (mkBuffer (chars "a  b") 1))
                   (Z.to_nat (index (mkBuffer (chars "a  b") 3))) = Some c ->
         skippable true c = false).
Proof.
  apply (@skipWhitespace_stops_at_token (mkBuffer (chars "a  b") 1) true
                                        (mkBuffer (chars "a  b") 3)).
  vm_compute. reflexivity.
Defined.

(** X15. Skipping again where [skipWhitespace] stopped does not move, and
    skipping there with newlines as white space leads where skipping with
    newlines as white space leads from the start. *)
Theorem skipWhitespace_resumes_where_it_stopped :
  forall b sn b1,
    skipWhitespace b sn = Done b1 ->
    skipWhitespace b1 sn = Done b1
    /\ skipWhitespace b1 true = skipWhitespace b true.
Proof.
  intros b sn b1 H. split.
  - exact (@RunFacts.skipWhitespace_again b sn b1 H).
  - apply (@RunFacts.skipWhitespace_resumes b sn true b1); [reflexivity|exact H].
Qed.

Lemma skipWhitespace_resumes_where_it_stopped_witness :
  skipWhitespace (mkBuffer (chars (" " ++ newline_string ++ " a")) 1) false
  = Done (mkBuffer (chars (" " ++ newline_string ++ " a")) 1)
  /\ skipWhitespace (mkBuffer (chars (" " ++ newline_string ++ " a")) 1) true
     = skipWhitespace (mkBuffer (chars (" " ++ newline_string ++ " a")) 0) true.
Proof.
  apply (@skipWhitespace_resumes_where_it_stopped
           (mkBuffer (chars (" " ++ newline_string ++ " a")) 0) false
           (mkBuffer (chars (" " ++ newline_string ++ " a")) 1)).
  vm_compute. reflexivity.
Defined.

(** X16. The views of the buffer agree: with [rest] what [next] returns, the
    end of input is reached when [rest] is empty, [current] is the first
    byte of [rest], and [substring] and [advance] split [rest] in two. *)
Theorem buffer_views_agree :
  forall b rest,
    next b = Done rest ->
    (endOfInput b = true <-> rest = [])
    /\ (forall c, current b = Done c <-> exists r, rest = c :: r)
    /\ (forall n, n <= List.length rest ->
          substring b (Z.of_nat n) = Done (string_of_list_ascii (firstn n rest))
          /\ next (advance b (Z.of_nat n)) = Done (skipn n rest)).
Proof.
  intros b rest Hn.
  destruct (@TokenFacts.next_done b rest Hn) as [Hi [Hrest Hlen]].
  split; [|split].
  - unfold endOfInput. rewrite Z.leb_le. split.
    + intros H. destruct rest; [reflexivity|]. simpl in Hlen. lia.
    + intros ->. simpl in Hlen. lia.
  - intros c. unfold current.
    assert (E : (index b <? 0)%Z = false) by (apply Z.ltb_ge; lia).
    rewrite E.
    assert (Hhd : nth_error (buffer b) (Z.to_nat (index b)) = nth_error rest 0).
    { rewrite Hrest, nth_error_skipn. f_equal. lia. }
    rewrite Hhd. destruct rest as [|x r]; simpl; split.
    + discriminate.
    + intros [r H]. discriminate H.
    + intros H. injection H as ->. eauto.
    + intros [r' H]. injection H as -> _. reflexivity.
  - intros n Hle. split.
    + exact (@TokenFacts.substring_next b rest n Hn Hle).
    + unfold next, advance. cbn [buffer index].
      assert (E : ((0 <=? index b + Z.of_nat n)
                   && (index b + Z.of_nat n <=? len (buffer b)))%Z%bool = true).
      { rewrite andb_true_iff, !Z.leb_le. lia. }
      rewrite E. f_equal. rewrite Hrest, skipn_skipn. f_equal. lia.
Qed.

Lemma buffer_views_agree_witness :
  (endOfInput (mkBuffer (chars "ab 12") 3) = true <-> chars "12" = [])
  /\ (forall c, current (mkBuffer (chars "ab 12") 3) = Done c
                <-> exists r, chars "12" = c :: r)
  /\ (forall n, n <= List.length (chars "12") ->
        substring (mkBuffer (chars "ab 12") 3) (Z.of_nat n)
        = Done (string_of_list_ascii (firstn n (chars "12")))
        /\ next (advance (mkBuffer (chars "ab 12") 3) (Z.of_nat n))
           = Done (skipn n (chars "12"))).
Proof.
  apply (@buffer_views_agree (mkBuffer (chars "ab 12") 3) (chars "12")).
  vm_compute. reflexivity.
Defined.

(** ** Tokens and token lists *)

Lemma differ_false a b : TokenListM.differ a b = false <-> a = b.
Proof.
  unfold TokenListM.differ. rewrite negb_false_iff, !andb_true_iff.
  rewrite !Z.eqb_eq, String.eqb_eq. destruct a, b; simpl. split.
  - intros [[-> ->] ->]. reflexivity.
  - intros H. injection H as -> -> ->. auto.
Qed.


(** X18. Two tokens are each not [Less] than the other exactly when they are
    [Equals]; in particular no token is [Less] than itself. *)
Theorem Token_neither_Less_iff_Equals :
  forall t u,
    (TokenM.Less t u = false /\ TokenM.Less u t = false)
    <-> TokenM.Equals t u = true.
Proof.
  intros t u. split.
  - unfold TokenM.Less, TokenM.Equals. intros [H1 H2].
    destruct (String.ltb (Value t) (Value u)) eqn:V1; [discriminate|].
    destruct (String.ltb (Value u) (Value t)) eqn:V2; [discriminate|].
    destruct (ID t <? ID u)%Z eqn:I1; [discriminate|].
    destruct (ID u <? ID t)%Z eqn:I2; [discriminate|].
    apply Z.ltb_ge in I1, I2, H1, H2.
    rewrite (@ListFacts.ltb_false_both _ _ V1 V2), String.eqb_refl.
    rewrite !andb_true_iff, !Z.eqb_eq. lia.
  - unfold TokenM.Equals. intros H.
    apply andb_prop in H. destruct H as [H H3].
    apply andb_prop in H. destruct H as [H1 H2].
    apply Z.eqb_eq in H1, H3. apply String.eqb_eq in H2.
    unfold TokenM.Less. rewrite H1, H2, H3.
    rewrite ListFacts.ltb_irrefl, !Z.ltb_irrefl. auto.
Qed.

(** X19. Whenever [t] comes before [u] in the order by value, then pattern
    index, then offset, [t] is [Less] than [u]. *)
Theorem lexicographic_less_implies_Less :
  forall t u, lexicographic_less t u = true -> TokenM.Less t u = true.
Proof.
  intros t u. unfold lexicographic_less, TokenM.Less, String.ltb, Z.ltb.
  destruct (String.compare (Value t) (Value u)); try reflexivity;
    try discriminate.
  destruct (ID t ?= ID u)%Z; try reflexivity; try discriminate.
  auto.
Qed.

Lemma lexicographic_less_implies_Less_witness :
  TokenM.Less (mkToken 0 "a" 7) (mkToken 1 "a" 2) = true.
Proof.
  apply (@lexicographic_less_implies_Less (mkToken 0 "a" 7) (mkToken 1 "a" 2)).
  vm_compute. reflexivity.
Defined.

(** X20. [TokenList.Equals] never fails, and holds of two lists exactly when
    they are the same list. *)
Theorem TokenList_Equals_iff :
  forall t other,
    (TokenListM.Equals t other = Done true <-> t = other)
    /\ (TokenListM.Equals t other = Done true
        \/ TokenListM.Equals t other = Done false).
Proof.
  intros t other. unfold TokenListM.Equals.
  destruct (Z.of_nat (List.length t) =? Z.of_nat (List.length other))%Z eqn:E;
    simpl.
  - apply Z.eqb_eq in E. apply Nat2Z.inj in E.
    revert other E. induction t as [|a t IH]; intros [|b other] E;
      try discriminate E; simpl.
    + split; [tauto|]. left. reflexivity.
    + injection E as E. destruct (IH other E) as [IH1 IH2].
      destruct (TokenListM.differ a b) eqn:D.
      * split; [|right; reflexivity]. split; [discriminate|].
        intros H. injection H as -> _.
        assert (D' : TokenListM.differ b b = false) by (apply differ_false; reflexivity).
        congruence.
      * apply differ_false in D. subst b. split; [|exact IH2].
        rewrite IH1. split; [intros ->; reflexivity|].
        intros H. injection H as ->. reflexivity.
  - split; [|right; reflexivity]. split; [discriminate|].
    intros ->. apply Z.eqb_neq in E. congruence.
Qed.

(** X21. [TokenList.Less] fails exactly when one of the indices is outside
    the list; it says that no token is less than itself, and when it says
    that a token is less than another, [Token.Less] says so too. *)
Theorem TokenList_Less_refines_Token_Less :
  forall t i j,
    ((exists r, TokenListM.Less t i j = Done r)
     <-> (0 <= i < TokenListM.Len t /\ 0 <= j < TokenListM.Len t)%Z)
    /\ TokenListM.Less t i i <> Done true
    /\ (TokenListM.Less t i j = Done true ->
        exists a b,
          TokenListM.at_index t i = Done a /\ TokenListM.at_index t j = Done b
          /\ TokenM.Less a b = true).
Proof.
  intros t i j. unfold TokenListM.Less, TokenListM.Len. split; [|split].
  - split.
    + intros [r H].
      destruct (TokenListM.at_index t i) as [a|] eqn:Ha; [|discriminate].
      destruct (TokenListM.at_index t j) as [b|] eqn:Hb; [|discriminate].
      apply ListFacts.at_index_inv in Ha, Hb. tauto.
    + intros [Hi Hj].
      destruct (ListFacts.at_index_done t Hi) as [a [_ Ha]].
      destruct (ListFacts.at_index_done t Hj) as [b [_ Hb]].
      rewrite Ha, Hb. eauto.
  - destruct (TokenListM.at_index t i) as [a|]; [|discriminate].
    rewrite ListFacts.ltb_irrefl, Z.ltb_irrefl. discriminate.
  - destruct (TokenListM.at_index t i) as [a|]; [|discriminate].
    destruct (TokenListM.at_index t j) as [b|]; [|discriminate].
    intros H. injection H as H. exists a, b.
    split; [reflexivity|]. split; [reflexivity|].
    unfold TokenM.Less.
    destruct (String.ltb (Value a) (Value b)); [reflexivity|].
    rewrite H. reflexivity.
Qed.

(** X22. [TokenList.Swap] with both indices inside the list exchanges the two
    tokens and leaves the others and the length as they were. *)
Theorem TokenList_Swap_exchanges :
  forall t i j,
    (0 <= i < TokenListM.Len t)%Z ->
    (0 <= j < TokenListM.Len t)%Z ->
    exists t',
      TokenListM.Swap t i j = Done t'
      /\ TokenListM.Len t' = TokenListM.Len t
      /\ TokenListM.at_index t' i = TokenListM.at_index t j
      /\ TokenListM.at_index t' j = TokenListM.at_index t i
      /\ (forall k, k <> i -> k <> j ->
                    TokenListM.at_index t' k = TokenListM.at_index t k).
Proof.
  intros t i j Hi Hj. unfold TokenListM.Len in *.
  destruct (ListFacts.at_index_done t Hi) as [a [Hna Ha]].
  destruct (ListFacts.at_index_done t Hj) as [b [Hnb Hb]].
  unfold TokenListM.Swap. rewrite Ha, Hb. eexists. split; [reflexivity|].
  split; [rewrite !ListFacts.length_assign; reflexivity|].
  assert (Hget : forall k,
             (0 <= k)%Z ->
             nth_error (TokenListM.assign
                          (TokenListM.assign t (Z.to_nat i) b) (Z.to_nat j) a)
                       (Z.to_nat k)
             = if (k =? j)%Z then Some a
               else if (k =? i)%Z then Some b
               else nth_error t (Z.to_nat k)).
  { intros k Hk. destruct (k =? j)%Z eqn:Ej.
    - apply Z.eqb_eq in Ej. subst k. apply ListFacts.nth_assign_same.
      rewrite ListFacts.length_assign. lia.
    - apply Z.eqb_neq in Ej. rewrite ListFacts.nth_assign_other by lia.
      destruct (k =? i)%Z eqn:Ei.
      + apply Z.eqb_eq in Ei. subst k. apply ListFacts.nth_assign_same. lia.
      + apply Z.eqb_neq in Ei. apply ListFacts.nth_assign_other. lia. }
  assert (Hat : forall k,
             (0 <= k)%Z ->
             TokenListM.at_index
               (TokenListM.assign
                  (TokenListM.assign t (Z.to_nat i) b) (Z.to_nat j) a) k
             = if (k =? j)%Z then Done a
               else if (k =? i)%Z then Done b
               else TokenListM.at_index t k).
  { intros k Hk. unfold TokenListM.at_index.
    assert (E : (k <? 0)%Z = false) by (apply Z.ltb_ge; lia).
    rewrite E, (Hget k Hk).
    destruct (k =? j)%Z; [reflexivity|]. destruct (k =? i)%Z; reflexivity. }
  split; [|split].
  - rewrite Hat by lia. destruct (i =? j)%Z eqn:E.
    + apply Z.eqb_eq in E. subst j. congruence.
    + rewrite Z.eqb_refl. reflexivity.
  - rewrite Hat by lia. rewrite Z.eqb_refl. reflexivity.
  - intros k Hki Hkj. destruct (Z_lt_le_dec k 0) as [Hneg|Hpos].
    + unfold TokenListM.at_index.
      assert (E : (k <? 0)%Z = true) by (apply Z.ltb_lt; exact Hneg).
      rewrite E. reflexivity.
    + rewrite Hat by exact Hpos.
      assert (E1 : (k =? j)%Z = false) by (apply Z.eqb_neq; exact Hkj).
      assert (E2 : (k =? i)%Z = false) by (apply Z.eqb_neq; exact Hki).
      rewrite E1, E2. reflexivity.
Qed.

Lemma TokenList_Swap_exchanges_witness :
  exists t',
    TokenListM.Swap [mkToken 0 "ab" 0; mkToken 1 "12" 3] 0 1 = Done t'
    /\ TokenListM.Len t' = TokenListM.Len [mkToken 0 "ab" 0; mkToken 1 "12" 3]
    /\ TokenListM.at_index t' 0
       = TokenListM.at_index [mkToken 0 "ab" 0; mkToken 1 "12" 3] 1
    /\ TokenListM.at_index t' 1
       = TokenListM.at_index [mkToken 0 "ab" 0; mkToken 1 "12" 3] 0
    /\ (forall k, k <> 0%Z -> k <> 1%Z ->
                  TokenListM.at_index t' k
                  = TokenListM.at_index [mkToken 0 "ab" 0; mkToken 1 "12" 3] k).
Proof.
  apply (@TokenList_Swap_exchanges [mkToken 0 "ab" 0; mkToken 1 "12" 3] 0 1).
  - vm_compute. split; [discriminate|reflexivity].
  - vm_compute. split; [discriminate|reflexivity].
Defined.

(** X23. [TokenList.Swap] fails, and changes nothing, exactly when an index is
    outside the list; swapping the same two tokens again gives the list
    back. *)
Theorem TokenList_Swap_twice :
  forall t i j,
    (TokenListM.Swap t i j = Panic IndexOutOfRange
     <-> ~ (0 <= i < TokenListM.Len t /\ 0 <= j < TokenListM.Len t)%Z)
    /\ (forall t', TokenListM.Swap t i j = Done t' ->
                   TokenListM.Swap t' i j = Done t).
Proof.
  intros t i j. unfold TokenListM.Len. split.
  - unfold TokenListM.Swap. split.
    + intros H [Hi Hj].
      destruct (ListFacts.at_index_done t Hi) as [a [_ Ha]].
      destruct (ListFacts.at_index_done t Hj) as [b [_ Hb]].
      rewrite Ha, Hb in H. discriminate H.
    + intros H.
      destruct (TokenListM.at_index t j) as [b|[]] eqn:Hb;
        destruct (TokenListM.at_index t i) as [a|[]] eqn:Ha;
        try reflexivity;
        try (unfold TokenListM.at_index in *;
             repeat match goal with
                    | H : (if ?c then _ else _) = _ |- _ => destruct c; try discriminate H
                    | H : match ?x with Some _ => _ | None => _ end = _ |- _ =>
                      destruct x; try discriminate H
                    end; fail).
      exfalso. apply H.
      apply ListFacts.at_index_inv in Ha, Hb. tauto.
  - intros t' H. unfold TokenListM.Swap in H.
    destruct (TokenListM.at_index t j) as [b|] eqn:Hb; [|discriminate].
    destruct (TokenListM.at_index t i) as [a|] eqn:Ha; [|discriminate].
    injection H as <-.
    destruct (ListFacts.at_index_inv _ _ Ha) as [Hi Hna].
    destruct (ListFacts.at_index_inv _ _ Hb) as [Hj Hnb].
    assert (Hget : forall k x y,
               nth_error (TokenListM.assign
                            (TokenListM.assign t (Z.to_nat i) x) (Z.to_nat j) y) k
               = if Nat.eqb k (Z.to_nat j) then Some y
                 else if Nat.eqb k (Z.to_nat i) then Some x
                 else nth_error t k).
    { intros k x y. destruct (Nat.eqb k (Z.to_nat j)) eqn:Ej.
      - apply Nat.eqb_eq in Ej. subst k. apply ListFacts.nth_assign_same.
        rewrite ListFacts.length_assign. lia.
      - apply Nat.eqb_neq in Ej. rewrite ListFacts.nth_assign_other by exact Ej.
        destruct (Nat.eqb k (Z.to_nat i)) eqn:Ei.
        + apply Nat.eqb_eq in Ei. subst k. apply ListFacts.nth_assign_same. lia.
        + apply Nat.eqb_neq in Ei. apply ListFacts.nth_assign_other. exact Ei. }
    set (t1 := TokenListM.assign (TokenListM.assign t (Z.to_nat i) b)
                                 (Z.to_nat j) a).
    assert (Ha1 : TokenListM.at_index t1 i = Done (if (i =? j)%Z then a else b)).
    { unfold TokenListM.at_index.
      assert (E : (i <? 0)%Z = false) by (apply Z.ltb_ge; lia).
      rewrite E. unfold t1. rewrite Hget.
      destruct (Nat.eqb (Z.to_nat i) (Z.to_nat j)) eqn:Eij.
      - apply Nat.eqb_eq in Eij.
        assert (Ez : (i =? j)%Z = true) by (apply Z.eqb_eq; lia).
        rewrite Ez. reflexivity.
      - apply Nat.eqb_neq in Eij.
        assert (Ez : (i =? j)%Z = false) by (apply Z.eqb_neq; lia).
        rewrite Ez, Nat.eqb_refl. reflexivity. }
    assert (Hb1 : TokenListM.at_index t1 j = Done a).
    { unfold TokenListM.at_index.
      assert (E : (j <? 0)%Z = false) by (apply Z.ltb_ge; lia).
      rewrite E. unfold t1. rewrite Hget, Nat.eqb_refl. reflexivity. }
    unfold TokenListM.Swap. rewrite Hb1, Ha1. f_equal.
    apply nth_error_ext. intros k.
    assert (Hlen : List.length t1 = List.length t)
      by (unfold t1; rewrite !ListFacts.length_assign; reflexivity).
    assert (Hget1 : forall x y,
               nth_error (TokenListM.assign
                            (TokenListM.assign t1 (Z.to_nat i) x) (Z.to_nat j) y) k
               = if Nat.eqb k (Z.to_nat j) then Some y
                 else if Nat.eqb k (Z.to_nat i) then Some x
                 else nth_error t1 k).
    { intros x y. destruct (Nat.eqb k (Z.to_nat j)) eqn:Ej.
      - apply Nat.eqb_eq in Ej. subst k. apply ListFacts.nth_assign_same.
        rewrite ListFacts.length_assign. lia.
      - apply Nat.eqb_neq in Ej. rewrite ListFacts.nth_assign_other by exact Ej.
        destruct (Nat.eqb k (Z.to_nat i)) eqn:Ei.
        + apply Nat.eqb_eq in Ei. subst k. apply ListFacts.nth_assign_same. lia.
        + apply Nat.eqb_neq in Ei. apply ListFacts.nth_assign_other. exact Ei. }
    rewrite Hget1. unfold t1. rewrite Hget.
    destruct (Nat.eqb k (Z.to_nat j)) eqn:Ej.
    + apply Nat.eqb_eq in Ej. subst k. destruct (i =? j)%Z eqn:Eij.
      * apply Z.eqb_eq in Eij. subst j. congruence.
      * symmetry. exact Hnb.
    + destruct (Nat.eqb k (Z.to_nat i)) eqn:Ei; [|reflexivity].
      apply Nat.eqb_eq in Ei. subst k. symmetry. exact Hna.
Qed.

(** ** Errors *)

(** X24. Two [MatchError]s print the same message only when they have the
    same index. *)
Theorem MatchError_Error_injective :
  forall i j, MatchError_Error i = MatchError_Error j -> i = j.
Proof.
  intros i j H. unfold MatchError_Error in H.
  apply ListFacts.append_inj_l in H. exact (ListFacts.format_int_inj _ _ H).
Qed.

Lemma MatchError_Error_injective_witness : 8%Z = 8%Z.
Proof.
  apply (@MatchError_Error_injective 8 8). reflexivity.
Defined.
